(** * Session pipeline of the transcription-to-hint assistant

    A shallow embedding of the server's per-session pipeline
    (src/server/app) and the properties its specification states about it.

    Conventions of the embedding:
    - a Python [str] is a list of Unicode code points ([char] = [N]), so
      [len], slicing, [strip], [split] and [startswith] count characters
      the way Python does; ASCII literals are written [u "..."];
    - a Python [bytes] is a list of [Byte.byte];
    - a Python [int] is a [Z];
    - [time.time()] is an input of the function that reads it: a binary64
      number of seconds, held as the rational number it denotes; the
      arithmetic on clock readings is binary64 arithmetic (module
      [Binary64]);
    - objects that are mutated through several references (transcript
      segments, sessions) live in an explicit store and are named by
      their address. *)

From Stdlib Require Import ZArith NArith List Bool Lia String Ascii.
From Stdlib.Strings Require Import Byte.
From Stdlib Require Import QArith Reals Lra.
From Stdlib Require Lqa.
From Stdlib Require Floats.SpecFloat.
From stdpp Require Import base option list gmap.
Import ListNotations.

Local Open Scope Z_scope.
Local Open Scope list_scope.

(* ===================================================================== *)
(** * Lists *)
(* ===================================================================== *)

Module ListUtil.

(** The last [k] elements of a list, in order. *)
Definition lastn {A} (k : nat) (l : list A) : list A :=
  skipn (length l - k) l.

End ListUtil.

(* ===================================================================== *)
(** * Python strings *)
(* ===================================================================== *)

Module PyStr.

Definition char := N.
Abbreviation str := (list char).

(** An ASCII literal as a [str]. *)
Definition u (s : string) : str :=
  List.map N_of_ascii (list_ascii_of_string s).

Definition NL : char := 10%N.
Definition SP : char := 32%N.

(** [len(s)], for a string or a list *)
Definition len {A} (s : list A) : Z := Z.of_nat (length s).

(** [s[:n]] for an [int] n (a negative n counts from the end). *)
Definition slice_to {A} (s : list A) (n : Z) : list A :=
  if n <? 0 then firstn (Z.to_nat (len s + n)) s
  else firstn (Z.to_nat n) s.

Fixpoint str_eqb (a b : str) : bool :=
  match a, b with
  | [], [] => true
  | x :: a', y :: b' => N.eqb x y && str_eqb a' b'
  | _, _ => false
  end.

(** [s.startswith(p)] *)
Fixpoint startswith (s p : str) {struct p} : bool :=
  match p, s with
  | [], _ => true
  | c :: p', d :: s' => N.eqb c d && startswith s' p'
  | _ :: _, [] => false
  end.

(** [c in s] for a one-character [c]. *)
Definition contains (c : char) (s : str) : bool :=
  existsb (N.eqb c) s.

(** [str.isspace] on one character: the table of CPython's
    [_PyUnicode_IsWhitespace], which [str.strip()] consults. *)
Definition isspace (c : char) : bool :=
  ((9 <=? c) && (c <=? 13) || (28 <=? c) && (c <=? 32)
   || (c =? 133) || (c =? 160) || (c =? 5760)
   || (8192 <=? c) && (c <=? 8202)
   || (c =? 8232) || (c =? 8233) || (c =? 8239) || (c =? 8287)
   || (c =? 12288))%N.

(** [s.lstrip()], [s.rstrip()], [s.strip()] *)
Fixpoint lstrip (s : str) : str :=
  match s with
  | c :: s' => if isspace c then lstrip s' else s
  | [] => []
  end.

Definition rstrip (s : str) : str := rev (lstrip (rev s)).

Definition strip (s : str) : str := rstrip (lstrip s).

(** No whitespace at the front of [s]. *)
Definition head_ok (s : str) : Prop :=
  match s with
  | [] => True
  | c :: _ => isspace c = false
  end.

(** [s.split(sep)] for a one-character separator: never empty, one more
    field than separators. *)
Fixpoint split (sep : char) (s : str) : list str :=
  match s with
  | [] => [[]]
  | c :: s' =>
      if N.eqb c sep then [] :: split sep s'
      else match split sep s' with
           | f :: fs => (c :: f) :: fs
           | [] => [[c]]
           end
  end.

(** The characters of a list of strings, counted with [len]. *)
Definition total_len (parts : list str) : Z :=
  fold_right (fun p acc => len p + acc) 0 parts.

(** [sep.join(parts)] *)
Fixpoint join (sep : str) (parts : list str) : str :=
  match parts with
  | [] => []
  | [p] => p
  | p :: ps => p ++ sep ++ join sep ps
  end.

End PyStr.

(* ===================================================================== *)
(** * models/session.py *)
(* ===================================================================== *)

Module SessionModel.
Import PyStr.

Inductive SessionState := CREATED | ACTIVE | PAUSED | STOPPED.
Inductive SessionMode := INTERVIEW_ASSISTANT | MEETING_ASSISTANT.

Definition SessionState_eqb (a b : SessionState) : bool :=
  match a, b with
  | CREATED, CREATED | ACTIVE, ACTIVE | PAUSED, PAUSED | STOPPED, STOPPED => true
  | _, _ => false
  end.

Abbreviation bytes := (list byte).

(** [asyncio.Queue(maxsize)]: the frames waiting, oldest first. *)
Record Queue := mkQueue { maxsize : Z; items : list bytes }.

Definition qsize (q : Queue) : Z := Z.of_nat (length (items q)).

(** [Queue.full()]: a queue with [maxsize <= 0] is never full. *)
Definition full (q : Queue) : bool :=
  if maxsize q <=? 0 then false else maxsize q <=? qsize q.

(** [put_nowait]: [None] is [QueueFull]. *)
Definition put_nowait (q : Queue) (x : bytes) : option Queue :=
  if full q then None else Some (mkQueue (maxsize q) (items q ++ [x])).

(** [get_nowait]: [None] is [QueueEmpty]. *)
Definition get_nowait (q : Queue) : option (bytes * Queue) :=
  match items q with
  | [] => None
  | x :: rest => Some (x, mkQueue (maxsize q) rest)
  end.

Record SessionStats := mkStats {
  dropped_frames_mic : Z;
  dropped_frames_system : Z;
  total_frames_mic : Z;
  total_frames_system : Z;
  transcript_segments : Z;
  hints_generated : Z;
  stt_errors : Z;
  llm_errors : Z
}.

Definition dropped_frames_count (st : SessionStats) : Z :=
  dropped_frames_mic st + dropped_frames_system st.

(** The session object; its creation time and its list of background
    tasks play no part in what follows and are left out. *)
Record Session := mkSession {
  session_id : str;
  state : SessionState;
  mode : SessionMode;
  hints_enabled : bool;
  custom_prompt : option str;
  knowledge_workspace : option str;
  mic_queue : Queue;
  system_queue : Queue;
  stats : SessionStats
}.

(** The dataclass defaults of [Session(mode=...)]; the id is the fresh
    uuid the caller supplies. *)
Definition new_stats : SessionStats := mkStats 0 0 0 0 0 0 0 0.

Definition new_session (sid : str) (m : SessionMode) : Session :=
  mkSession sid CREATED m true None None
            (mkQueue 200 []) (mkQueue 200 []) new_stats.

Definition set_state (s : Session) (x : SessionState) : Session :=
  mkSession (session_id s) x (mode s) (hints_enabled s) (custom_prompt s)
            (knowledge_workspace s) (mic_queue s) (system_queue s) (stats s).

Definition set_mic_queue (s : Session) (q : Queue) : Session :=
  mkSession (session_id s) (state s) (mode s) (hints_enabled s)
            (custom_prompt s) (knowledge_workspace s) q (system_queue s)
            (stats s).

Definition set_system_queue (s : Session) (q : Queue) : Session :=
  mkSession (session_id s) (state s) (mode s) (hints_enabled s)
            (custom_prompt s) (knowledge_workspace s) (mic_queue s) q
            (stats s).

Definition set_stats (s : Session) (x : SessionStats) : Session :=
  mkSession (session_id s) (state s) (mode s) (hints_enabled s)
            (custom_prompt s) (knowledge_workspace s) (mic_queue s)
            (system_queue s) x.

End SessionModel.

(* ===================================================================== *)
(** * routes/websocket.py: audio ingress *)
(* ===================================================================== *)

Module Ingress.
Import PyStr SessionModel.

(** What the handler sends to the client. *)
Inductive ServerMessage :=
| MsgStatus (connected : bool) (active : bool) (dropped : Z) (hints : bool)
| MsgError (message : str).

Record ConnectionHandler := mkHandler { session : option Session }.

Inductive Channel := Mic | System.

(** [channel_id == 0], [channel_id == 1], or neither. *)
Definition channel_of (channel_id : byte) : option Channel :=
  match Byte.to_N channel_id with
  | 0%N => Some Mic
  | 1%N => Some System
  | _ => None
  end.

Definition queue_of (c : Channel) (s : Session) : Queue :=
  match c with Mic => mic_queue s | System => system_queue s end.

Definition set_queue (c : Channel) (s : Session) (q : Queue) : Session :=
  match c with Mic => set_mic_queue s q | System => set_system_queue s q end.

Definition dropped_of (c : Channel) (st : SessionStats) : Z :=
  match c with Mic => dropped_frames_mic st | System => dropped_frames_system st end.

Definition total_of (c : Channel) (st : SessionStats) : Z :=
  match c with Mic => total_frames_mic st | System => total_frames_system st end.

Definition incr_total (c : Channel) (st : SessionStats) : SessionStats :=
  match c with
  | Mic => mkStats (dropped_frames_mic st) (dropped_frames_system st)
                   (total_frames_mic st + 1) (total_frames_system st)
                   (transcript_segments st) (hints_generated st)
                   (stt_errors st) (llm_errors st)
  | System => mkStats (dropped_frames_mic st) (dropped_frames_system st)
                   (total_frames_mic st) (total_frames_system st + 1)
                   (transcript_segments st) (hints_generated st)
                   (stt_errors st) (llm_errors st)
  end.

Definition incr_dropped (c : Channel) (st : SessionStats) : SessionStats :=
  match c with
  | Mic => mkStats (dropped_frames_mic st + 1) (dropped_frames_system st)
                   (total_frames_mic st) (total_frames_system st)
                   (transcript_segments st) (hints_generated st)
                   (stt_errors st) (llm_errors st)
  | System => mkStats (dropped_frames_mic st) (dropped_frames_system st + 1)
                   (total_frames_mic st) (total_frames_system st)
                   (transcript_segments st) (hints_generated st)
                   (stt_errors st) (llm_errors st)
  end.

(** The body of [_handle_audio] once the session is known to be active
    and the frame long enough: route, count, enqueue with drop-oldest. *)
Definition enqueue_frame (s : Session) (c : Channel) (pcm_data : bytes) : Session :=
  let s1 := set_stats s (incr_total c (stats s)) in
  let queue := queue_of c s1 in
  match put_nowait queue pcm_data with
  | Some q' => set_queue c s1 q'
  | None =>
      (* QueueFull: drop the oldest frame, then try once more *)
      let q1 := match get_nowait queue with
                | Some (_, q) => q
                | None => queue
                end in
      let q2 := match put_nowait q1 pcm_data with
                | Some q => q
                | None => q1
                end in
      let s2 := set_queue c s1 q2 in
      set_stats s2 (incr_dropped c (stats s2))
  end.

(** [ConnectionHandler._handle_audio(data)]: the handler afterwards and
    the messages sent to the client meanwhile. *)
Definition _handle_audio (h : ConnectionHandler) (data : bytes)
  : ConnectionHandler * list ServerMessage :=
  match session h with
  | None => (h, [])
  | Some s =>
      if negb (SessionState_eqb (state s) ACTIVE) then (h, [])
      else if Z.of_nat (length data) <? 2 then (h, [])
      else match data with
           | channel_id :: pcm_data =>
               match channel_of channel_id with
               | Some c => (mkHandler (Some (enqueue_frame s c pcm_data)), [])
               | None => (h, [])
               end
           | [] => (h, [])
           end
  end.

(** The receive loop on a run of binary messages. *)
Fixpoint deliver (h : ConnectionHandler) (msgs : list bytes)
  : ConnectionHandler * list ServerMessage :=
  match msgs with
  | [] => (h, [])
  | m :: rest =>
      let '(h1, out1) := _handle_audio h m in
      let '(h2, out2) := deliver h1 rest in
      (h2, out1 ++ out2)
  end.

Definition tag_of (c : Channel) : byte :=
  match c with Mic => x00 | System => x01 end.

(** 250 one-byte frames, all different. *)
Definition sample_frames : list bytes :=
  List.map (fun n => match Byte.of_N (N.of_nat n) with
                     | Some b => [b]
                     | None => [x00]
                     end) (seq 0 250).

End Ingress.

(* ===================================================================== *)
(** * models/events.py *)
(* ===================================================================== *)

Module Events.
Import PyStr.

Inductive Speaker := ME | THEM.

Definition Speaker_eqb (a b : Speaker) : bool :=
  match a, b with
  | ME, ME | THEM, THEM => true
  | _, _ => false
  end.

Record TranscriptDelta := mkDelta {
  delta_speaker : Speaker;
  delta_text : str;
  delta_segment_id : str;
  delta_timestamp : Q
}.

Record TranscriptCompleted := mkCompleted {
  completed_speaker : Speaker;
  completed_text : str;
  completed_segment_id : str;
  completed_timestamp : Q
}.

Record TextChunk := mkChunk {
  chunk_speaker : Speaker;
  chunk_text : str;
  last_context : str;
  global_context : option str;
  is_question_flag : bool
}.

End Events.

(* ===================================================================== *)
(** * Clock arithmetic *)
(* ===================================================================== *)

Module Binary64.

(** Python's [float] is IEEE 754 binary64.  The operations are those of
    the Standard Library's specification of floating-point arithmetic, at
    53 bits of precision, rounding to nearest with ties to even. *)
Definition float := SpecFloat.spec_float.
Definition prec : Z := 53.
Definition emax : Z := 1024.

(** An [int] as a [float], as Python converts it in mixed arithmetic. *)
Definition of_int (z : Z) : float :=
  SpecFloat.binary_normalize prec emax z 0 false.

(** The [float] of a clock reading.  A reading is a binary64 held as the
    rational it denotes, so the division below is exact. *)
Definition of_reading (q : Q) : float :=
  let r := Qred q in
  SpecFloat.SFdiv prec emax (of_int (Qnum r)) (of_int (Z.pos (Qden r))).

Definition sub (a b : float) : float := SpecFloat.SFsub prec emax a b.
Definition mul (a b : float) : float := SpecFloat.SFmul prec emax a b.

(** [a < b] and [a >= b] *)
Definition lt (a b : float) : bool := SpecFloat.SFltb a b.
Definition ge (a b : float) : bool := SpecFloat.SFleb b a.

(** [(now - last) * 1000] *)
Definition elapsed_ms (now last : Q) : float :=
  mul (sub (of_reading now) (of_reading last)) (of_int 1000).

(** The binary64 numbers 0.2 and 0.4846311489049012, and the sum of the
    latter and 2 as binary64 addition rounds it. *)
Definition reading_0_2 : Q := 3602879701896397 # 18014398509481984.
Definition reading_0_48 : Q := 4365169323240497 # 9007199254740992.
Definition reading_2_48 : Q := 1398722989545155 # 562949953421312.

End Binary64.

(* ===================================================================== *)
(** * services/orchestrator.py: TextAggregator *)
(* ===================================================================== *)

Module Aggregator.
Import PyStr Events.

Record TranscriptSegment := mkSegment {
  speaker : Speaker;
  text : str;
  segment_id : str;
  timestamp : Q;
  is_complete : bool
}.

(** Segments are objects: [current_segments] and [history] hold references
    to them, and [add_delta] and [complete_segment] update a segment in
    place.  [objects] is the store of all segments created so far, a
    reference is an index into it. *)
Record TextAggregator := mkAggregator {
  objects : list TranscriptSegment;
  current_segments : gmap str nat;
  history : list nat;
  pending_text : str;
  pending_speaker : option Speaker;
  pending_segment_id : option str;
  last_delta_time : Q
}.

(** [TextAggregator()] *)
Definition init : TextAggregator :=
  mkAggregator [] ∅ [] [] None None 0%Q.

(** [deque(maxlen=20).append(x)]: a full deque drops its oldest entry. *)
Definition history_maxlen : nat := 20.

Definition deque_append (d : list nat) (x : nat) : list nat :=
  if Nat.leb history_maxlen (length d) then skipn 1 d ++ [x] else d ++ [x].

(** The segments the history refers to, oldest first. *)
Definition history_view (ag : TextAggregator) : list TranscriptSegment :=
  omap (fun a => objects ag !! a) (history ag).

Definition set_text (seg : TranscriptSegment) (t : str) : TranscriptSegment :=
  mkSegment (speaker seg) t (segment_id seg) (timestamp seg) (is_complete seg).

Definition set_complete (seg : TranscriptSegment) : TranscriptSegment :=
  mkSegment (speaker seg) (text seg) (segment_id seg) (timestamp seg) true.

(** [add_delta(event)]; [now] is what [time.time()] returns. *)
Definition add_delta (ag : TextAggregator) (event : TranscriptDelta) (now : Q)
  : TextAggregator :=
  let sid := delta_segment_id event in
  (* if segment_id not in self.current_segments: create it *)
  let '(objs, segs, a) :=
    match current_segments ag !! sid with
    | Some a => (objects ag, current_segments ag, a)
    | None =>
        let a := length (objects ag) in
        (objects ag ++ [mkSegment (delta_speaker event) [] sid
                                  (delta_timestamp event) false],
         <[sid := a]> (current_segments ag), a)
    end in
  match objs !! a with
  | Some segment =>
      (* segment.text += event.text *)
      let segment' := set_text segment (text segment ++ delta_text event) in
      mkAggregator (<[a := segment']> objs) segs (history ag)
                   (text segment') (Some (speaker segment')) (Some sid) now
  | None => ag (* a reference always points into the store *)
  end.

(** [complete_segment(event)]: the aggregator afterwards and the segment
    returned (the same object that was appended to the history). *)
Definition complete_segment (ag : TextAggregator) (event : TranscriptCompleted)
  : TextAggregator * option TranscriptSegment :=
  let sid := completed_segment_id event in
  let fresh := mkSegment (completed_speaker event) (completed_text event) sid
                         (completed_timestamp event) true in
  let '(objs, segs, a, segment) :=
    match current_segments ag !! sid with
    | Some a =>
        match objects ag !! a with
        | Some seg =>
            (* pop, then overwrite the text and mark complete *)
            let seg' := set_complete (set_text seg (completed_text event)) in
            (<[a := seg']> (objects ag), delete sid (current_segments ag), a, seg')
        | None =>
            (objects ag ++ [fresh], delete sid (current_segments ag),
             length (objects ag), fresh)
        end
    | None =>
        (objects ag ++ [fresh], current_segments ag, length (objects ag), fresh)
    end in
  let hist := deque_append (history ag) a in
  if decide (pending_segment_id ag = Some sid)
  then (mkAggregator objs segs hist [] None None (last_delta_time ag),
        Some segment)
  else (mkAggregator objs segs hist (pending_text ag) (pending_speaker ag)
                     (pending_segment_id ag) (last_delta_time ag),
        Some segment).

(** [clear_pending()] *)
Definition clear_pending (ag : TextAggregator) : TextAggregator :=
  mkAggregator (objects ag) (current_segments ag) (history ag)
               [] None None (last_delta_time ag).

(** The loop of [get_last_context] over [reversed(self.history)]. *)
Fixpoint last_context_loop (speaker0 : Speaker) (sentences : Z)
    (newest_first : list TranscriptSegment) (texts : list str) : list str :=
  match newest_first with
  | [] => texts
  | segment :: rest =>
      if Speaker_eqb (speaker segment) speaker0 then
        let texts' := texts ++ [text segment] in
        if sentences <=? Z.of_nat (length texts') then texts'
        else last_context_loop speaker0 sentences rest texts'
      else last_context_loop speaker0 sentences rest texts
  end.

Definition get_last_context (ag : TextAggregator) (speaker0 : Speaker)
    (sentences : Z) : str :=
  join [SP] (rev (last_context_loop speaker0 sentences
                                    (rev (history_view ag)) [])).

(** One line of the global context: [f"{prefix} {segment.text}"]. *)
Definition render (segment : TranscriptSegment) : str :=
  let prefix := match speaker segment with
                | ME => u "[ME]"
                | THEM => u "[THEM]"
                end in
  prefix ++ [SP] ++ text segment.

(** The loop of [get_global_context] over [reversed(self.history)], with
    its two variables [texts] and [total_chars]. *)
Fixpoint global_context_loop (max_chars : Z)
    (newest_first : list TranscriptSegment) (texts : list str)
    (total_chars : Z) : list str :=
  match newest_first with
  | [] => texts
  | segment :: rest =>
      let t := render segment in
      if max_chars <? total_chars + len t then texts (* break *)
      else global_context_loop max_chars rest (texts ++ [t])
                               (total_chars + len t)
  end.

Definition global_context_of (segs : list TranscriptSegment) (max_chars : Z)
  : str :=
  join [NL] (rev (global_context_loop max_chars (rev segs) [] 0)).

(** [get_global_context(max_chars=500)] *)
Definition get_global_context (ag : TextAggregator) (max_chars : Z) : str :=
  global_context_of (history_view ag) max_chars.

Definition AGGREGATION_TIMEOUT_MS : Z := 800.
Definition AGGREGATION_WORD_THRESHOLD : Z := 12.
Definition HINT_RATE_LIMIT_MS : Z := 2000.

(** [should_trigger_timeout()]; [now] is what [time.time()] returns. *)
Definition should_trigger_timeout (ag : TextAggregator) (now : Q) : bool :=
  match pending_text ag with
  | [] => false
  | _ =>
      let elapsed_ms := Binary64.elapsed_ms now (last_delta_time ag) in
      Binary64.ge elapsed_ms (Binary64.of_int AGGREGATION_TIMEOUT_MS)
  end.

(** [s.split()]: the maximal runs of non-whitespace characters. *)
Fixpoint split_ws_loop (s : str) (cur : str) : list str :=
  match s with
  | [] => match cur with [] => [] | _ => [rev cur] end
  | c :: s' =>
      if isspace c
      then match cur with
           | [] => split_ws_loop s' []
           | _ => rev cur :: split_ws_loop s' []
           end
      else split_ws_loop s' (c :: cur)
  end.

Definition split_ws (s : str) : list str := split_ws_loop s [].

(** [should_trigger_word_count()] *)
Definition should_trigger_word_count (ag : TextAggregator) : bool :=
  match pending_text ag with
  | [] => false
  | _ =>
      let word_count := Z.of_nat (length (split_ws (pending_text ag))) in
      AGGREGATION_WORD_THRESHOLD <=? word_count
  end.

(** Text accumulated so far by the open segment with this id. *)
Definition open_text (ag : TextAggregator) (sid : str) : str :=
  match current_segments ag !! sid with
  | Some a => match objects ag !! a with
              | Some seg => text seg
              | None => []
              end
  | None => []
  end.

(** The aggregator states the two event handlers can produce. *)
Inductive reachable : TextAggregator -> Prop :=
| reach_init : reachable init
| reach_delta ag e now :
    reachable ag -> reachable (add_delta ag e now)
| reach_completed ag e :
    reachable ag -> reachable (fst (complete_segment ag e))
| reach_clear ag :
    reachable ag -> reachable (clear_pending ag).

(** References are valid and unshared: every open segment and every
    history entry points into the store, no open segment is also in the
    history, and two segment ids never name the same object. *)
Record Inv (ag : TextAggregator) : Prop := mkInv {
  inv_open : forall sid a, current_segments ag !! sid = Some a ->
             (a < length (objects ag))%nat /\ a ∉ history ag;
  inv_inj : forall sid1 sid2 a, current_segments ag !! sid1 = Some a ->
             current_segments ag !! sid2 = Some a -> sid1 = sid2;
  inv_hist : forall a, a ∈ history ag -> (a < length (objects ag))%nat
}.

(** A run of handler calls, for examples. *)
Inductive Call :=
| Delta (e : TranscriptDelta) (now : Q)
| Completed (e : TranscriptCompleted).

Definition call (ag : TextAggregator) (c : Call) : TextAggregator :=
  match c with
  | Delta e now => add_delta ag e now
  | Completed e => fst (complete_segment ag e)
  end.

Definition run (calls : list Call) : TextAggregator :=
  fold_left call calls init.



(** Two completed utterances of 245 characters each. *)
Definition long_text : str := repeat 97%N 245.

Definition long_calls : list Call :=
  [ Completed (mkCompleted ME long_text (u "seg1") 1);
    Completed (mkCompleted THEM (repeat 98%N 243) (u "seg2") 2) ].

End Aggregator.

(* ===================================================================== *)
(** * services/orchestrator.py: Orchestrator *)
(* ===================================================================== *)

Module Orchestrator.
Import PyStr SessionModel Events Aggregator.

(** What the orchestrator publishes on the event bus. *)
Inductive Event :=
| TEXT_CHUNK_READY (chunk : TextChunk).

Record Orchestrator := mkOrchestrator {
  aggregator : TextAggregator;
  _running : bool;
  _last_hint_time : Q
}.

(** [Orchestrator(session, event_bus)] *)
Definition new_orchestrator : Orchestrator :=
  mkOrchestrator Aggregator.init false 0%Q.

Definition set_last_hint_time (o : Orchestrator) (t : Q) : Orchestrator :=
  mkOrchestrator (aggregator o) (_running o) t.

(** [_process_interview(chunk)]: the orchestrator afterwards and the events
    published. *)
Definition _process_interview (o : Orchestrator) (chunk : TextChunk)
  : Orchestrator * list Event :=
  if negb (Speaker_eqb (chunk_speaker chunk) THEM) then (o, [])
  else if negb (is_question_flag chunk) then (o, [])
  else (o, [TEXT_CHUNK_READY chunk]).

(** [_process_meeting(chunk)]; [now] is what [time.time()] returns. *)
Definition _process_meeting (o : Orchestrator) (chunk : TextChunk) (now : Q)
  : Orchestrator * list Event :=
  if negb (Speaker_eqb (chunk_speaker chunk) THEM) then (o, [])
  else
    let elapsed_ms := Binary64.elapsed_ms now (_last_hint_time o) in
    if Binary64.lt elapsed_ms (Binary64.of_int HINT_RATE_LIMIT_MS)
    then (o, []) (* rate limited *)
    else (set_last_hint_time o now, [TEXT_CHUNK_READY chunk]).

(** The test of [_process_meeting] at clock [now], [last] being the time
    of the last dispatch: the elapsed time it computes is below the
    limit. *)
Definition inside_window (last now : Q) : bool :=
  Binary64.lt (Binary64.elapsed_ms now last)
              (Binary64.of_int HINT_RATE_LIMIT_MS).

(** [_process_chunk(chunk)]; [sess] is the session object as it is when the
    chunk is processed. *)
Definition _process_chunk (sess : Session) (o : Orchestrator)
    (chunk : TextChunk) (now : Q) : Orchestrator * list Event :=
  if negb (hints_enabled sess) then (o, [])
  else match mode sess with
       | INTERVIEW_ASSISTANT => _process_interview o chunk
       | MEETING_ASSISTANT => _process_meeting o chunk now
       end.

(** A meeting session and two remarks by the other side, half a second
    apart. *)
Definition meeting_session : Session :=
  set_state (new_session (u "s1") MEETING_ASSISTANT) ACTIVE.

Definition remark1 : TextChunk :=
  mkChunk THEM (u "We ship on Friday") [] (Some []) false.

Definition remark2 : TextChunk :=
  mkChunk THEM (u "The backlog is empty") [] (Some []) false.

End Orchestrator.

(* ===================================================================== *)
(** * services/session_manager.py *)
(* ===================================================================== *)

Module SessionManager.
Import PyStr SessionModel.

(** Sessions are objects: the manager's [current_session] and every
    connection handler's [self.session] are references to them.
    [sessions] is the store of the sessions created so far, a reference is
    an index into it. *)
Record SessionManager := mkManager {
  sessions : list Session;
  current_session : option nat
}.

(** [SessionManager()] *)
Definition new_manager : SessionManager := mkManager [] None.

Definition state_of (m : SessionManager) (a : nat) : option SessionState :=
  state <$> sessions m !! a.

(** [_stop_session(session)] (the cancelling of the session's tasks changes
    no session state and is left out). *)
Definition _stop_session (m : SessionManager) (a : nat) : SessionManager :=
  match sessions m !! a with
  | Some s =>
      if SessionState_eqb (state s) STOPPED then m
      else mkManager (<[a := set_state s STOPPED]> (sessions m))
                     (current_session m)
  | None => m
  end.

(** [create_session(mode)]; [sid] is the fresh uuid of the new session.
    Returns the manager and the reference to the new session. *)
Definition create_session (m : SessionManager) (sid : str) (md : SessionMode)
  : SessionManager * nat :=
  let m1 :=
    match current_session m with
    | Some a =>
        match state_of m a with
        | Some ACTIVE => _stop_session m a
        | _ => m
        end
    | None => m
    end in
  let a := length (sessions m1) in
  (mkManager (sessions m1 ++ [new_session sid md]) (Some a), a).

(** [start_session(session)] *)
Definition start_session (m : SessionManager) (a : nat) : SessionManager :=
  match sessions m !! a with
  | Some s =>
      if negb (SessionState_eqb (state s) CREATED) then m
      else mkManager (<[a := set_state s ACTIVE]> (sessions m))
                     (current_session m)
  | None => m
  end.

(** [stop_session(session)] *)
Definition stop_session (m : SessionManager) (a : nat) : SessionManager :=
  _stop_session m a.

(** [destroy_session(session_id)] *)
Definition destroy_session (m : SessionManager) (sid : str) : SessionManager :=
  match current_session m with
  | Some a =>
      match sessions m !! a with
      | Some s =>
          if str_eqb (session_id s) sid
          then mkManager (sessions (_stop_session m a)) None
          else m
      | None => m
      end
  | None => m
  end.

(** The manager's operations, as the connection handlers call them. *)
Inductive Op :=
| CreateSession (sid : str) (md : SessionMode)
| StartSession (a : nat)
| StopSession (a : nat)
| DestroySession (sid : str).

Definition step (m : SessionManager) (op : Op) : SessionManager :=
  match op with
  | CreateSession sid md => fst (create_session m sid md)
  | StartSession a => start_session m a
  | StopSession a => stop_session m a
  | DestroySession sid => destroy_session m sid
  end.

Definition run_ops (ops : list Op) : SessionManager :=
  fold_left step ops new_manager.

(** The number of session objects in state ACTIVE. *)
Definition count_active (m : SessionManager) : nat :=
  length (List.filter (fun s => SessionState_eqb (state s) ACTIVE)
                      (sessions m)).

(** Two clients connect, then each starts its session. *)
Definition two_clients : list Op :=
  [ CreateSession (u "s1") INTERVIEW_ASSISTANT;
    CreateSession (u "s2") INTERVIEW_ASSISTANT;
    StartSession 0;
    StartSession 1 ].

End SessionManager.

(* ===================================================================== *)
(** * services/llm_service.py *)
(* ===================================================================== *)

Module LLM.
Import PyStr SessionModel Events.

Definition MAX_HINT_POINTS : nat := 3.

(** The three bullet markers of [_format_hint].  The second literal is, in
    the source file, the four characters U+00E2 U+20AC U+00A2 U+0020. *)
Definition DASH : str := u "- ".
Definition MARK2 : str := [226; 8364; 162; 32]%N.
Definition STAR : str := u "* ".

Definition is_bullet (line : str) : bool :=
  startswith line DASH || startswith line MARK2 || startswith line STAR.

(** [line.split(".", 1)]: cut at the first separator, if there is one. *)
Fixpoint split1 (sep : char) (s : str) : list str :=
  match s with
  | [] => [[]]
  | c :: s' =>
      if N.eqb c sep then [[]; s']
      else match split1 sep s' with
           | f :: fs => (c :: f) :: fs
           | [] => [[c]]
           end
  end.

(** [bullet_points[-1] += " " + line] *)
Fixpoint append_to_last (bullet_points : list str) (line : str) : list str :=
  match bullet_points with
  | [] => []
  | [b] => [b ++ [SP] ++ line]
  | b :: bs => b :: append_to_last bs line
  end.

(** What the service publishes on the event bus. *)
Inductive Event :=
| HINT_TOKEN (hint_id token : str)
| HINT_COMPLETED (hint_id final_text : str) (md : SessionMode)
| LLM_ERROR (message : str).

Record LLMService := mkService {
  _running : bool;
  _generating : bool;
  _cancel_event : bool;
  _current_hint_id : option str;
  _pending_chunk : option TextChunk
}.

(** [LLMService(session, event_bus)] *)
Definition new_service : LLMService := mkService false false false None None.

(** What the upstream does with one request, and what happens meanwhile.
    Whenever [_generate_hint] awaits (the response, its body, its next
    line, the publication of a token, the closing of the response, the
    publication of the closing event) a TEXT_CHUNK_READY may be delivered
    to [_on_chunk].  [Arrival] is a chunk delivered before the request's
    last test of the cancel flag (line 204), at the place where it stands
    among the lines.  [Late] is a chunk delivered at the last await of the
    request, after that test: while HINT_COMPLETED or LLM_ERROR is being
    published if one is, while the response is being closed otherwise. *)
Inductive StreamItem :=
| Line (line : str)
| Arrival (chunk : TextChunk)
| Late (chunk : TextChunk).

Inductive Upstream :=
| Raises (items : list StreamItem) (message : str)
    (* the request raises before a response is there; [str(e)]; of the
       items only the chunks matter *)
| Response (status_code : Z) (items : list StreamItem) (failure : option str).
    (* a response, its lines, and the exception that ends the stream, if
       one does *)

(** The branch of [_on_chunk] taken while a hint is being generated. *)
Definition on_chunk_generating (sess : Session) (svc : LLMService)
    (chunk : TextChunk) : LLMService :=
  if negb (hints_enabled sess) then svc
  else match mode sess with
       | INTERVIEW_ASSISTANT =>
           mkService (_running svc) (_generating svc) true
                     (_current_hint_id svc) (Some chunk)
       | MEETING_ASSISTANT =>
           mkService (_running svc) (_generating svc) (_cancel_event svc)
                     (_current_hint_id svc) (Some chunk)
       end.

(** How the [async for line in response.aiter_lines()] loop ends. *)
Inductive LoopEnd := Returned | Finished | Failed (message : str).

Definition incr_hints_generated (s : Session) : Session :=
  let st := stats s in
  set_stats s (mkStats (dropped_frames_mic st) (dropped_frames_system st)
                       (total_frames_mic st) (total_frames_system st)
                       (transcript_segments st) (hints_generated st + 1)
                       (stt_errors st) (llm_errors st)).

Definition incr_llm_errors (s : Session) : Session :=
  let st := stats s in
  set_stats s (mkStats (dropped_frames_mic st) (dropped_frames_system st)
                       (total_frames_mic st) (total_frames_system st)
                       (transcript_segments st) (hints_generated st)
                       (stt_errors st) (llm_errors st + 1)).

(** [await response.aread()], and the closing of a response that is not
    read further: the lines do not matter, the chunks that arrive
    meanwhile are delivered. *)
Definition read_body (sess : Session) (items : list StreamItem)
    (svc : LLMService) : LLMService :=
  fold_left (fun svc item =>
               match item with
               | Arrival chunk => on_chunk_generating sess svc chunk
               | Line _ | Late _ => svc
               end) items svc.

(** The chunks delivered at the last await of the request. *)
Definition late_arrivals (sess : Session) (items : list StreamItem)
    (svc : LLMService) : LLMService :=
  fold_left (fun svc item =>
               match item with
               | Late chunk => on_chunk_generating sess svc chunk
               | Line _ | Arrival _ => svc
               end) items svc.

(** Two library functions are parameters of the embedding: [isdigit] is
    [str.isdigit] on one character, and [parse_token] is
    [json.loads(data)] followed by the lookup of
    [choices[0].delta.content], [None] when either raises or the content
    is missing. *)
Section WithLibraries.
Variable isdigit : char -> bool.
Variable parse_token : str -> option str.

(** One round of the [for line in lines] loop of [_format_hint]. *)
Definition bullet_step (bullet_points : list str) (line0 : str) : list str :=
  let line := strip line0 in
  match line with
  | [] => bullet_points (* continue *)
  | c0 :: _ =>
      if is_bullet line then bullet_points ++ [line]
      else if isdigit c0 && contains 46%N (firstn 3 line) then
        match split1 46%N line with
        | _ :: rest :: _ => bullet_points ++ [DASH ++ strip rest]
        | _ => bullet_points
        end
      else match bullet_points with
           | [] => bullet_points
           | _ => append_to_last bullet_points line
           end
  end.

(** [_format_hint(text)] *)
Definition _format_hint (text : str) : str :=
  let lines := split NL (strip text) in
  let bullet_points := fold_left bullet_step lines [] in
  join [NL] (firstn MAX_HINT_POINTS bullet_points).

(** The loop over the lines, up to the closing of the response: the
    service, the text collected, the events published and how the loop
    ended.  When the loop is left at a line (the [return] on the cancel
    flag, the [break] on [DONE]) the lines that remain are not read; the
    chunks that remain arrive while the response is closed. *)
Fixpoint stream_loop (sess : Session) (hint_id : str) (failure : option str)
    (items : list StreamItem) (svc : LLMService) (collected_text : str)
  : LLMService * str * list Event * LoopEnd :=
  match items with
  | [] => (svc, collected_text, [],
           match failure with Some e => Failed e | None => Finished end)
  | Arrival chunk :: rest =>
      stream_loop sess hint_id failure rest
                  (on_chunk_generating sess svc chunk) collected_text
  | Late _ :: rest =>
      stream_loop sess hint_id failure rest svc collected_text
  | Line line :: rest =>
      if _cancel_event svc
      then (read_body sess rest svc, collected_text, [], Returned)
      else if match line with [] => true | _ => false end
              || negb (startswith line (u "data: "))
      then stream_loop sess hint_id failure rest svc collected_text
      else
        let data := skipn 6 line in
        if str_eqb data (u "[DONE]")
        then (read_body sess rest svc, collected_text, [], Finished)
        else match parse_token data with
             | Some (c :: token') =>
                 let token := c :: token' in
                 let '(svc', text', evs, e) :=
                   stream_loop sess hint_id failure rest svc
                               (collected_text ++ token) in
                 (svc', text', HINT_TOKEN hint_id token :: evs, e)
             | _ => stream_loop sess hint_id failure rest svc collected_text
             end
  end.

(** The [try ... except] of [_generate_hint] for one request: the session
    (for its counters), the service and the events published.  The cancel
    flag is tested on the service as it is when the response has been
    closed ([svc1]); the late chunks are delivered after that. *)
Definition generate_body (sess : Session) (svc : LLMService) (hint_id : str)
    (up : Upstream) : Session * LLMService * list Event :=
  match up with
  | Raises items e =>
      (incr_llm_errors sess,
       late_arrivals sess items (read_body sess items svc), [LLM_ERROR e])
  | Response status_code items failure =>
      if negb (status_code =? 200) then
        (* error_text = await response.aread(); logged; return *)
        let svc1 := read_body sess items svc in
        let svc2 := late_arrivals sess items svc1 in
        match failure with
        | Some msg => (incr_llm_errors sess, svc2, [LLM_ERROR msg])
        | None => (sess, svc2, [])
        end
      else
        let '(svc1, collected_text, evs, e) :=
          stream_loop sess hint_id failure items svc [] in
        let svc2 := late_arrivals sess items svc1 in
        match e with
        | Returned => (sess, svc2, evs)
        | Failed msg => (incr_llm_errors sess, svc2, evs ++ [LLM_ERROR msg])
        | Finished =>
            match collected_text with
            | _ :: _ =>
                if negb (_cancel_event svc1) then
                  let formatted := _format_hint collected_text in
                  (incr_hints_generated sess, svc2,
                   evs ++ [HINT_COMPLETED hint_id formatted (mode sess)])
                else (sess, svc2, evs)
            | [] => (sess, svc2, evs)
            end
        end
  end.

(** [_generate_hint(chunk)].  The request built from [chunk] goes to the
    upstream; [requests] is the script of the run: for this request and
    for those the [finally] block goes on to make for pending chunks, the
    fresh hint id and what the upstream does.  [None] when the script
    ends where the code makes a further request. *)
Fixpoint _generate_hint (sess : Session) (svc : LLMService)
    (chunk : TextChunk) (requests : list (str * Upstream))
  : option (Session * LLMService * list Event) :=
  match requests with
  | [] => None
  | (hint_id, up) :: later =>
      let svc0 := mkService (_running svc) true false (Some hint_id)
                            (_pending_chunk svc) in
      let '(sess1, svc1, evs1) := generate_body sess svc0 hint_id up in
      (* finally *)
      let svc2 := mkService (_running svc1) false (_cancel_event svc1) None
                            (_pending_chunk svc1) in
      match _pending_chunk svc2 with
      | Some next =>
          let svc3 := mkService (_running svc2) false (_cancel_event svc2)
                                None None in
          match _generate_hint sess1 svc3 next later with
          | Some (sess4, svc4, evs4) => Some (sess4, svc4, evs1 ++ evs4)
          | None => None
          end
      | None => Some (sess1, svc2, evs1)
      end
  end.

End WithLibraries.

(** [str.isdigit] on the ASCII range, for examples in ASCII. *)
Definition ascii_isdigit (c : char) : bool := ((48 <=? c) && (c <=? 57))%N.

(** A decoder for examples in which no line carries a token. *)
Definition no_token (data : str) : option str := None.

(** What every entry of [bullet_points] is: it begins with a marker, has
    no newline, and unless it is the bare dash of an empty numbered item
    it has no whitespace at its end. *)
Definition good_bullet (b : str) : Prop :=
  is_bullet b = true /\ ~ In NL b /\ (b = DASH \/ head_ok (rev b)).

(** An empty numbered item and a starred line. *)
Definition numbered_and_star : str := u "1." ++ [NL] ++ u "* x".

(** An active interview session, a question, and an upstream that answers
    503 with no body. *)
Definition interview_session : Session :=
  set_state (new_session (u "s1") INTERVIEW_ASSISTANT) ACTIVE.

Definition question : TextChunk :=
  mkChunk THEM (u "Why did you choose this role?") [] (Some []) true.

Definition unavailable : list (str * Upstream) :=
  [ (u "hint-1", Response 503 [] None) ].

End LLM.

(* ===================================================================== *)
(** * services/knowledge_service.py: retrieval *)
(* ===================================================================== *)

Module Knowledge.
Import PyStr.

Definition MAX_CONTEXT_TOKENS : Z := 2000.

(** A chunk of a file index: [{"text": str, "keywords": set}]. *)
Record Chunk := mkChunk {
  chunk_text : str;
  chunk_keywords : gset str
}.

Record FileIndex := mkFileIndex {
  filename : str;
  title : str;
  keywords : gset str;
  chunks : list Chunk
}.

(** An entry of [scored_chunks]. *)
Record Scored := mkScored {
  scored_text : str;
  score : Z;
  scored_filename : str
}.

(** The chunks of one file that share a keyword with the query. *)
Definition score_file (query_keywords : gset str) (file_index : FileIndex)
  : list Scored :=
  flat_map (fun chunk =>
              let overlap := Z.of_nat (size (query_keywords ∩ chunk_keywords chunk)) in
              if 0 <? overlap
              then [mkScored (chunk_text chunk) overlap (filename file_index)]
              else [])
           (chunks file_index).

(** [list.sort(key=score, reverse=True)]: stable, highest score first. *)
Fixpoint insert_by_score (x : Scored) (sorted : list Scored) : list Scored :=
  match sorted with
  | [] => [x]
  | y :: ys =>
      if score x <? score y then y :: insert_by_score x ys
      else x :: y :: ys
  end.

Definition sort_by_score (l : list Scored) : list Scored :=
  fold_right insert_by_score [] l.

(** [f"[From {chunk['filename']}]\n{text}"] *)
Definition context_part (chunk : Scored) (text : str) : str :=
  u "[From " ++ scored_filename chunk ++ u "]" ++ [NL] ++ text.

(** The loop that builds [context_parts], with its variable
    [total_chars]. *)
Fixpoint context_loop (max_chars : Z) (top_chunks : list Scored)
    (context_parts : list str) (total_chars : Z) : list str :=
  match top_chunks with
  | [] => context_parts
  | chunk :: rest =>
      let text := scored_text chunk in
      if max_chars <? total_chars + len text then
        (* truncate this chunk *)
        let remaining := max_chars - total_chars in
        if 100 <? remaining then
          let text' := slice_to text remaining ++ u "..." in
          context_loop max_chars rest
                       (context_parts ++ [context_part chunk text'])
                       (total_chars + len text')
        else context_parts (* break *)
      else
        context_loop max_chars rest
                     (context_parts ++ [context_part chunk text])
                     (total_chars + len text)
  end.

(** The parts of chunks taken whole, and the part of a chunk cut to the
    remaining budget. *)
Definition whole_parts (cs : list Scored) : list str :=
  List.map (fun c => context_part c (scored_text c)) cs.

Definition truncated_part (c : Scored) (remaining : Z) : str :=
  context_part c (firstn (Z.to_nat remaining) (scored_text c) ++ u "...").

(** The same loop as the specification words it: truncate when at least
    100 characters of the budget remain. *)
Fixpoint context_loop_spec (max_chars : Z) (top_chunks : list Scored)
    (context_parts : list str) (total_chars : Z) : list str :=
  match top_chunks with
  | [] => context_parts
  | chunk :: rest =>
      let text := scored_text chunk in
      if max_chars <? total_chars + len text then
        let remaining := max_chars - total_chars in
        if 100 <=? remaining then
          let text' := slice_to text remaining ++ u "..." in
          context_loop_spec max_chars rest
                            (context_parts ++ [context_part chunk text'])
                            (total_chars + len text')
        else context_parts
      else
        context_loop_spec max_chars rest
                          (context_parts ++ [context_part chunk text])
                          (total_chars + len text)
  end.

(** [extract_keywords(text, top_n)] is a regular-expression tokenizer and
    a frequency count; retrieval only needs the list it returns. *)
Section WithKeywords.
Variable extract_keywords : str -> Z -> list str.

(** [scored_chunks[:top_k]] after scoring and sorting. *)
Definition top_chunks_of (indices : list FileIndex) (query : str) (top_k : Z)
  : list Scored :=
  let query_keywords : gset str := list_to_set (extract_keywords query 10) in
  let scored_chunks := flat_map (score_file query_keywords) indices in
  slice_to (sort_by_score scored_chunks) top_k.

(** [retrieve(workspace, query, top_k)]; [indices] is what [_get_index]
    returns for the workspace. *)
Definition retrieve (indices : list FileIndex) (query : str) (top_k : Z)
  : str :=
  match indices with
  | [] => []
  | _ =>
      let query_keywords : gset str :=
        list_to_set (extract_keywords query 10) in
      if decide (query_keywords = ∅) then []
      else
        match top_chunks_of indices query top_k with
        | [] => []
        | top_chunks =>
            let max_chars := MAX_CONTEXT_TOKENS * 4 in
            join [NL; NL] (context_loop max_chars top_chunks [] 0)
        end
  end.

(** [retrieve] with the loop as the specification words it. *)
Definition retrieve_spec (indices : list FileIndex) (query : str) (top_k : Z)
  : str :=
  match indices with
  | [] => []
  | _ =>
      let query_keywords : gset str :=
        list_to_set (extract_keywords query 10) in
      if decide (query_keywords = ∅) then []
      else
        match top_chunks_of indices query top_k with
        | [] => []
        | top_chunks =>
            let max_chars := MAX_CONTEXT_TOKENS * 4 in
            join [NL; NL]
                 (context_loop_spec max_chars top_chunks [] 0)
        end
  end.

End WithKeywords.

(** What [extract_keywords] returns for a query that is one lower-case
    word of three letters or more and not a stop word: that word. *)
Definition one_word (text : str) (top_n : Z) : list str := [text].

(** An index, as loaded from [.index.json], with a chunk of 7900
    characters and one of 200, both about the budget. *)
Definition big_chunk : Chunk :=
  mkChunk (repeat 97%N (Z.to_nat 7900)) {[ u "budget" ]}.

Definition small_chunk : Chunk :=
  mkChunk (repeat 98%N 200) {[ u "budget" ]}.

Definition notes : list FileIndex :=
  [ mkFileIndex (u "notes.md") (u "Notes") {[ u "budget" ]}
                [big_chunk; small_chunk] ].

End Knowledge.

(* ===================================================================== *)
(** * utils/audio.py: level of a PCM buffer *)
(* ===================================================================== *)

Module Audio.
Import SessionModel.

(** One little-endian 16-bit sample, as a signed integer. *)
Definition int16_le (lo hi : byte) : Z :=
  let v := Z.of_N (Byte.to_N lo) + 256 * Z.of_N (Byte.to_N hi) in
  if 32768 <=? v then v - 65536 else v.

(** [np.frombuffer(pcm_bytes, dtype=np.int16)]; [None] is the ValueError
    numpy raises when the buffer size is not a multiple of the element
    size. *)
Fixpoint frombuffer_int16 (buf : bytes) : option (list Z) :=
  match buf with
  | [] => Some []
  | [_] => None
  | lo :: hi :: rest =>
      match frombuffer_int16 rest with
      | Some samples => Some (int16_le lo hi :: samples)
      | None => None
      end
  end.

(** The arithmetic on samples is numpy's, in floating point; it is taken
    here over the real numbers. *)
Definition mean (xs : list R) : R :=
  (fold_right Rplus 0 xs / INR (length xs))%R.

Definition log10 (x : R) : R := (ln x / ln 10)%R.

(** [calculate_level(pcm_bytes)]; [None] when the call raises. *)
Definition calculate_level (pcm_bytes : bytes) : option R :=
  if Nat.eqb (length pcm_bytes) 0 then Some (-60)%R
  else
    match frombuffer_int16 pcm_bytes with
    | None => None
    | Some samples =>
        let rms := sqrt (mean (List.map (fun x => (IZR x * IZR x)%R) samples)) in
        if Rlt_dec rms (1 / 1000000) then Some (-60)%R
        else
          let db := (20 * log10 (rms / 32768))%R in
          Some (Rmax (-60) (Rmin 0 db))
    end.

(** One full-scale sample. *)
Definition full_scale : bytes := [xff; x7f].

End Audio.

(* ===================================================================== *)
(** * routes/websocket.py: what ingress keeps of a channel *)
(* ===================================================================== *)

Module IngressAccounting.
Import SessionModel Ingress.

(** The two channels, one against the other. *)
Inductive Channel_other : Channel -> Channel -> Prop :=
| other_mic_system : Channel_other Mic System
| other_system_mic : Channel_other System Mic.

(** What holds of one channel before and after some steps during which
    [taken] frames were taken from its queue: the queue keeps its capacity
    and stays within it, the counters do not decrease, and every frame
    counted in [total_frames] is in the queue, was taken from it, or is
    counted in [dropped_frames]. *)
Definition accounted (c : Channel) (taken : Z) (s s' : Session) : Prop :=
  maxsize (queue_of c s') = 200
  /\ (length (items (queue_of c s')) <= 200)%nat
  /\ dropped_of c (stats s) <= dropped_of c (stats s')
  /\ total_of c (stats s) <= total_of c (stats s')
  /\ qsize (queue_of c s') + dropped_of c (stats s') + taken
     = qsize (queue_of c s) + dropped_of c (stats s)
       + (total_of c (stats s') - total_of c (stats s)).

(** What happens to the queues of a session: a binary message arrives at
    the connection handler, or the transcription pump of a channel takes
    the oldest frame of its queue ([await queue.get()] in
    [STTService._process_mic_audio] and [_process_system_audio]), which
    waits when there is none.  The handler does not await between its
    reads and writes of a queue, so the two only alternate. *)
Inductive Step :=
| Message (data : bytes)
| Take (c : Channel).

Definition take (s : Session) (c : Channel) : Session :=
  match get_nowait (queue_of c s) with
  | Some (_, q) => set_queue c s q
  | None => s
  end.

Definition step (h : ConnectionHandler) (st : Step) : ConnectionHandler :=
  match st with
  | Message data => fst (_handle_audio h data)
  | Take c =>
      match session h with
      | Some s => mkHandler (Some (take s c))
      | None => h
      end
  end.

Definition run_steps (h : ConnectionHandler) (steps : list Step)
  : ConnectionHandler :=
  fold_left step steps h.

Definition Channel_eqb (a b : Channel) : bool :=
  match a, b with
  | Mic, Mic | System, System => true
  | _, _ => false
  end.

(** 1 when the step takes a frame from the queue of [c], 0 otherwise. *)
Definition taken_by (c : Channel) (h : ConnectionHandler) (st : Step) : Z :=
  match st, session h with
  | Take c', Some s =>
      match items (queue_of c' s) with
      | _ :: _ => if Channel_eqb c c' then 1 else 0
      | [] => 0
      end
  | _, _ => 0
  end.

(** The number of frames taken from the queue of [c] during a run. *)
Fixpoint taken (c : Channel) (h : ConnectionHandler) (steps : list Step)
  : Z :=
  match steps with
  | [] => 0
  | st :: rest => taken_by c h st + taken c (step h st) rest
  end.

(** Frames arrive on both channels while the pumps take some. *)
Definition busy_steps : list Step :=
  [ Message [x00; x01; x02]; Message [x01; x03]; Take Mic; Take Mic;
    Message [x07; x00]; Message [x00]; Message [x00; x05]; Take System ].

End IngressAccounting.

(* ===================================================================== *)
(** * services/orchestrator.py: the event handlers *)
(* ===================================================================== *)

Module OrchestratorHandlers.
Import PyStr SessionModel Events Aggregator Orchestrator.

Definition set_aggregator (o : Orchestrator) (ag : TextAggregator)
  : Orchestrator :=
  mkOrchestrator ag (_running o) (_last_hint_time o).

(** Each published chunk was outside the window of the one before it, by
    the test of [_process_meeting]: [last] is the time of the dispatch
    before the first of [published]. *)
Fixpoint spaced (last : Q) (published : list (TextChunk * Q)) : Prop :=
  match published with
  | [] => True
  | (_, t) :: rest => inside_window last t = false /\ spaced t rest
  end.

(** The regular-expression engine is a parameter of the embedding:
    [question_word_at_start text] is
    [any(pattern.search(text) for pattern in QUESTION_PATTERNS)]. *)
Section WithPatterns.
Variable question_word_at_start : str -> bool.

(** [is_question(text)] *)
Definition is_question (text : str) : bool :=
  let text := strip text in
  if contains 63%N text then true
  else question_word_at_start text.

(** [TextAggregator.get_pending_chunk()] *)
Definition get_pending_chunk (ag : TextAggregator) : option TextChunk :=
  match pending_text ag, pending_speaker ag with
  | _ :: _, Some sp =>
      Some (mkChunk sp (pending_text ag) (get_last_context ag sp 2)
                    (Some (get_global_context ag 500))
                    (is_question (pending_text ag)))
  | _, _ => None
  end.

(** [_trigger_from_pending()]; [sess] is the session as it is when the
    handler runs, [now] what [time.time()] returns in the dispatch. *)
Definition _trigger_from_pending (sess : Session) (o : Orchestrator) (now : Q)
  : Orchestrator * list Event :=
  match get_pending_chunk (aggregator o) with
  | Some chunk =>
      let '(o1, evs) := _process_chunk sess o chunk now in
      (set_aggregator o1 (clear_pending (aggregator o1)), evs)
  | None => (o, [])
  end.

(** [_maybe_trigger(segment)] *)
Definition _maybe_trigger (sess : Session) (o : Orchestrator)
    (segment : TranscriptSegment) (now : Q) : Orchestrator * list Event :=
  let chunk :=
    mkChunk (speaker segment) (text segment)
            (get_last_context (aggregator o) (speaker segment) 2)
            (Some (get_global_context (aggregator o) 500))
            (is_question (text segment)) in
  _process_chunk sess o chunk now.


(** [_on_completed(event)] *)
Definition _on_completed (sess : Session) (o : Orchestrator)
    (event : TranscriptCompleted) (now : Q) : Orchestrator * list Event :=
  let '(ag, segment) := complete_segment (aggregator o) event in
  let o1 := set_aggregator o ag in
  match segment with
  | Some seg => _maybe_trigger sess o1 seg now
  | None => (o1, [])
  end.

(** One round of the loop of [run()] after its sleep: the timeout check at
    clock [now_check], and the dispatch at clock [now]. *)
Definition run_tick (sess : Session) (o : Orchestrator) (now_check now : Q)
  : Orchestrator * list Event :=
  if should_trigger_timeout (aggregator o) now_check
  then _trigger_from_pending sess o now
  else (o, []).

End WithPatterns.

(** A run of chunks through [_process_chunk], each with the clock of its
    dispatch: what was published, with the time of each dispatch. *)
Fixpoint process_run (sess : Session) (o : Orchestrator)
    (inputs : list (TextChunk * Q)) : Orchestrator * list (TextChunk * Q) :=
  match inputs with
  | [] => (o, [])
  | (chunk, now) :: rest =>
      let '(o1, evs) := _process_chunk sess o chunk now in
      let '(o2, published) := process_run sess o1 rest in
      (o2, List.map (fun e => match e with
                              | TEXT_CHUNK_READY c => (c, now)
                              end) evs ++ published)
  end.

(** A run of deltas through [add_delta]. *)
Definition add_deltas (ag : TextAggregator)
    (deltas : list (TranscriptDelta * Q)) : TextAggregator :=
  fold_left (fun ag d => add_delta ag (fst d) (snd d)) deltas ag.

(** The number of words of [s.split()]. *)
Definition word_count (s : str) : Z := Z.of_nat (length (split_ws s)).

(** For examples: a pattern test that never matches. *)
Definition no_question_word (text : str) : bool := false.

Definition interview_on : Session :=
  set_state (new_session (u "s1") INTERVIEW_ASSISTANT) ACTIVE.

Definition meeting_on : Session :=
  set_state (new_session (u "s1") MEETING_ASSISTANT) ACTIVE.

Definition three_remarks : list (TextChunk * Q) :=
  [ (mkChunk THEM (u "one") [] (Some []) false, 1700000000%Q);
    (mkChunk THEM (u "two") [] (Some []) false, (1700000000 + (1 # 2))%Q);
    (mkChunk THEM (u "three") [] (Some []) false, 1700000003%Q) ].

Definition two_deltas : list (TranscriptDelta * Q) :=
  [ (mkDelta THEM (u "Hello, ") (u "seg9") 1, 1%Q);
    (mkDelta ME (u "how are you?") (u "seg9") 2, 2%Q) ].

End OrchestratorHandlers.

(* ===================================================================== *)
(** * services/orchestrator.py: runs of the aggregator *)
(* ===================================================================== *)

Module AggregatorRuns.
Import PyStr Events Aggregator.

(** The segments [complete_segment] returned in a run of calls that
    starts in [ag], in the order of the calls. *)
Fixpoint returned_from (ag : TextAggregator) (calls : list Call)
  : list TranscriptSegment :=
  match calls with
  | [] => []
  | Delta e now :: rest => returned_from (add_delta ag e now) rest
  | Completed e :: rest =>
      let '(ag', segment) := complete_segment ag e in
      match segment with
      | Some seg => seg :: returned_from ag' rest
      | None => returned_from ag' rest
      end
  end.

(** 25 segments completed one after the other. *)
Definition many_calls : list Call :=
  List.map (fun n => Completed (mkCompleted THEM (repeat 97%N n)
                                            (repeat 98%N n) 0))
           (seq 0 25).

(** The history refers only to segments in the store. *)
Definition history_valid (ag : TextAggregator) : Prop :=
  Forall (fun a => is_Some (objects ag !! a)) (history ag).

(** Open segments are stored under their own id and are not complete;
    the segments of the history are complete; a pending text has its
    speaker. *)
Record Inv2 (ag : TextAggregator) : Prop := mkInv2 {
  inv_key : forall sid a seg, current_segments ag !! sid = Some a ->
            objects ag !! a = Some seg ->
            segment_id seg = sid /\ is_complete seg = false;
  inv_done : forall a seg, a ∈ history ag -> objects ag !! a = Some seg ->
             is_complete seg = true;
  inv_pending : pending_text ag <> [] -> pending_speaker ag <> None
}.

(** The segment open under [sid] has text [T] and speaker [sp], and it is
    the pending one. *)
Definition pending_is (ag : TextAggregator) (sid T : str) (sp : Speaker)
  : Prop :=
  (exists a seg, current_segments ag !! sid = Some a
                 /\ objects ag !! a = Some seg
                 /\ text seg = T /\ speaker seg = sp)
  /\ pending_text ag = T
  /\ pending_speaker ag = Some sp
  /\ pending_segment_id ag = Some sid.

End AggregatorRuns.

(* ===================================================================== *)
(** * services/session_manager.py: lookup, setters and shutdown *)
(* ===================================================================== *)

Module SessionManagerOps.
Import PyStr SessionModel SessionManager.

(** [get_session(session_id)]: the reference to the current session when
    it has this id. *)
Definition get_session (m : SessionManager) (sid : str) : option nat :=
  match current_session m with
  | Some a =>
      match sessions m !! a with
      | Some s => if str_eqb (session_id s) sid then Some a else None
      | None => None
      end
  | None => None
  end.

Definition update_session (m : SessionManager) (a : nat)
    (f : Session -> Session) : SessionManager :=
  match sessions m !! a with
  | Some s => mkManager (<[a := f s]> (sessions m)) (current_session m)
  | None => m
  end.

(** [set_mode(session, mode)] *)
Definition set_mode (m : SessionManager) (a : nat) (md : SessionMode)
  : SessionManager :=
  update_session m a (fun s =>
    mkSession (session_id s) (state s) md (hints_enabled s) (custom_prompt s)
              (knowledge_workspace s) (mic_queue s) (system_queue s) (stats s)).

(** [set_hints_enabled(session, enabled)] *)
Definition set_hints_enabled (m : SessionManager) (a : nat) (enabled : bool)
  : SessionManager :=
  update_session m a (fun s =>
    mkSession (session_id s) (state s) (mode s) enabled (custom_prompt s)
              (knowledge_workspace s) (mic_queue s) (system_queue s) (stats s)).

(** [set_custom_prompt(session, prompt)] *)
Definition set_custom_prompt (m : SessionManager) (a : nat) (prompt : str)
  : SessionManager :=
  update_session m a (fun s =>
    mkSession (session_id s) (state s) (mode s) (hints_enabled s) (Some prompt)
              (knowledge_workspace s) (mic_queue s) (system_queue s) (stats s)).

(** [set_knowledge_workspace(session, workspace)] *)
Definition set_knowledge_workspace (m : SessionManager) (a : nat)
    (workspace : str) : SessionManager :=
  update_session m a (fun s =>
    mkSession (session_id s) (state s) (mode s) (hints_enabled s)
              (custom_prompt s) (Some workspace) (mic_queue s)
              (system_queue s) (stats s)).

(** [shutdown()], as far as the sessions go (it also clears the event
    bus). *)
Definition shutdown (m : SessionManager) : SessionManager :=
  match current_session m with
  | Some a => mkManager (sessions (stop_session m a)) None
  | None => m
  end.

(** Every call a connection handler or the application can make. *)
Inductive Call :=
| Basic (op : Op)
| SetMode (a : nat) (md : SessionMode)
| SetHintsEnabled (a : nat) (enabled : bool)
| SetCustomPrompt (a : nat) (prompt : str)
| SetKnowledgeWorkspace (a : nat) (workspace : str)
| Shutdown.

Definition call (m : SessionManager) (c : Call) : SessionManager :=
  match c with
  | Basic op => step m op
  | SetMode a md => set_mode m a md
  | SetHintsEnabled a enabled => set_hints_enabled m a enabled
  | SetCustomPrompt a prompt => set_custom_prompt m a prompt
  | SetKnowledgeWorkspace a workspace => set_knowledge_workspace m a workspace
  | Shutdown => shutdown m
  end.

Definition run_calls (m : SessionManager) (calls : list Call)
  : SessionManager :=
  fold_left call calls m.

(** A run in which [start_session] is only ever called on the session
    that is current at that moment. *)
Fixpoint starts_current (m : SessionManager) (calls : list Call) : Prop :=
  match calls with
  | [] => True
  | c :: rest =>
      match c with
      | Basic (StartSession a) => current_session m = Some a
      | _ => True
      end /\ starts_current (call m c) rest
  end.

(** The manager just before [create_session] appends the new session. *)
Definition before_create (m : SessionManager) : SessionManager :=
  match current_session m with
  | Some a =>
      match state_of m a with
      | Some ACTIVE => _stop_session m a
      | _ => m
      end
  | None => m
  end.

(** The lifecycle of a session only moves forward: CREATED, then ACTIVE,
    then STOPPED. *)
Definition forward (st st' : SessionState) : Prop :=
  st' = st \/ st' = STOPPED \/ (st = CREATED /\ st' = ACTIVE).

(** Every ACTIVE session is the current one. *)
Definition active_is_current (m : SessionManager) : Prop :=
  forall a, state_of m a = Some ACTIVE -> current_session m = Some a.

(** One client after the other: connect, start, disconnect. *)
Definition one_at_a_time : list Call :=
  [ Basic (CreateSession (u "s1") INTERVIEW_ASSISTANT);
    Basic (StartSession 0);
    SetMode 0 MEETING_ASSISTANT;
    Basic (CreateSession (u "s2") INTERVIEW_ASSISTANT);
    Basic (StartSession 1);
    Basic (DestroySession (u "s1"));
    Basic (DestroySession (u "s2")) ].

End SessionManagerOps.

(* ================================================================== *)
(** ** services/llm_service.py: [_on_chunk] and the events of a run *)

Module LLMHandlers.
Import PyStr SessionModel Events LLM.

Definition is_completed (e : Event) : bool :=
  match e with HINT_COMPLETED _ _ _ => true | _ => false end.

Definition is_error (e : Event) : bool :=
  match e with LLM_ERROR _ => true | _ => false end.

(** How many events of a kind were published. *)
Definition count_events (kind : Event -> bool) (evs : list Event) : Z :=
  Z.of_nat (length (List.filter kind evs)).

(** The lines of a stream, without the chunks that arrive meanwhile. *)
Definition lines_only (items : list StreamItem) : list StreamItem :=
  List.filter (fun item => match item with Line _ => true | _ => false end)
              items.

(** The session with its two counters of the hint service raised, and
    nothing else changed. *)
Definition with_counts (sess : Session) (hints errors : Z) : Session :=
  let st := stats sess in
  set_stats sess (mkStats (dropped_frames_mic st) (dropped_frames_system st)
                          (total_frames_mic st) (total_frames_system st)
                          (transcript_segments st)
                          (hints_generated st + hints)
                          (stt_errors st) (llm_errors st + errors)).


(** No chunk arrives while this request is handled. *)
Definition quiet (up : Upstream) : Prop :=
  match up with
  | Raises items _ | Response _ items _ => lines_only items = items
  end.

Section WithLibraries.
Variable isdigit : char -> bool.
Variable parse_token : str -> option str.

(** [_on_chunk(chunk)], the handler of TEXT_CHUNK_READY. *)
Definition _on_chunk (sess : Session) (svc : LLMService) (chunk : TextChunk)
    (requests : list (str * Upstream))
  : option (Session * LLMService * list Event) :=
  if negb (hints_enabled sess) then Some (sess, svc, [])
  else if _generating svc
  then Some (sess, on_chunk_generating sess svc chunk, [])
  else _generate_hint isdigit parse_token sess svc chunk requests.

(** A line that the loop of [_format_hint] takes for neither a bullet nor
    a numbered item. *)
Definition plain_line (line0 : str) : bool :=
  let line := strip line0 in
  match line with
  | [] => true
  | c0 :: _ =>
      negb (is_bullet line)
      && negb (isdigit c0 && contains 46%N (firstn 3 line))
  end.

End WithLibraries.

(** A decoder for examples: the data of a line is the token itself. *)
Definition raw_token (data : str) : option str := Some data.

(** A second chunk, and an upstream that streams two tokens while that
    chunk arrives in between. *)
Definition follow_up : TextChunk :=
  mkChunk THEM (u "How would you test it?") [] (Some []) true.

Definition interrupted : Upstream :=
  Response 200 [ Line (u "data: - Start"); Arrival follow_up;
                 Line (u "data:  small"); Line (u "data: [DONE]") ] None.

(** An upstream that streams one token; a chunk arrives while
    HINT_COMPLETED is being published. *)
Definition overtaken : Upstream :=
  Response 200 [ Line (u "data: - Start"); Line (u "data: [DONE]");
                 Late follow_up ] None.

(** An upstream that answers the follow-up with nothing arriving. *)
Definition answered : Upstream :=
  Response 200 [ Line (u "data: - Test"); Line (u "data: [DONE]") ] None.

Definition prose : str := u "Sure, here are some ideas" ++ [NL] ++ u "and more".

End LLMHandlers.


(* ================================================================== *)
(** ** utils/event_bus.py *)

Module Bus.

Inductive EventType :=
| AUDIO_FRAME_MIC | AUDIO_FRAME_SYSTEM
| TRANSCRIPT_DELTA | TRANSCRIPT_COMPLETED
| TEXT_CHUNK_READY
| HINT_TOKEN | HINT_COMPLETED
| SESSION_STARTED | SESSION_STOPPED | SESSION_STATUS
| STT_ERROR | LLM_ERROR.

Definition EventType_to_nat (e : EventType) : nat :=
  match e with
  | AUDIO_FRAME_MIC => 0 | AUDIO_FRAME_SYSTEM => 1
  | TRANSCRIPT_DELTA => 2 | TRANSCRIPT_COMPLETED => 3
  | TEXT_CHUNK_READY => 4
  | HINT_TOKEN => 5 | HINT_COMPLETED => 6
  | SESSION_STARTED => 7 | SESSION_STOPPED => 8 | SESSION_STATUS => 9
  | STT_ERROR => 10 | LLM_ERROR => 11
  end%nat.

Definition EventType_of_nat (n : nat) : EventType :=
  match n with
  | 0 => AUDIO_FRAME_MIC | 1 => AUDIO_FRAME_SYSTEM
  | 2 => TRANSCRIPT_DELTA | 3 => TRANSCRIPT_COMPLETED
  | 4 => TEXT_CHUNK_READY
  | 5 => HINT_TOKEN | 6 => HINT_COMPLETED
  | 7 => SESSION_STARTED | 8 => SESSION_STOPPED | 9 => SESSION_STATUS
  | 10 => STT_ERROR | _ => LLM_ERROR
  end%nat.

#[global] Instance EventType_eq_dec : EqDecision EventType :=
  fun a b =>
    match Nat.eq_dec (EventType_to_nat a) (EventType_to_nat b) with
    | left E =>
        left (eq_trans
                (eq_sym (match a return EventType_of_nat (EventType_to_nat a) = a
                         with
                         | AUDIO_FRAME_MIC | AUDIO_FRAME_SYSTEM
                         | TRANSCRIPT_DELTA | TRANSCRIPT_COMPLETED
                         | TEXT_CHUNK_READY | HINT_TOKEN | HINT_COMPLETED
                         | SESSION_STARTED | SESSION_STOPPED | SESSION_STATUS
                         | STT_ERROR | LLM_ERROR => eq_refl
                         end))
                (eq_trans (f_equal EventType_of_nat E)
                   (match b return EventType_of_nat (EventType_to_nat b) = b
                    with
                    | AUDIO_FRAME_MIC | AUDIO_FRAME_SYSTEM
                    | TRANSCRIPT_DELTA | TRANSCRIPT_COMPLETED
                    | TEXT_CHUNK_READY | HINT_TOKEN | HINT_COMPLETED
                    | SESSION_STARTED | SESSION_STOPPED | SESSION_STATUS
                    | STT_ERROR | LLM_ERROR => eq_refl
                    end)))
    | right N => right (fun E => N (f_equal EventType_to_nat E))
    end.

#[global] Instance EventType_countable : Countable EventType :=
  inj_countable' EventType_to_nat EventType_of_nat
    (fun e => match e with
              | AUDIO_FRAME_MIC | AUDIO_FRAME_SYSTEM
              | TRANSCRIPT_DELTA | TRANSCRIPT_COMPLETED
              | TEXT_CHUNK_READY | HINT_TOKEN | HINT_COMPLETED
              | SESSION_STARTED | SESSION_STOPPED | SESSION_STATUS
              | STT_ERROR | LLM_ERROR => eq_refl
              end).

(** A handler is a bound method of a service; the bus compares handlers
    with [==], which for bound methods is identity of the object and of
    the function.  The number stands for that identity. *)
Definition EventHandler := nat.

(** [self._handlers] is a [defaultdict(list)]. *)
Record EventBus := mkBus {
  _handlers : gmap EventType (list EventHandler)
}.

(** [EventBus()] *)
Definition new_bus : EventBus := mkBus ∅.

(** [self._handlers[event_type]] on a [defaultdict(list)]: a missing key
    is first given the empty list. *)
Definition touch (bus : EventBus) (event_type : EventType) : EventBus :=
  match _handlers bus !! event_type with
  | Some _ => bus
  | None => mkBus (<[event_type := []]> (_handlers bus))
  end.

Definition handlers_at (bus : EventBus) (event_type : EventType)
  : list EventHandler :=
  default [] (_handlers bus !! event_type).

(** [list.remove(x)]: the first occurrence goes. *)
Fixpoint list_remove (x : EventHandler) (l : list EventHandler)
  : list EventHandler :=
  match l with
  | [] => []
  | y :: l' => if decide (x = y) then l' else y :: list_remove x l'
  end.

(** [subscribe(event_type, handler)] *)
Definition subscribe (bus : EventBus) (event_type : EventType)
    (handler : EventHandler) : EventBus :=
  let bus1 := touch bus event_type in
  if decide (handler ∈ handlers_at bus1 event_type) then bus1
  else mkBus (<[event_type := handlers_at bus1 event_type ++ [handler]]>
                (_handlers bus1)).

(** [unsubscribe(event_type, handler)] *)
Definition unsubscribe (bus : EventBus) (event_type : EventType)
    (handler : EventHandler) : EventBus :=
  let bus1 := touch bus event_type in
  if decide (handler ∈ handlers_at bus1 event_type)
  then mkBus (<[event_type := list_remove handler
                                  (handlers_at bus1 event_type)]>
                (_handlers bus1))
  else bus1.

(** [publish(event_type, payload)]: the bus afterwards, and the handlers
    that are called with the payload, one task each, gathered with
    [return_exceptions=True]. *)
Definition publish (bus : EventBus) (event_type : EventType)
  : EventBus * list EventHandler :=
  let bus1 := touch bus event_type in
  (bus1, handlers_at bus1 event_type).

(** [clear()] *)
Definition clear (bus : EventBus) : EventBus := mkBus ∅.

Inductive Call :=
| Subscribe (event_type : EventType) (handler : EventHandler)
| Unsubscribe (event_type : EventType) (handler : EventHandler)
| Publish (event_type : EventType)
| Clear.

Definition call (bus : EventBus) (c : Call) : EventBus :=
  match c with
  | Subscribe event_type handler => subscribe bus event_type handler
  | Unsubscribe event_type handler => unsubscribe bus event_type handler
  | Publish event_type => fst (publish bus event_type)
  | Clear => clear bus
  end.

Definition run (calls : list Call) : EventBus := fold_left call calls new_bus.

End Bus.


(* ================================================================== *)
(** ** services/stt_service.py *)

Module STT.
Import PyStr SessionModel Events.

(** A message of the transcription API after [json.loads]: the three keys
    that [_handle_message] reads, each absent or a string. *)
Record Message := mkMessage {
  msg_type : option str;
  msg_delta : option str;
  msg_transcript : option str
}.

(** [data.get(key, "")] *)
Definition get (field : option str) : str := default [] field.

Record RealtimeSTTClient := mkClient {
  speaker : Speaker;
  _current_segment_id : option str
}.

(** [RealtimeSTTClient(speaker, on_delta, on_completed)] *)
Definition new_client (sp : Speaker) : RealtimeSTTClient := mkClient sp None.

(** The calls of the two callbacks the client was given. *)
Inductive Callback :=
| on_delta (text segment_id : str)
| on_completed (text segment_id : str).

(** [cur or uuid]: the current segment id unless it is [None] or empty. *)
Definition id_or (cur : option str) (uuid : str) : str :=
  match cur with
  | Some (i :: id) => i :: id
  | _ => uuid
  end.

Definition SPEECH_STARTED : str := u "input_audio_buffer.speech_started".
Definition DELTA : str :=
  u "conversation.item.input_audio_transcription.delta".
Definition COMPLETED : str :=
  u "conversation.item.input_audio_transcription.completed".

(** [_handle_message(data)].  [uuid] is what [str(uuid.uuid4())] returns
    if this call asks for one. *)
Definition _handle_message (c : RealtimeSTTClient) (uuid : str)
    (data : Message) : RealtimeSTTClient * list Callback :=
  let t := get (msg_type data) in
  if str_eqb t (u "session.created") then (c, [])
  else if str_eqb t (u "session.updated") then (c, [])
  else if str_eqb t SPEECH_STARTED then
    (mkClient (speaker c) (Some uuid), [])
  else if str_eqb t (u "input_audio_buffer.speech_stopped") then (c, [])
  else if str_eqb t DELTA then
    let delta := get (msg_delta data) in
    match delta, _current_segment_id c with
    | _ :: _, Some (i :: id) => (c, [on_delta delta (i :: id)])
    | _, _ => (c, [])
    end
  else if str_eqb t COMPLETED then
    let transcript := get (msg_transcript data) in
    match transcript with
    | _ :: _ =>
        let segment_id := id_or (_current_segment_id c) uuid in
        (mkClient (speaker c) None, [on_completed transcript segment_id])
    | [] => (c, [])
    end
  else (c, []).

(** The text messages one client receives, each with the uuid at hand. *)
Fixpoint receive (c : RealtimeSTTClient) (msgs : list (str * Message))
  : RealtimeSTTClient * list Callback :=
  match msgs with
  | [] => (c, [])
  | (uuid, data) :: rest =>
      let '(c1, cbs1) := _handle_message c uuid data in
      let '(c2, cbs2) := receive c1 rest in
      (c2, cbs1 ++ cbs2)
  end.

(** What the service publishes on the event bus. *)
Inductive Event :=
| TRANSCRIPT_DELTA (event : TranscriptDelta)
| TRANSCRIPT_COMPLETED (event : TranscriptCompleted).

Definition incr_transcript_segments (s : Session) : Session :=
  let st := stats s in
  set_stats s (mkStats (dropped_frames_mic st) (dropped_frames_system st)
                       (total_frames_mic st) (total_frames_system st)
                       (transcript_segments st + 1) (hints_generated st)
                       (stt_errors st) (llm_errors st)).

(** [_on_mic_delta], [_on_mic_completed], [_on_system_delta] and
    [_on_system_completed]; [now] is [time.time()]. *)
Definition _on_mic_delta (sess : Session) (text segment_id : str) (now : Q)
  : Session * list Event :=
  (sess, [TRANSCRIPT_DELTA (mkDelta ME text segment_id now)]).

Definition _on_mic_completed (sess : Session) (text segment_id : str)
    (now : Q) : Session * list Event :=
  (incr_transcript_segments sess,
   [TRANSCRIPT_COMPLETED (mkCompleted ME text segment_id now)]).

Definition _on_system_delta (sess : Session) (text segment_id : str)
    (now : Q) : Session * list Event :=
  (sess, [TRANSCRIPT_DELTA (mkDelta THEM text segment_id now)]).

Definition _on_system_completed (sess : Session) (text segment_id : str)
    (now : Q) : Session * list Event :=
  (incr_transcript_segments sess,
   [TRANSCRIPT_COMPLETED (mkCompleted THEM text segment_id now)]).

(** [STTService]: the session and the two clients that [run] creates, the
    mic client with speaker ME and the mic callbacks, the system client
    with speaker THEM and the system callbacks. *)
Record STTService := mkSTT {
  session : Session;
  _mic_client : RealtimeSTTClient;
  _system_client : RealtimeSTTClient
}.

Definition new_service (sess : Session) : STTService :=
  mkSTT sess (new_client ME) (new_client THEM).

(** The callback of a client, as [run] wired it. *)
Definition callback (which : Speaker) (sess : Session) (cb : Callback)
    (now : Q) : Session * list Event :=
  match which, cb with
  | ME, on_delta text segment_id => _on_mic_delta sess text segment_id now
  | ME, on_completed text segment_id =>
      _on_mic_completed sess text segment_id now
  | THEM, on_delta text segment_id =>
      _on_system_delta sess text segment_id now
  | THEM, on_completed text segment_id =>
      _on_system_completed sess text segment_id now
  end.

Fixpoint callbacks (which : Speaker) (sess : Session) (cbs : list Callback)
    (now : Q) : Session * list Event :=
  match cbs with
  | [] => (sess, [])
  | cb :: rest =>
      let '(sess1, evs1) := callback which sess cb now in
      let '(sess2, evs2) := callbacks which sess1 rest now in
      (sess2, evs1 ++ evs2)
  end.

(** One text message arriving on the socket of one of the two clients. *)
Record Arrival := mkArrival {
  which : Speaker;
  uuid : str;
  now : Q;
  data : Message
}.

Definition on_message (svc : STTService) (a : Arrival)
  : STTService * list Event :=
  match which a with
  | ME =>
      let '(c, cbs) := _handle_message (_mic_client svc) (uuid a) (data a) in
      let '(sess, evs) := callbacks ME (session svc) cbs (now a) in
      (mkSTT sess c (_system_client svc), evs)
  | THEM =>
      let '(c, cbs) :=
        _handle_message (_system_client svc) (uuid a) (data a) in
      let '(sess, evs) := callbacks THEM (session svc) cbs (now a) in
      (mkSTT sess (_mic_client svc) c, evs)
  end.

Fixpoint on_messages (svc : STTService) (arrivals : list Arrival)
  : STTService * list Event :=
  match arrivals with
  | [] => (svc, [])
  | a :: rest =>
      let '(svc1, evs1) := on_message svc a in
      let '(svc2, evs2) := on_messages svc1 rest in
      (svc2, evs1 ++ evs2)
  end.

Definition is_transcript_completed (e : Event) : bool :=
  match e with TRANSCRIPT_COMPLETED _ => true | _ => false end.

Definition event_speaker (e : Event) : Speaker :=
  match e with
  | TRANSCRIPT_DELTA d => delta_speaker d
  | TRANSCRIPT_COMPLETED c => completed_speaker c
  end.

Definition event_text (e : Event) : str :=
  match e with
  | TRANSCRIPT_DELTA d => delta_text d
  | TRANSCRIPT_COMPLETED c => completed_text c
  end.

Definition is_on_delta (cb : Callback) : bool :=
  match cb with on_delta _ _ => true | _ => false end.

Definition callback_segment_id (cb : Callback) : str :=
  match cb with
  | on_delta _ segment_id | on_completed _ segment_id => segment_id
  end.

(** The message is not the start of speech. *)
Definition not_speech_started (m : str * Message) : bool :=
  negb (str_eqb (get (msg_type (snd m))) SPEECH_STARTED).

(** Example messages. *)
Definition speech_started : Message :=
  mkMessage (Some SPEECH_STARTED) None None.
Definition delta_of (text : str) : Message :=
  mkMessage (Some DELTA) (Some text) None.
Definition completed_of (text : str) : Message :=
  mkMessage (Some COMPLETED) None (Some text).

(** Speech starts, two deltas, the transcript; then a delta that comes
    late and a second transcript with no speech started in between. *)
Definition one_utterance : list (str * Message) :=
  [ (u "id-1", speech_started); (u "id-2", delta_of (u "Hel"));
    (u "id-3", delta_of (u "lo")); (u "id-4", completed_of (u "Hello")) ].

Definition late_messages : list (str * Message) :=
  [ (u "id-5", delta_of (u "again")); (u "id-6", completed_of (u "again")) ].

End STT.


(* ================================================================== *)
(** ** services/knowledge_service.py: [chunk_text] *)

Module KnowledgeChunking.
Import PyStr.

(** Python's treatment of a slice index: a negative one counts from the
    end, and the result is kept within [0, n]. *)
Definition adjust (n i : Z) : Z :=
  let i := if i <? 0 then i + n else i in
  if i <? 0 then 0 else if n <? i then n else i.

(** [s[lo:hi]] *)
Definition slice (s : str) (lo hi : Z) : str :=
  let lo' := adjust (len s) lo in
  let hi' := adjust (len s) hi in
  firstn (Z.to_nat (hi' - lo')) (skipn (Z.to_nat lo') s).

(** The search of [rfind]: the candidates [lo + k - 1] down to [lo]. *)
Fixpoint rfind_loop (s sub : str) (lo : Z) (k : nat) : Z :=
  match k with
  | O => -1
  | S k' =>
      let i := lo + Z.of_nat k' in
      if startswith (skipn (Z.to_nat i) s) sub then i
      else rfind_loop s sub lo k'
  end.

(** [s.rfind(sub, lo, hi)] for a non-empty [sub]: the highest index at
    which [sub] occurs within [s[lo:hi]], or -1. *)
Definition rfind (s sub : str) (lo hi : Z) : Z :=
  let lo' := adjust (len s) lo in
  let hi' := adjust (len s) hi in
  rfind_loop s sub lo' (Z.to_nat (hi' - len sub - lo' + 1)).

Definition PUNCTUATION : list str := [u "."; u "!"; u "?"; [NL; NL]].

(** The [for punct in ...] loop with its [break]: the value of [end]
    after it. *)
Fixpoint find_break (text : str) (start max_chars end_ : Z)
    (puncts : list str) : Z :=
  match puncts with
  | [] => end_
  | punct :: rest =>
      let last_punct := rfind text punct (start + max_chars / 2) end_ in
      if start <? last_punct then last_punct + 1
      else find_break text start max_chars end_ rest
  end.

(** The [while start < len(text)] loop; [None] when the fuel runs out. *)
Fixpoint chunk_loop (fuel : nat) (text : str) (max_chars overlap : Z)
    (start : Z) (chunks : list str) : option (list str) :=
  match fuel with
  | O => None
  | S fuel' =>
      if start <? len text then
        let end0 := start + max_chars in
        let end_ :=
          if end0 <? len text
          then find_break text start max_chars end0 PUNCTUATION
          else end0 in
        chunk_loop fuel' text max_chars overlap (end_ - overlap)
                   (chunks ++ [strip (slice text start end_)])
      else Some chunks
  end.

(** [chunk_text(text, max_chars, overlap)] *)
Definition chunk_text (fuel : nat) (text : str) (max_chars overlap : Z)
  : option (list str) :=
  if len text <=? max_chars then Some [text]
  else chunk_loop fuel text max_chars overlap 0 [].

(** A short text to cut, and one with no progress to make. *)
Definition three_sentences : str :=
  u "One two three. Four five six seven! Eight nine ten eleven twelve.".

End KnowledgeChunking.


(* ================================================================== *)
(** ** utils/audio.py: [pcm_to_float32] and [float32_to_pcm] *)

Module AudioConvert.
Import SessionModel Audio.

(** The samples are float32 in the source.  Every 16-bit integer divided
    by 32768 is a float32, and multiplying a float32 by 32768 only moves
    its exponent, so these two functions round nothing; their values are
    taken here as rationals. *)

(** [pcm_to_float32(pcm_bytes)]; [None] when [np.frombuffer] raises. *)
Definition pcm_to_float32 (pcm_bytes : bytes) : option (list Q) :=
  match frombuffer_int16 pcm_bytes with
  | Some samples => Some (List.map (fun x => inject_Z x / 32768)%Q samples)
  | None => None
  end.

(** [np.clip(x, lo, hi)] *)
Definition clip (x lo hi : Q) : Q :=
  let y := if Qle_bool lo x then x else lo in
  if Qle_bool y hi then y else hi.

(** [astype(np.int16)] on a value within the range: the fraction is cut
    off, towards zero. *)
Definition astype_int16 (x : Q) : Z := Z.quot (Qnum x) (Z.pos (Qden x)).

(** One byte of [tobytes()]. *)
Definition byte_of (z : Z) : byte :=
  match Byte.of_N (Z.to_N (z mod 256)) with
  | Some b => b
  | None => x00
  end.

(** [tobytes()] of one int16: little-endian, two's complement. *)
Definition int16_tobytes (v : Z) : bytes := [byte_of v; byte_of (v / 256)].

(** [float32_to_pcm(samples)] *)
Definition float32_to_pcm (samples : list Q) : bytes :=
  flat_map (fun x => int16_tobytes
                       (astype_int16 (clip (x * 32768) (-32768) 32767)%Q))
           samples.

End AudioConvert.


(* ===================================================================== *)
(** * Properties *)
(* ===================================================================== *)

(** ** Python strings *)

Module PyStrProps.
Import PyStr.

Lemma lstrip_head_ok s : head_ok (lstrip s).
Proof.
  induction s as [| c s IH]; simpl; [exact I |].
  destruct (isspace c) eqn:E; [exact IH | exact E].
Qed.

Lemma lstrip_id s : head_ok s -> lstrip s = s.
Proof. destruct s as [| c s]; simpl; [reflexivity |]. now intros ->. Qed.

Lemma lstrip_suffix s : exists pre, s = pre ++ lstrip s.
Proof.
  induction s as [| c s [pre IH]]; [now exists [] |].
  simpl. destruct (isspace c).
  - exists (c :: pre). simpl. now f_equal.
  - now exists [].
Qed.

Lemma In_lstrip c s : In c (lstrip s) -> In c s.
Proof.
  intros H. destruct (lstrip_suffix s) as [pre E]. rewrite E.
  apply List.in_or_app. now right.
Qed.

Lemma In_strip c s : In c (strip s) -> In c s.
Proof.
  unfold strip, rstrip. intros H.
  apply List.in_rev in H. apply In_lstrip in H.
  apply List.in_rev in H. now apply In_lstrip in H.
Qed.

Lemma head_ok_app x y : x <> [] -> head_ok x -> head_ok (x ++ y).
Proof. destruct x; [congruence | auto]. Qed.

Lemma head_ok_app_inv x y : x <> [] -> head_ok (x ++ y) -> head_ok x.
Proof. destruct x; [congruence | auto]. Qed.

Lemma strip_tail_ok s : head_ok (rev (strip s)).
Proof.
  unfold strip, rstrip. rewrite rev_involutive. apply lstrip_head_ok.
Qed.

Lemma strip_head_ok s : head_ok (strip s).
Proof.
  unfold strip, rstrip.
  pose proof (lstrip_head_ok s) as Ha. set (a := lstrip s) in *.
  destruct (lstrip_suffix (rev a)) as [pre E].
  destruct (lstrip (rev a)) as [| c r] eqn:El; [exact I |].
  assert (Ea : a = rev (c :: r) ++ rev pre).
  { rewrite <- rev_app_distr, <- E. symmetry. apply rev_involutive. }
  rewrite Ea in Ha. apply head_ok_app_inv in Ha; [exact Ha |].
  simpl. now destruct (rev r).
Qed.

Lemma strip_id s : head_ok s -> head_ok (rev s) -> strip s = s.
Proof.
  intros H1 H2. unfold strip, rstrip.
  rewrite (lstrip_id s H1), (lstrip_id (rev s) H2). apply rev_involutive.
Qed.

Lemma split_no_sep sep s : ~ In sep s -> split sep s = [s].
Proof.
  induction s as [| c s IH]; intros Hn; [reflexivity |].
  simpl. destruct (N.eqb_spec c sep) as [-> | Hne].
  - exfalso. apply Hn. now left.
  - rewrite IH; [reflexivity |]. intros H. apply Hn. now right.
Qed.

Lemma split_app_sep sep a s :
  ~ In sep a -> split sep (a ++ sep :: s) = a :: split sep s.
Proof.
  induction a as [| c a IH]; intros Hn; simpl.
  - now rewrite N.eqb_refl.
  - destruct (N.eqb_spec c sep) as [-> | Hne].
    + exfalso. apply Hn. now left.
    + rewrite IH; [reflexivity |]. intros H. apply Hn. now right.
Qed.

Lemma split_fields_no_sep sep s :
  Forall (fun f => ~ In sep f) (split sep s).
Proof.
  induction s as [| c s IH]; simpl.
  - constructor; [intros [] | constructor].
  - destruct (N.eqb_spec c sep) as [-> | Hne].
    + constructor; [intros [] | exact IH].
    + destruct (split sep s) as [| f fs].
      * constructor; [| constructor]. intros [H | []]. congruence.
      * inversion IH as [| ? ? Hf Hfs]; subst.
        constructor; [| exact Hfs]. intros [H | H]; [congruence | auto].
Qed.

Lemma split_fields_In sep s :
  Forall (fun f => forall c, In c f -> In c s) (split sep s).
Proof.
  induction s as [| c s IH]; simpl.
  - constructor; [intros ? [] | constructor].
  - assert (IH' : Forall (fun f => forall d, In d f -> In d (c :: s))
                         (split sep s)).
    { eapply List.Forall_impl; [| exact IH]. simpl. intros f Hf d Hd.
      right. now apply Hf. }
    destruct (N.eqb c sep).
    + constructor; [intros ? [] | exact IH'].
    + destruct (split sep s) as [| f fs].
      * constructor; [| constructor]. intros d [<- | []]. now left.
      * inversion IH' as [| ? ? Hf Hfs]; subst.
        constructor; [| exact Hfs].
        intros d [<- | Hd]; [now left | now apply Hf].
Qed.

Lemma join_cons2 sep (p q : str) (ps : list str) :
  join sep (p :: q :: ps) = p ++ sep ++ join sep (q :: ps).
Proof. reflexivity. Qed.

Lemma split_join (parts : list str) :
  parts <> [] ->
  Forall (fun p => ~ In NL p) parts ->
  split NL (join [NL] parts) = parts.
Proof.
  induction parts as [| p ps IH]; intros Hne Hall; [congruence |].
  inversion Hall as [| ? ? Hp Hps]; subst.
  destruct ps as [| q ps].
  - simpl. now apply split_no_sep.
  - rewrite join_cons2.
    change (p ++ [NL] ++ join [NL] (q :: ps))
      with (p ++ NL :: join [NL] (q :: ps)).
    rewrite split_app_sep by assumption.
    rewrite IH; [reflexivity | congruence | assumption].
Qed.

Lemma join_nonempty sep (p : str) (ps : list str) :
  p <> [] -> join sep (p :: ps) <> [].
Proof.
  intros Hp. destruct ps as [| q ps]; [exact Hp |].
  rewrite join_cons2. destruct p; [congruence | discriminate].
Qed.

Lemma join_head_ok sep (p : str) (ps : list str) :
  p <> [] -> head_ok p -> head_ok (join sep (p :: ps)).
Proof.
  intros Hp Hh. destruct ps as [| q ps]; [exact Hh |].
  rewrite join_cons2. now apply head_ok_app.
Qed.

Lemma join_tail_ok sep (parts : list str) :
  Forall (fun p => p <> [] /\ head_ok (rev p)) parts ->
  head_ok (rev (join sep parts)).
Proof.
  induction parts as [| p ps IH]; intros Hall; [exact I |].
  inversion Hall as [| ? ? [Hp Hh] Hps]; subst.
  destruct ps as [| q ps]; [exact Hh |].
  rewrite join_cons2, !rev_app_distr, <- app_assoc.
  apply head_ok_app; [| now apply IH].
  inversion Hps as [| ? ? [Hq _] _]; subst.
  intros E. apply (join_nonempty sep q ps Hq).
  rewrite <- (rev_involutive (join sep (q :: ps))), E. reflexivity.
Qed.

Lemma startswith_app s p y :
  startswith s p = true -> startswith (s ++ y) p = true.
Proof.
  revert s. induction p as [| c p IH]; intros s H; [reflexivity |].
  destruct s as [| d s]; [discriminate |]. simpl in *.
  apply andb_true_iff in H as [H1 H2]. rewrite H1. simpl. now apply IH.
Qed.

Lemma startswith_prefix p y : startswith (p ++ y) p = true.
Proof.
  induction p as [| c p IH]; [reflexivity |].
  simpl. now rewrite N.eqb_refl.
Qed.

End PyStrProps.

(** ** Audio ingress *)

Module IngressProps.
Import ListUtil PyStr SessionModel Ingress.

Lemma lastn_all {A} k (l : list A) : (length l <= k)%nat -> lastn k l = l.
Proof.
  intros H. unfold lastn. now replace (length l - k)%nat with 0%nat by lia.
Qed.

Lemma lastn_length {A} k (l : list A) :
  length (lastn k l) = Nat.min k (length l).
Proof. unfold lastn. rewrite length_skipn. lia. Qed.

Lemma lastn_app_lastn {A} k (l m : list A) :
  lastn k (lastn k l ++ m) = lastn k (l ++ m).
Proof.
  unfold lastn.
  assert (Hs : skipn (length l - k) l ++ m = skipn (length l - k) (l ++ m)).
  { rewrite skipn_app. replace (length l - k - length l)%nat with 0%nat by lia.
    reflexivity. }
  rewrite Hs, skipn_skipn. f_equal.
  rewrite length_skipn, !length_app. lia.
Qed.

(** What one accepted frame does to its channel's queue and counters. *)
Lemma enqueue_frame_queue s c x :
  maxsize (queue_of c s) = 200 ->
  (length (items (queue_of c s)) <= 200)%nat ->
  queue_of c (enqueue_frame s c x)
    = mkQueue 200 (lastn 200 (items (queue_of c s) ++ [x]))
  /\ dropped_of c (stats (enqueue_frame s c x))
    = dropped_of c (stats s)
      + (if Nat.eqb (length (items (queue_of c s))) 200 then 1 else 0)
  /\ total_of c (stats (enqueue_frame s c x)) = total_of c (stats s) + 1
  /\ state (enqueue_frame s c x) = state s.
Proof.
  intros Hmax Hlen.
  destruct s as [sid st md he cp kw [mm mi] [sm si] stt].
  destruct c; simpl in Hmax, Hlen; subst;
    unfold enqueue_frame, put_nowait, get_nowait, full, qsize; simpl.
  all: match goal with
       | |- context [200 <=? Z.of_nat (length ?l)] =>
           destruct (Z.leb_spec 200 (Z.of_nat (length l))) as [Hfull | Hfree]
       end.
  all: match goal with
       | |- context [Nat.eqb (length ?l) 200] =>
           destruct (Nat.eqb_spec (length l) 200) as [E | E]; try lia
       end.
  - destruct mi as [| y mi']; simpl in E; [discriminate |].
    simpl. unfold full, qsize. simpl.
    destruct (Z.leb_spec 200 (Z.of_nat (length mi'))); [lia |].
    simpl. repeat split; f_equal.
    unfold lastn. simpl length. rewrite length_app. simpl length.
    replace (S (length mi' + 1) - 200)%nat with 1%nat by lia. reflexivity.
  - simpl. repeat split; try lia. f_equal.
    symmetry. apply lastn_all. rewrite length_app. simpl. lia.
  - destruct si as [| y si']; simpl in E; [discriminate |].
    simpl. unfold full, qsize. simpl.
    destruct (Z.leb_spec 200 (Z.of_nat (length si'))); [lia |].
    simpl. repeat split; f_equal.
    unfold lastn. simpl length. rewrite length_app. simpl length.
    replace (S (length si' + 1) - 200)%nat with 1%nat by lia. reflexivity.
  - simpl. repeat split; try lia. f_equal.
    symmetry. apply lastn_all. rewrite length_app. simpl. lia.
Qed.

Lemma handle_audio_accept s c f :
  state s = ACTIVE -> f <> [] ->
  _handle_audio (mkHandler (Some s)) (tag_of c :: f)
    = (mkHandler (Some (enqueue_frame s c f)), []).
Proof.
  intros Hs Hf. unfold _handle_audio. cbn [session]. cbv iota beta.
  rewrite Hs. cbn [SessionState_eqb negb].
  destruct f as [| b f]; [congruence |].
  destruct (Z.ltb_spec (Z.of_nat (length (tag_of c :: b :: f))) 2) as [Hlt | _].
  - simpl in Hlt. lia.
  - destruct c; reflexivity.
Qed.

(** Delivering a run of frames on one channel keeps the newest 200 and
    counts every frame that had to make room. *)
Lemma deliver_frames c frames : forall s,
  state s = ACTIVE ->
  maxsize (queue_of c s) = 200 ->
  (length (items (queue_of c s)) <= 200)%nat ->
  Forall (fun f => f <> []) frames ->
  exists s',
    deliver (mkHandler (Some s)) (List.map (cons (tag_of c)) frames)
      = (mkHandler (Some s'), [])
    /\ state s' = ACTIVE
    /\ queue_of c s' = mkQueue 200 (lastn 200 (items (queue_of c s) ++ frames))
    /\ dropped_of c (stats s')
       = dropped_of c (stats s)
         + Z.of_nat (length (items (queue_of c s)) + length frames - 200)
    /\ total_of c (stats s')
       = total_of c (stats s) + Z.of_nat (length frames).
Proof.
  induction frames as [| f fs IH]; intros s Hact Hmax Hlen Hne.
  - exists s. simpl. rewrite app_nil_r, lastn_all by assumption.
    repeat split; try assumption; try lia.
    destruct (queue_of c s) as [mx it]. simpl in *. now subst.
  - inversion Hne as [| ? ? Hf Hfs]; subst.
    destruct (enqueue_frame_queue s c f Hmax Hlen) as (Hq & Hd & Ht & Hst).
    destruct (IH (enqueue_frame s c f)) as (s' & Hrun & Hact' & Hq' & Hd' & Ht').
    + congruence.
    + rewrite Hq. reflexivity.
    + rewrite Hq. simpl. rewrite lastn_length. lia.
    + assumption.
    + exists s'. simpl List.map. simpl deliver.
      rewrite (handle_audio_accept s c f Hact Hf), Hrun.
      split; [reflexivity |]. split; [assumption |].
      rewrite Hq in Hq', Hd'. simpl items in Hq', Hd'.
      rewrite lastn_app_lastn, <- app_assoc in Hq'. simpl app in Hq'.
      split; [assumption |].
      rewrite lastn_length, length_app in Hd'. simpl length in *.
      split.
      * rewrite Hd', Hd.
        destruct (Nat.eqb_spec (length (items (queue_of c s))) 200); lia.
      * rewrite Ht', Ht. lia.
Qed.

(** C6. Starting from an empty queue of capacity 200 in an active session,
    after 250 frames are delivered on one channel with nothing dequeued,
    the queue holds exactly 200 frames, they are the last 200 delivered in
    FIFO order, and the channel's dropped-frames counter, starting at 0,
    is 50. *)
Theorem ingress_overflow_250 (c : Channel) (s : Session) (frames : list bytes) :
  state s = ACTIVE ->
  queue_of c s = mkQueue 200 [] ->
  dropped_of c (stats s) = 0 ->
  length frames = 250%nat ->
  Forall (fun f => f <> []) frames ->
  exists s',
    deliver (mkHandler (Some s)) (List.map (cons (tag_of c)) frames)
      = (mkHandler (Some s'), [])
    /\ length (items (queue_of c s')) = 200%nat
    /\ items (queue_of c s') = skipn 50 frames
    /\ dropped_of c (stats s') = 50.
Proof.
  intros Hact Hq Hd Hlen Hne.
  destruct (deliver_frames c frames s Hact) as (s' & Hrun & _ & Hq' & Hd' & _);
    try (rewrite Hq; simpl; lia); try assumption.
  exists s'. rewrite Hq in Hq', Hd'. simpl in Hq', Hd'.
  rewrite Hq'. simpl items.
  unfold lastn in *. rewrite Hlen in *. simpl Nat.sub.
  change (250 - 200)%nat with 50%nat.
  repeat split.
  - assumption.
  - rewrite length_skipn. lia.
  - lia.
Qed.

Lemma ingress_overflow_250_witness :
  exists s',
    deliver (mkHandler (Some (set_state (new_session (u "s1") INTERVIEW_ASSISTANT) ACTIVE)))
            (List.map (cons (tag_of Mic)) sample_frames)
      = (mkHandler (Some s'), [])
    /\ length (items (queue_of Mic s')) = 200%nat
    /\ items (queue_of Mic s') = skipn 50 sample_frames
    /\ dropped_of Mic (stats s') = 50.
Proof.
  apply (ingress_overflow_250 Mic
           (set_state (new_session (u "s1") INTERVIEW_ASSISTANT) ACTIVE)
           sample_frames).
  - reflexivity.
  - reflexivity.
  - reflexivity.
  - reflexivity.
  - apply List.Forall_forall. intros f Hin. unfold sample_frames in Hin.
    apply in_map_iff in Hin. destruct Hin as (n & Hf & _). subst f.
    destruct (Byte.of_N (N.of_nat n)); discriminate.
Defined.

(** C10. A binary audio message received while the handler has no session,
    or a session that is not ACTIVE, changes nothing: the handler (its
    session with both queues and every counter) is returned as it was and
    nothing is sent to the client. *)
Theorem handle_audio_inactive_noop (h : ConnectionHandler) (data : bytes) :
  (session h = None \/ exists s, session h = Some s /\ state s <> ACTIVE) ->
  _handle_audio h data = (h, []).
Proof.
  intros [Hnone | (s & Hs & Hst)]; unfold _handle_audio.
  - now rewrite Hnone.
  - rewrite Hs. destruct (state s); try reflexivity. congruence.
Qed.

Lemma handle_audio_inactive_noop_witness :
  _handle_audio (mkHandler (Some (new_session (u "s1") MEETING_ASSISTANT)))
                [x00; x01; x02]
  = (mkHandler (Some (new_session (u "s1") MEETING_ASSISTANT)), []).
Proof.
  apply handle_audio_inactive_noop. right.
  exists (new_session (u "s1") MEETING_ASSISTANT).
  split; [reflexivity | discriminate].
Defined.

End IngressProps.

(** ** Transcript aggregation *)

Module AggregatorProps.
Import ListUtil PyStr Events Aggregator.

Lemma elem_of_deque_append d x y :
  y ∈ deque_append d x -> y ∈ d \/ y = x.
Proof.
  unfold deque_append. destruct (Nat.leb history_maxlen (length d)); intros H.
  - apply elem_of_app in H as [H | H].
    + left. eapply subseteq_drop. exact H.
    + right. now apply list_elem_of_singleton in H.
  - apply elem_of_app in H as [H | H]; [now left |].
    right. now apply list_elem_of_singleton in H.
Qed.

Lemma Inv_init : Inv init.
Proof.
  split; simpl.
  - intros sid a H. now rewrite lookup_empty in H.
  - intros sid1 sid2 a H. now rewrite lookup_empty in H.
  - intros a H. now apply elem_of_nil in H.
Qed.

Lemma Inv_add_delta ag e now : Inv ag -> Inv (add_delta ag e now).
Proof.
  intros [Ho Hi Hh]. unfold add_delta.
  destruct (current_segments ag !! delta_segment_id e) as [a |] eqn:Hcur.
  - destruct (Ho _ _ Hcur) as [Hlt Hnin].
    destruct (lookup_lt_is_Some_2 (objects ag) a Hlt) as [seg Hseg].
    rewrite Hseg. split; simpl.
    + intros sid b Hb. rewrite length_insert. now apply Ho in Hb.
    + exact Hi.
    + intros b Hb. rewrite length_insert. now apply Hh.
  - rewrite lookup_app_r by lia. rewrite Nat.sub_diag. simpl.
    split; simpl.
    + intros sid b Hb. rewrite length_insert, length_app. simpl.
      destruct (decide (sid = delta_segment_id e)) as [-> | Hne].
      * rewrite lookup_insert_eq in Hb. injection Hb as <-.
        split; [lia |]. intros Hin. apply Hh in Hin. lia.
      * rewrite lookup_insert_ne in Hb by congruence.
        apply Ho in Hb as [? ?]. split; [lia | assumption].
    + intros sid1 sid2 b H1 H2.
      destruct (decide (sid1 = delta_segment_id e)) as [E1 | N1];
        destruct (decide (sid2 = delta_segment_id e)) as [E2 | N2];
        subst; try reflexivity.
      * rewrite lookup_insert_eq in H1. injection H1 as <-.
        rewrite lookup_insert_ne in H2 by congruence.
        apply Ho in H2 as [? _]. lia.
      * rewrite lookup_insert_eq in H2. injection H2 as <-.
        rewrite lookup_insert_ne in H1 by congruence.
        apply Ho in H1 as [? _]. lia.
      * rewrite lookup_insert_ne in H1, H2 by congruence. eauto.
    + intros b Hb. rewrite length_insert, length_app. simpl.
      apply Hh in Hb. lia.
Qed.

Lemma Inv_complete_segment ag e : Inv ag -> Inv (fst (complete_segment ag e)).
Proof.
  intros [Ho Hi Hh]. unfold complete_segment.
  destruct (current_segments ag !! completed_segment_id e) as [a |] eqn:Hcur.
  - destruct (Ho _ _ Hcur) as [Hlt Hnin].
    destruct (lookup_lt_is_Some_2 (objects ag) a Hlt) as [seg Hseg].
    rewrite Hseg.
    destruct (decide (pending_segment_id ag = Some (completed_segment_id e)));
      split; simpl; try rewrite length_insert.
    all: try (intros sid b Hb;
              destruct (decide (sid = completed_segment_id e)) as [-> | Hne];
              [ now rewrite lookup_delete_eq in Hb
              | rewrite lookup_delete_ne in Hb by congruence;
                destruct (Ho _ _ Hb) as [? ?]; split; [assumption |];
                intros Hin; apply elem_of_deque_append in Hin as [? | ->];
                [ contradiction | apply Hne; eauto ] ]).
    all: try (intros sid1 sid2 b H1 H2;
              apply lookup_delete_Some in H1 as [_ H1];
              apply lookup_delete_Some in H2 as [_ H2]; eauto).
    all: intros b Hb; apply elem_of_deque_append in Hb as [? | ->]; eauto.
  - destruct (decide (pending_segment_id ag = Some (completed_segment_id e)));
      split; simpl; try rewrite length_app; simpl.
    all: try (intros sid b Hb; destruct (Ho _ _ Hb) as [? ?];
              split; [lia |]; intros Hin;
              apply elem_of_deque_append in Hin as [? | ->];
              [ contradiction | lia ]).
    all: try exact Hi.
    all: intros b Hb; apply elem_of_deque_append in Hb as [Hb | ->];
      [ apply Hh in Hb |]; lia.
Qed.

Lemma Inv_clear_pending ag : Inv ag -> Inv (clear_pending ag).
Proof. intros [Ho Hi Hh]. split; simpl; assumption. Qed.

Lemma reachable_Inv ag : reachable ag -> Inv ag.
Proof.
  induction 1; auto using Inv_init, Inv_add_delta, Inv_complete_segment,
                 Inv_clear_pending.
Qed.

Lemma run_reachable calls : reachable (run calls).
Proof.
  unfold run. generalize reach_init. generalize init.
  induction calls as [| c cs IH]; intros ag Hag; simpl; [assumption |].
  apply IH. destruct c; simpl; now constructor.
Qed.

(** Reading the history through a store that agrees on its entries. *)
Lemma omap_lookup_ext (objs objs' : list TranscriptSegment) (h : list nat) :
  (forall a, a ∈ h -> objs' !! a = objs !! a) ->
  omap (fun a => objs' !! a) h = omap (fun a => objs !! a) h.
Proof.
  induction h as [| a h IH]; intros Hext; [reflexivity |].
  assert (IH' : omap (fun a => objs' !! a) h = omap (fun a => objs !! a) h).
  { apply IH. intros b Hb. apply Hext. now apply list_elem_of_further. }
  change (match objs' !! a with
          | Some y => y :: omap (fun a => objs' !! a) h
          | None => omap (fun a => objs' !! a) h
          end
          = match objs !! a with
            | Some y => y :: omap (fun a => objs !! a) h
            | None => omap (fun a => objs !! a) h
            end).
  rewrite (Hext a) by apply list_elem_of_here. now rewrite IH'.
Qed.

Lemma add_delta_effect ag e now :
  Inv ag ->
  history_view (add_delta ag e now) = history_view ag
  /\ pending_segment_id (add_delta ag e now) = Some (delta_segment_id e)
  /\ pending_text (add_delta ag e now)
     = open_text ag (delta_segment_id e) ++ delta_text e
  /\ (current_segments ag !! delta_segment_id e = None ->
      pending_speaker (add_delta ag e now) = Some (delta_speaker e)).
Proof.
  intros [Ho Hi Hh]. unfold add_delta, open_text, history_view.
  destruct (current_segments ag !! delta_segment_id e) as [a |] eqn:Hcur.
  - destruct (Ho _ _ Hcur) as [Hlt Hnin].
    destruct (lookup_lt_is_Some_2 (objects ag) a Hlt) as [seg Hseg].
    rewrite Hseg. simpl. repeat split; try discriminate.
    apply omap_lookup_ext. intros b Hb.
    apply list_lookup_insert_ne. intros ->. contradiction.
  - rewrite lookup_app_r by lia. rewrite Nat.sub_diag. simpl.
    repeat split.
    apply omap_lookup_ext. intros b Hb. apply Hh in Hb.
    rewrite list_lookup_insert_ne by lia. now apply lookup_app_l.
Qed.




Lemma total_len_app (a b : list str) :
  total_len (a ++ b) = total_len a + total_len b.
Proof. induction a as [| x a IH]; simpl; [reflexivity | rewrite IH; lia]. Qed.

Lemma total_len_rev (a : list str) : total_len (rev a) = total_len a.
Proof.
  induction a as [| x a IH]; simpl; [reflexivity |].
  rewrite total_len_app, IH. simpl. lia.
Qed.

Lemma len_app (a b : str) : len (a ++ b) = len a + len b.
Proof. unfold len. rewrite length_app. lia. Qed.

(** Joining with a one-character separator adds one character between
    every two parts. *)
Lemma len_join (c : char) (parts : list str) :
  len (join [c] parts)
  = total_len parts + Z.max 0 (Z.of_nat (length parts) - 1).
Proof.
  induction parts as [| p ps IH]; [reflexivity |].
  destruct ps as [| q ps].
  - simpl. lia.
  - change (join [c] (p :: q :: ps)) with (p ++ [c] ++ join [c] (q :: ps)).
    rewrite !len_app, IH. simpl total_len. simpl length.
    change (len [c]) with 1. lia.
Qed.

(** The loop keeps the longest run of newest segments whose rendered lines
    fit the budget together, and stops at the first that does not fit. *)
Lemma global_context_loop_spec max_chars newest_first :
  forall texts total_chars,
  total_chars <= max_chars ->
  exists k,
    (k <= length newest_first)%nat
    /\ global_context_loop max_chars newest_first texts total_chars
       = texts ++ List.map render (firstn k newest_first)
    /\ total_chars + total_len (List.map render (firstn k newest_first))
       <= max_chars
    /\ (k = length newest_first
        \/ exists seg, nth_error newest_first k = Some seg
             /\ max_chars
                < total_chars
                  + total_len (List.map render (firstn k newest_first))
                  + len (render seg)).
Proof.
  induction newest_first as [| seg rest IH]; intros texts total Hle.
  - exists 0%nat. simpl. rewrite app_nil_r.
    repeat split; lia.
  - simpl global_context_loop.
    destruct (Z.ltb_spec max_chars (total + len (render seg))) as [Hover | Hfit].
    + exists 0%nat. simpl. rewrite app_nil_r.
      repeat split; try lia. right. exists seg. split; [reflexivity | lia].
    + destruct (IH (texts ++ [render seg]) (total + len (render seg)) Hfit)
        as (k & Hk & Hloop & Hsum & Hmax).
      exists (S k). simpl length. simpl firstn. simpl List.map.
      simpl total_len. simpl nth_error.
      rewrite Hloop, <- app_assoc. simpl.
      repeat split; try lia.
      destruct Hmax as [-> | (seg' & Hnth & Hover)]; [now left |].
      right. exists seg'. split; [assumption | lia].
Qed.

(** C9 (amended). [get_global_context] renders the newest [k] history
    entries as [ME]/[THEM] lines in chronological order, where [k] is the
    largest count for which the lines, newest first, add up to at most 500
    characters; the limit is on the lines alone, so the returned string
    has one more character for every line after the first. *)
Theorem global_context_budget (ag : TextAggregator) :
  exists k,
    let lines := List.map render (lastn k (history_view ag)) in
    (k <= length (history_view ag))%nat
    /\ get_global_context ag 500 = join [NL] lines
    /\ total_len lines <= 500
    /\ (k = length (history_view ag)
        \/ exists seg, nth_error (rev (history_view ag)) k = Some seg
             /\ 500 < total_len lines + len (render seg))
    /\ len (get_global_context ag 500)
       = total_len lines + Z.max 0 (Z.of_nat k - 1).
Proof.
  unfold get_global_context, global_context_of.
  set (h := history_view ag).
  destruct (global_context_loop_spec 500 (rev h) [] 0) as
    (k & Hk & Hloop & Hsum & Hmax); [lia |].
  rewrite length_rev in Hk, Hmax.
  assert (Hlines : rev (List.map render (firstn k (rev h)))
                   = List.map render (lastn k h)).
  { rewrite <- map_rev, firstn_rev, rev_involutive. reflexivity. }
  assert (Htot : total_len (List.map render (firstn k (rev h)))
                 = total_len (List.map render (lastn k h))).
  { rewrite <- Hlines. symmetry. apply total_len_rev. }
  exists k. cbv zeta. rewrite Hloop. simpl app. rewrite Hlines.
  rewrite Htot in Hsum, Hmax.
  repeat split.
  - exact Hk.
  - lia.
  - destruct Hmax as [-> | (seg & Hnth & Hover)]; [now left |].
    right. exists seg. split; [assumption | lia].
  - rewrite len_join. rewrite length_map. unfold lastn.
    rewrite length_skipn. lia.
Qed.

(** C9 as stated fails: two history entries whose lines have 250
    characters each fit the limit, and the returned string has 501. *)
Lemma global_context_exceeds_500 :
  ~ (len (get_global_context (run long_calls) 500) <= 500).
Proof.
  assert (E : len (get_global_context (run long_calls) 500) = 501)
    by (vm_compute; reflexivity).
  rewrite E. lia.
Qed.

End AggregatorProps.

(** ** Dispatch by mode *)

Module OrchestratorProps.
Import PyStr SessionModel Events Aggregator Orchestrator.

(** A dispatch outside the window publishes the chunk and restarts the
    window; one inside it publishes nothing and changes nothing. *)
Lemma process_meeting_outside o chunk now :
  chunk_speaker chunk = THEM ->
  inside_window (_last_hint_time o) now = false ->
  _process_meeting o chunk now
    = (set_last_hint_time o now, [TEXT_CHUNK_READY chunk]).
Proof.
  intros Hsp Hout. unfold _process_meeting. rewrite Hsp. simpl negb.
  cbv iota zeta. fold (inside_window (_last_hint_time o) now).
  now rewrite Hout.
Qed.

Lemma process_meeting_inside o chunk now :
  inside_window (_last_hint_time o) now = true ->
  _process_meeting o chunk now = (o, []).
Proof.
  intros Hin. unfold _process_meeting.
  destruct (negb (Speaker_eqb (chunk_speaker chunk) THEM)); [reflexivity |].
  cbv zeta. fold (inside_window (_last_hint_time o) now). now rewrite Hin.
Qed.

Lemma process_meeting_cases o chunk now :
  _process_meeting o chunk now = (o, [])
  \/ inside_window (_last_hint_time o) now = false
     /\ _process_meeting o chunk now
        = (set_last_hint_time o now, [TEXT_CHUNK_READY chunk]).
Proof.
  unfold _process_meeting.
  destruct (negb (Speaker_eqb (chunk_speaker chunk) THEM)); [now left |].
  cbv zeta. fold (inside_window (_last_hint_time o) now).
  destruct (inside_window (_last_hint_time o) now); [now left |].
  right. now split.
Qed.

(** C5 (amended). In MeetingAssistant mode with hints enabled, when two
    chunks spoken by Them are processed at clocks [t1] and [t2] and the
    elapsed time that the code computes in binary64, (t2 - t1) * 1000, is
    below 2000, at most one TextChunkReady is published for the two.  It
    is published for the first chunk exactly when the first is itself
    outside the window of the dispatch before it (as on a fresh
    orchestrator with an epoch clock): then the second is dropped and
    leaves no trace in the orchestrator, so nothing is queued for later.
    When the first is inside that earlier window it is dropped too, and
    the second is published only if it is outside the earlier window. *)
Theorem meeting_rate_limit (sess1 sess2 : Session) (o : Orchestrator)
    (c1 c2 : TextChunk) (t1 t2 : Q) :
  mode sess1 = MEETING_ASSISTANT -> hints_enabled sess1 = true ->
  mode sess2 = MEETING_ASSISTANT -> hints_enabled sess2 = true ->
  chunk_speaker c1 = THEM -> chunk_speaker c2 = THEM ->
  inside_window t1 t2 = true ->
  let '(o1, published1) := _process_chunk sess1 o c1 t1 in
  let '(o2, published2) := _process_chunk sess2 o1 c2 t2 in
  (length (published1 ++ published2) <= 1)%nat
  /\ (inside_window (_last_hint_time o) t1 = false ->
      published1 ++ published2 = [TEXT_CHUNK_READY c1]
      /\ published2 = []
      /\ o2 = o1)
  /\ (inside_window (_last_hint_time o) t1 = true ->
      published1 = [] /\ o1 = o
      /\ (published2 = [] /\ o2 = o
          \/ published2 = [TEXT_CHUNK_READY c2]
             /\ inside_window (_last_hint_time o) t2 = false)).
Proof.
  intros Hm1 He1 Hm2 He2 Hs1 Hs2 Hin.
  unfold _process_chunk. rewrite Hm1, He1, Hm2, He2. simpl negb. cbv iota.
  destruct (process_meeting_cases o c1 t1) as [E1 | [Hout E1]]; rewrite E1.
  - destruct (process_meeting_cases o c2 t2) as [E2 | [Hout2 E2]];
      rewrite E2.
    + split; [simpl; lia |]. split.
      * intros Hout.
        rewrite (process_meeting_outside o c1 t1 Hs1 Hout) in E1.
        discriminate E1.
      * intros _. repeat split. now left.
    + split; [simpl; lia |]. split.
      * intros Hout.
        rewrite (process_meeting_outside o c1 t1 Hs1 Hout) in E1.
        discriminate E1.
      * intros _. repeat split. right. now split.
  - rewrite (process_meeting_inside (set_last_hint_time o t1) c2 t2)
      by exact Hin.
    split; [simpl; lia |]. split.
    + intros _. repeat split.
    + intros Hin1. congruence.
Qed.

Lemma meeting_rate_limit_witness :
  let '(o1, published1) :=
    _process_chunk meeting_session new_orchestrator remark1 1700000000 in
  let '(o2, published2) :=
    _process_chunk meeting_session o1 remark2 (1700000000 + (1 # 2)) in
  published1 ++ published2 = [TEXT_CHUNK_READY remark1]
  /\ published2 = []
  /\ o2 = o1.
Proof.
  assert (Hout : inside_window (_last_hint_time new_orchestrator) 1700000000
                 = false) by (vm_compute; reflexivity).
  assert (Hin : inside_window 1700000000 (1700000000 + (1 # 2)) = true)
    by (vm_compute; reflexivity).
  generalize (meeting_rate_limit meeting_session meeting_session
                new_orchestrator remark1 remark2
                1700000000 (1700000000 + (1 # 2))
                eq_refl eq_refl eq_refl eq_refl eq_refl eq_refl Hin).
  destruct (_process_chunk meeting_session new_orchestrator remark1 1700000000)
    as [o1 published1].
  destruct (_process_chunk meeting_session o1 remark2 (1700000000 + (1 # 2)))
    as [o2 published2].
  intros (_ & H & _). exact (H Hout).
Defined.

(** C5 as stated fails.  Two chunks spoken by Them half a second apart,
    the first of them half a second after an earlier dispatch: both are
    inside the window of that dispatch and not one TextChunkReady is
    published. *)
Lemma meeting_both_dropped :
  let o := set_last_hint_time new_orchestrator 1700000000 in
  let t1 := (1700000000 + (1 # 2))%Q in
  let t2 := (1700000000 + 1)%Q in
  ((t2 - t1) * 1000 < 2000)%Q
  /\ let '(o1, published1) := _process_chunk meeting_session o remark1 t1 in
     let '(o2, published2) := _process_chunk meeting_session o1 remark2 t2 in
     published1 ++ published2 = [] /\ o2 = o.
Proof.
  split; [unfold Qlt; simpl; lia | vm_compute; split; reflexivity].
Qed.

(** The window is measured on the rounded product: at the binary64 clocks
    0.4846311489049012 and that plus 2 the two chunks are less than
    2000 ms apart, the code computes 2000.0 and publishes both. *)
Lemma meeting_window_is_rounded :
  let o := set_last_hint_time new_orchestrator (-3) in
  let t1 := Binary64.reading_0_48 in
  let t2 := Binary64.reading_2_48 in
  ((t2 - t1) * 1000 < 2000)%Q
  /\ Binary64.elapsed_ms t2 t1 = Binary64.of_int 2000
  /\ let '(o1, published1) := _process_chunk meeting_session o remark1 t1 in
     let '(o2, published2) := _process_chunk meeting_session o1 remark2 t2 in
     published1 ++ published2
     = [TEXT_CHUNK_READY remark1; TEXT_CHUNK_READY remark2].
Proof.
  split; [unfold Qlt; vm_compute; reflexivity |].
  split; vm_compute; reflexivity.
Qed.

End OrchestratorProps.

(** ** Session supervisor *)

Module SessionManagerProps.
Import PyStr SessionModel SessionManager.

(** What [create_session] does enforce: the session that was current is
    not ACTIVE afterwards, and the new session is CREATED. *)
Lemma create_session_stops_current m sid md a :
  current_session m = Some a ->
  state_of (fst (create_session m sid md)) a <> Some ACTIVE.
Proof.
  intros Hcur. unfold create_session. rewrite Hcur.
  unfold state_of, _stop_session. simpl.
  destruct (sessions m !! a) as [s |] eqn:Hs; simpl.
  - assert (Hlt : (a < length (sessions m))%nat)
      by (eapply lookup_lt_Some; exact Hs).
    destruct (state s) eqn:Est; simpl;
      rewrite ?Hs; simpl; rewrite ?Est; simpl;
      rewrite lookup_app_l by (rewrite ?length_insert; exact Hlt);
      rewrite ?list_lookup_insert_eq by exact Hlt;
      rewrite ?Hs; simpl; rewrite ?Est; discriminate.
  - rewrite lookup_app_r by (apply lookup_ge_None_1; exact Hs).
    apply lookup_ge_None_1 in Hs.
    destruct (a - length (sessions m))%nat; simpl; discriminate.
Qed.

(** C2 fails on the code: [create_session] stops the current session only
    when it is already ACTIVE, and [start_session] starts any CREATED
    session, current or not.  Two clients that connect and then both start
    leave two sessions ACTIVE. *)
Theorem two_sessions_active :
  count_active (run_ops two_clients) = 2%nat
  /\ state_of (run_ops two_clients) 0 = Some ACTIVE
  /\ state_of (run_ops two_clients) 1 = Some ACTIVE.
Proof. repeat split; vm_compute; reflexivity. Qed.

End SessionManagerProps.

(** ** Completion streamer *)

Module LLMProps.
Import PyStr PyStrProps SessionModel Events LLM.

Lemma startswith_head c r d p :
  startswith (c :: r) (d :: p) = true -> d = c.
Proof.
  simpl. intros H. apply andb_true_iff in H as [H _]. now apply N.eqb_eq.
Qed.

Lemma is_bullet_head b :
  is_bullet b = true -> b <> [] /\ head_ok b.
Proof.
  destruct b as [| c r]; [discriminate |].
  unfold is_bullet. change DASH with [45; 32]%N. change STAR with [42; 32]%N.
  unfold MARK2. intros H. split; [discriminate |].
  apply orb_true_iff in H as [H | H];
    [apply orb_true_iff in H as [H | H] |];
    apply startswith_head in H; subst c; reflexivity.
Qed.

Lemma is_bullet_app b y : is_bullet b = true -> is_bullet (b ++ y) = true.
Proof.
  unfold is_bullet. intros H.
  apply orb_true_iff in H as [H | H];
    [apply orb_true_iff in H as [H | H] |];
    apply (startswith_app _ _ y) in H; rewrite H;
    rewrite ?orb_true_r; reflexivity.
Qed.

Lemma split1_rest_In sep s :
  forall a rest tl, split1 sep s = a :: rest :: tl ->
  forall c, In c rest -> In c s.
Proof.
  induction s as [| d s IH]; intros a rest tl E c Hc; [discriminate |].
  simpl in E. destruct (N.eqb d sep).
  - injection E as _ <- _. now right.
  - destruct (split1 sep s) as [| f fs] eqn:Es; [discriminate |].
    injection E as _ ->. right. eapply IH; [reflexivity | exact Hc].
Qed.

Lemma good_bullet_line line :
  line <> [] -> is_bullet line = true -> ~ In NL line ->
  head_ok (rev line) -> good_bullet line.
Proof. intros _ H1 H2 H3. split; [| split]; auto. Qed.

Lemma append_to_last_good bs line :
  line <> [] -> ~ In NL line -> head_ok (rev line) ->
  Forall good_bullet bs -> Forall good_bullet (append_to_last bs line).
Proof.
  intros Hne Hnl Htail. induction bs as [| b bs IH]; intros Hall;
    [constructor |].
  inversion Hall as [| ? ? Hb Hbs]; subst.
  destruct bs as [| b' bs].
  - simpl. constructor; [| constructor].
    destruct Hb as (Hbul & Hbnl & _). split; [| split].
    + now apply is_bullet_app.
    + intros Hin. apply List.in_app_or in Hin as [Hin | Hin]; [auto |].
      destruct Hin as [Hin | Hin]; [discriminate | auto].
    + right. rewrite rev_app_distr. simpl rev. rewrite <- app_assoc.
      apply head_ok_app; [| exact Htail].
      intros E. apply Hne.
      rewrite <- (rev_involutive line), E. reflexivity.
  - change (append_to_last (b :: b' :: bs) line)
      with (b :: append_to_last (b' :: bs) line).
    constructor; [exact Hb | now apply IH].
Qed.

Section Format.
Variable isdigit : char -> bool.

Lemma bullet_step_good bs line0 :
  ~ In NL line0 -> Forall good_bullet bs ->
  Forall good_bullet (bullet_step isdigit bs line0).
Proof.
  intros Hnl Hall. unfold bullet_step.
  pose proof (strip_tail_ok line0) as Htail.
  assert (Hnl' : ~ In NL (strip line0)).
  { intros H. apply Hnl. now apply In_strip. }
  destruct (strip line0) as [| c0 r] eqn:Eline; [exact Hall |].
  destruct (is_bullet (c0 :: r)) eqn:Ebul.
  - apply Forall_app. split; [exact Hall |].
    constructor; [| constructor].
    apply good_bullet_line; [discriminate | assumption ..].
  - destruct (isdigit c0 && contains 46%N (firstn 3 (c0 :: r))).
    + destruct (split1 46%N (c0 :: r)) as [| a [| rest tl]] eqn:Es;
        try exact Hall.
      apply Forall_app. split; [exact Hall |].
      constructor; [| constructor].
      split; [| split].
      * unfold is_bullet. now rewrite startswith_prefix.
      * intros Hin. apply List.in_app_or in Hin as [Hin | Hin].
        -- unfold DASH in Hin. simpl in Hin.
           destruct Hin as [Hin | [Hin | []]]; discriminate.
        -- apply In_strip in Hin. apply Hnl'.
           eapply split1_rest_In; [exact Es | exact Hin].
      * destruct (strip rest) as [| d r'] eqn:Er.
        -- left. apply app_nil_r.
        -- right. rewrite rev_app_distr. apply head_ok_app.
           ++ intros E. apply (f_equal (@rev char)) in E.
              rewrite rev_involutive in E. discriminate.
           ++ rewrite <- Er. apply strip_tail_ok.
    + destruct bs as [| b bs']; [exact Hall |].
      apply append_to_last_good; try assumption. discriminate.
Qed.

Lemma fold_bullet_step_good lines : forall acc,
  Forall (fun l => ~ In NL l) lines -> Forall good_bullet acc ->
  Forall good_bullet (fold_left (bullet_step isdigit) lines acc).
Proof.
  induction lines as [| l ls IH]; intros acc Hl Hacc; [exact Hacc |].
  inversion Hl; subst. simpl. apply IH; [assumption |].
  now apply bullet_step_good.
Qed.

(** Lines that are already trimmed bullets pass through the loop as they
    are. *)
Lemma fold_bullet_step_bullets bs : forall acc,
  Forall (fun b => is_bullet b = true /\ head_ok (rev b)) bs ->
  fold_left (bullet_step isdigit) bs acc = acc ++ bs.
Proof.
  induction bs as [| b bs IH]; intros acc Hall; simpl.
  - now rewrite app_nil_r.
  - inversion Hall as [| ? ? [Hbul Htail] Hbs]; subst.
    destruct (is_bullet_head b Hbul) as [Hne Hhead].
    rewrite IH by assumption.
    unfold bullet_step. rewrite (strip_id b Hhead Htail).
    destruct b as [| c r]; [congruence |].
    rewrite Hbul, <- app_assoc. reflexivity.
Qed.

Lemma format_hint_bullets bs :
  (length bs <= MAX_HINT_POINTS)%nat ->
  Forall (fun b => is_bullet b = true /\ ~ In NL b /\ head_ok (rev b)) bs ->
  _format_hint isdigit (join [NL] bs) = join [NL] bs.
Proof.
  intros Hlen Hall. destruct bs as [| b bs]; [reflexivity |].
  unfold _format_hint.
  assert (Hstrip : strip (join [NL] (b :: bs)) = join [NL] (b :: bs)).
  { inversion Hall as [| ? ? (Hbul & _ & _) _]; subst.
    destruct (is_bullet_head b Hbul) as [Hne Hhead].
    apply strip_id.
    - now apply join_head_ok.
    - apply join_tail_ok. eapply List.Forall_impl; [| exact Hall].
      simpl. intros x (Hx & _ & Ht). split; [| exact Ht].
      now destruct (is_bullet_head x Hx). }
  rewrite Hstrip, split_join.
  - rewrite fold_bullet_step_bullets.
    + simpl app. now rewrite firstn_all2.
    + eapply List.Forall_impl; [| exact Hall]. simpl. tauto.
  - discriminate.
  - eapply List.Forall_impl; [| exact Hall]. simpl. tauto.
Qed.

(** C3 (amended). The formatted hint is the newline-join of at most 3
    bullets, each without a newline and each beginning with one of the
    markers the source keeps ("- ", its second literal, "* "), so not always
    with "- ".  Formatting the result again changes nothing whenever none
    of its bullets is the bare "- ". *)
Theorem format_hint_normalizes (t : str) :
  exists bullets,
    _format_hint isdigit t = join [NL] bullets
    /\ (length bullets <= 3)%nat
    /\ Forall (fun b => is_bullet b = true /\ ~ In NL b) bullets
    /\ (bullets <> [] -> split NL (_format_hint isdigit t) = bullets)
    /\ (~ In DASH bullets ->
        _format_hint isdigit (_format_hint isdigit t)
        = _format_hint isdigit t).
Proof.
  set (all := fold_left (bullet_step isdigit) (split NL (strip t)) []).
  assert (Hgood : Forall good_bullet (firstn MAX_HINT_POINTS all)).
  { apply Forall_take. apply fold_bullet_step_good; [| constructor].
    apply split_fields_no_sep. }
  exists (firstn MAX_HINT_POINTS all).
  change (_format_hint isdigit t) with (join [NL] (firstn MAX_HINT_POINTS all)).
  assert (Hlen : (length (firstn MAX_HINT_POINTS all) <= 3)%nat).
  { rewrite length_firstn. unfold MAX_HINT_POINTS. lia. }
  assert (Hnl : Forall (fun b => ~ In NL b) (firstn MAX_HINT_POINTS all)).
  { eapply List.Forall_impl; [| exact Hgood]. intros b (_ & H & _). exact H. }
  split; [reflexivity |]. split; [exact Hlen |]. split; [| split].
  - eapply List.Forall_impl; [| exact Hgood]. intros b (H1 & H2 & _). tauto.
  - intros Hne. now apply split_join.
  - intros Hnd. apply format_hint_bullets; [exact Hlen |].
    apply List.Forall_forall. intros b Hb.
    pose proof (proj1 (List.Forall_forall _ _) Hgood b Hb) as (H1 & H2 & H3).
    repeat split; try assumption.
    destruct H3 as [-> | H3]; [contradiction | exact H3].
Qed.

End Format.

(** C3 as stated fails: an empty numbered item followed by a starred line
    is formatted to "- " and "* x"; formatting that again drops the first
    line, and the line "* x" does not begin with "- ". *)
Lemma format_hint_not_idempotent :
  let f := _format_hint ascii_isdigit in
  f numbered_and_star = u "- " ++ [NL] ++ u "* x"
  /\ f (f numbered_and_star) = u "* x"
  /\ f (f numbered_and_star) <> f numbered_and_star
  /\ ~ Forall (fun line => startswith line DASH = true)
              (split NL (f numbered_and_star)).
Proof.
  repeat split; try (vm_compute; reflexivity).
  - vm_compute. discriminate.
  - vm_compute. intros H. inversion H as [| ? ? _ H']; subst.
    inversion H' as [| ? ? Hx _]; subst. discriminate Hx.
Qed.

(** C4 fails on the code.  For a response whose status is not 200 (its
    body read without an exception), [_generate_hint] returns from inside
    the [try]: no HintCompleted is published, as the specification says,
    but the [except] block that counts the error and publishes LlmError is
    not reached either.  So when no chunk is pending the call returns with
    the session's counters unchanged and nothing at all published; and
    when a chunk has arrived meanwhile the call goes on as the handling of
    that chunk, from the unchanged session and with nothing published for
    the failed request. *)
Theorem non_200_response_not_reported
    (isdigit : char -> bool) (parse_token : str -> option str)
    (sess : Session) (svc : LLMService) (chunk : TextChunk) (hint_id : str)
    (status_code : Z) (items : list StreamItem)
    (later : list (str * Upstream)) :
  status_code <> 200 ->
  exists svc',
    (_pending_chunk svc' = None
     /\ _generate_hint isdigit parse_token sess svc chunk
          ((hint_id, Response status_code items None) :: later)
        = Some (sess, svc', []))
    \/ (exists next,
          _pending_chunk svc' = Some next
          /\ _generate_hint isdigit parse_token sess svc chunk
               ((hint_id, Response status_code items None) :: later)
             = _generate_hint isdigit parse_token sess
                 (mkService (_running svc') false (_cancel_event svc')
                            None None)
                 next later).
Proof.
  intros Hstatus. cbn [_generate_hint generate_body].
  destruct (Z.eqb_spec status_code 200) as [E | _]; [contradiction |].
  cbn [negb]. cbv beta iota zeta.
  set (svc1 := late_arrivals sess items (read_body sess items _)).
  exists (mkService (_running svc1) false (_cancel_event svc1) None
                    (_pending_chunk svc1)).
  cbn [_pending_chunk _running _cancel_event].
  destruct (_pending_chunk svc1) as [next |].
  - right. exists next. split; [reflexivity |].
    destruct (_generate_hint isdigit parse_token sess _ next later)
      as [[[sess4 svc4] evs4] |]; reflexivity.
  - left. split; reflexivity.
Qed.

Lemma non_200_response_not_reported_witness :
  (exists svc',
     (_pending_chunk svc' = None
      /\ _generate_hint ascii_isdigit no_token interview_session new_service
           question unavailable
         = Some (interview_session, svc', []))
     \/ (exists next,
           _pending_chunk svc' = Some next
           /\ _generate_hint ascii_isdigit no_token interview_session
                new_service question unavailable
              = _generate_hint ascii_isdigit no_token interview_session
                  (mkService (_running svc') false (_cancel_event svc')
                             None None)
                  next []))
  /\ _generate_hint ascii_isdigit no_token interview_session new_service
       question unavailable
     = Some (interview_session, new_service, []).
Proof.
  split; [| reflexivity].
  apply (non_200_response_not_reported ascii_isdigit no_token
           interview_session new_service question (u "hint-1") 503 [] []).
  discriminate.
Defined.

(** The sibling path: when the request raises, the error is counted and
    published. *)
Lemma raised_error_is_reported
    (isdigit : char -> bool) (parse_token : str -> option str)
    (sess : Session) (svc : LLMService) (chunk : TextChunk) (hint_id e : str) :
  _pending_chunk svc = None ->
  _generate_hint isdigit parse_token sess svc chunk [(hint_id, Raises [] e)]
  = Some (incr_llm_errors sess,
          mkService (_running svc) false false None None, [LLM_ERROR e]).
Proof. intros Hpending. simpl. now rewrite Hpending. Qed.

End LLMProps.

(** ** Retrieval *)

Module KnowledgeProps.
Import PyStr Knowledge.

(** Once the budget is overdrawn every further chunk takes the [break]. *)
Lemma context_loop_overdrawn max_chars cs parts total :
  max_chars < total -> context_loop max_chars cs parts total = parts.
Proof.
  intros Hover. destruct cs as [| c cs]; [reflexivity |]. simpl.
  assert (Hlen : 0 <= len (scored_text c)) by (unfold len; lia).
  destruct (Z.ltb_spec max_chars (total + len (scored_text c))); [| lia].
  destruct (Z.ltb_spec 100 (max_chars - total)); [lia | reflexivity].
Qed.

Lemma len_truncated (text : str) remaining :
  0 <= remaining < len text ->
  len (slice_to text remaining ++ u "...") = remaining + 3.
Proof.
  intros [H0 Hlt]. unfold slice_to.
  destruct (Z.ltb_spec remaining 0); [lia |].
  unfold len in *. rewrite length_app, length_firstn. simpl length. lia.
Qed.

Lemma slice_to_nonneg (text : str) remaining :
  0 <= remaining -> slice_to text remaining = firstn (Z.to_nat remaining) text.
Proof.
  intros H. unfold slice_to. destruct (Z.ltb_spec remaining 0); [lia |].
  reflexivity.
Qed.

(** The closed form of the loop: the chunks that fit whole, then at most
    one truncated chunk, then nothing. *)
Lemma context_loop_closed max_chars cs : forall parts total,
  total <= max_chars ->
  exists k,
    (k <= length cs)%nat
    /\ total + total_len (List.map scored_text (firstn k cs)) <= max_chars
    /\ let remaining :=
         max_chars - (total + total_len (List.map scored_text (firstn k cs))) in
       match nth_error cs k with
       | None =>
           context_loop max_chars cs parts total
           = parts ++ whole_parts (firstn k cs)
       | Some c =>
           remaining < len (scored_text c)
           /\ context_loop max_chars cs parts total
              = parts ++ whole_parts (firstn k cs)
                ++ (if 100 <? remaining then [truncated_part c remaining]
                    else [])
       end.
Proof.
  induction cs as [| c cs IH]; intros parts total Hle.
  - exists 0%nat. simpl. rewrite app_nil_r. repeat split; lia.
  - simpl context_loop.
    destruct (Z.ltb_spec max_chars (total + len (scored_text c)))
      as [Hover | Hfit].
    + exists 0%nat. simpl.
      replace (max_chars - (total + 0)) with (max_chars - total) by lia.
      split; [lia |]. split; [lia |]. split; [lia |].
      destruct (Z.ltb_spec 100 (max_chars - total)) as [Hbig | Hsmall].
      * rewrite context_loop_overdrawn.
        -- unfold truncated_part. now rewrite slice_to_nonneg by lia.
        -- rewrite len_truncated by lia. lia.
      * now rewrite app_nil_r.
    + destruct (IH (parts ++ [context_part c (scored_text c)])
                   (total + len (scored_text c)) Hfit)
        as (k & Hk & Hsum & Hshape).
      exists (S k). simpl length. simpl firstn. simpl List.map.
      simpl total_len. simpl nth_error.
      replace (total + (len (scored_text c)
                        + total_len (List.map scored_text (firstn k cs))))
        with (total + len (scored_text c)
              + total_len (List.map scored_text (firstn k cs))) by lia.
      split; [lia |]. split; [exact Hsum |].
      cbv zeta in Hshape |- *.
      destruct (nth_error cs k) as [c' |].
      * destruct Hshape as [Hrem Hloop]. split; [exact Hrem |].
        rewrite Hloop, <- app_assoc. reflexivity.
      * rewrite Hshape, <- app_assoc. reflexivity.
Qed.

Section Retrieve.
Variable extract_keywords : str -> Z -> list str.

Lemma score_file_no_keywords fi : score_file ∅ fi = [].
Proof.
  unfold score_file. induction (chunks fi) as [| c cs IH]; [reflexivity |].
  simpl. rewrite IH.
  assert (E : (∅ : gset str) ∩ chunk_keywords c = ∅)
    by apply intersection_empty_l_L.
  now rewrite E.
Qed.

Lemma retrieve_is_loop indices query top_k :
  retrieve extract_keywords indices query top_k
  = join [NL; NL]
         (context_loop 8000
            (top_chunks_of extract_keywords indices query top_k) [] 0).
Proof.
  unfold retrieve. destruct indices as [| fi rest].
  { unfold top_chunks_of, slice_to. simpl.
    now destruct (top_k <? 0); rewrite firstn_nil. }
  destruct (decide (list_to_set (extract_keywords query 10) = (∅ : gset str)))
    as [E | _].
  - unfold top_chunks_of. rewrite E.
    assert (H : flat_map (score_file ∅) (fi :: rest) = []).
    { induction (fi :: rest) as [| f fs IH]; [reflexivity |].
      simpl. now rewrite score_file_no_keywords, IH. }
    rewrite H. unfold slice_to. simpl.
    now destruct (top_k <? 0); rewrite firstn_nil.
  - destruct (top_chunks_of extract_keywords (fi :: rest) query top_k);
      reflexivity.
Qed.

(** C7 (amended). [retrieve] concatenates the selected top chunks under a
    budget of MAX_CONTEXT_TOKENS * 4 = 8000 characters of chunk text: the
    chunks are taken whole as long as they fit; the first chunk that would
    exceed the remaining budget is cut to the remaining budget and given a
    trailing "..." when more than 100 characters of budget remain, and is
    dropped otherwise; in both cases no further chunk is added. *)
Theorem retrieve_budget (indices : list FileIndex) (query : str) (top_k : Z) :
  let cs := top_chunks_of extract_keywords indices query top_k in
  exists k,
    let fit := firstn k cs in
    let remaining := 8000 - total_len (List.map scored_text fit) in
    (k <= length cs)%nat
    /\ 0 <= remaining
    /\ match nth_error cs k with
       | None =>
           retrieve extract_keywords indices query top_k
           = join [NL; NL] (whole_parts fit)
       | Some c =>
           remaining < len (scored_text c)
           /\ retrieve extract_keywords indices query top_k
              = join [NL; NL]
                  (whole_parts fit
                   ++ (if 100 <? remaining then [truncated_part c remaining]
                       else []))
       end.
Proof.
  intros cs. rewrite retrieve_is_loop. fold cs.
  destruct (context_loop_closed 8000 cs [] 0) as (k & Hk & Hsum & Hshape);
    [lia |].
  exists k. cbv zeta in Hshape |- *.
  rewrite Z.add_0_l in Hsum, Hshape.
  split; [exact Hk |]. split; [lia |].
  destruct (nth_error cs k) as [c |].
  - destruct Hshape as [Hrem Hloop]. split; [exact Hrem |].
    now rewrite Hloop.
  - now rewrite Hshape.
Qed.

End Retrieve.

(** C7 as stated fails when exactly 100 characters of budget remain: after
    a chunk of 7900 characters, a chunk of 200 is dropped, where the claim
    has it cut to 100 characters and "...". *)
Lemma retrieve_drops_at_100 :
  List.map (fun c => len (scored_text c))
           (top_chunks_of one_word notes (u "budget") 3) = [7900; 200]
  /\ retrieve one_word notes (u "budget") 3
     = u "[From notes.md]" ++ [NL] ++ chunk_text big_chunk
  /\ retrieve_spec one_word notes (u "budget") 3
     = u "[From notes.md]" ++ [NL] ++ chunk_text big_chunk ++ [NL; NL]
       ++ u "[From notes.md]" ++ [NL]
       ++ firstn 100 (chunk_text small_chunk) ++ u "..."
  /\ retrieve one_word notes (u "budget") 3
     <> retrieve_spec one_word notes (u "budget") 3.
Proof.
  repeat split; try (vm_compute; reflexivity).
  intros E. apply (f_equal (@length char)) in E. vm_compute in E.
  discriminate E.
Qed.

End KnowledgeProps.

(** ** Audio level *)

Module AudioProps.
Import SessionModel Audio.

Lemma frombuffer_even n : forall buf,
  length buf = (2 * n)%nat ->
  exists samples,
    frombuffer_int16 buf = Some samples
    /\ (Forall (fun b => b = x00) buf -> Forall (fun x => x = 0) samples).
Proof.
  induction n as [| n IH]; intros buf Hlen.
  - destruct buf; [| discriminate]. exists []. split; [reflexivity |].
    intros _. constructor.
  - destruct buf as [| lo [| hi rest]]; try (simpl in Hlen; lia).
    destruct (IH rest) as (samples & Hs & Hz); [simpl in Hlen; lia |].
    exists (int16_le lo hi :: samples). split.
    + simpl. now rewrite Hs.
    + intros Hall. inversion Hall as [| ? ? -> Hall']; subst.
      inversion Hall' as [| ? ? -> Hrest]; subst.
      constructor; [reflexivity | now apply Hz].
Qed.

Lemma frombuffer_odd n : forall buf,
  length buf = S (2 * n) -> frombuffer_int16 buf = None.
Proof.
  induction n as [| n IH]; intros buf Hlen.
  - destruct buf as [| b [| ? ?]]; try discriminate. reflexivity.
  - destruct buf as [| lo [| hi rest]]; try (simpl in Hlen; lia).
    simpl. rewrite IH; [reflexivity | simpl in Hlen; lia].
Qed.

Lemma mean_of_zeros samples :
  Forall (fun x => x = 0) samples ->
  mean (List.map (fun x => (IZR x * IZR x)%R) samples) = 0%R.
Proof.
  intros Hz. unfold mean.
  assert (E : fold_right Rplus 0%R
                (List.map (fun x => (IZR x * IZR x)%R) samples) = 0%R).
  { induction Hz as [| x l -> _ IH]; [reflexivity |].
    simpl. rewrite IH. lra. }
  rewrite E. unfold Rdiv. apply Rmult_0_l.
Qed.

(** C8 (amended). On every byte string of even length (whole 16-bit
    samples) [calculate_level] returns a value in [-60, 0], and it returns
    exactly -60 when all the bytes are zero, the empty string included.
    On every byte string of odd length it raises ([np.frombuffer] rejects
    the buffer). *)
Theorem calculate_level_bounded (pcm_bytes : bytes) :
  (Nat.even (length pcm_bytes) = true ->
   exists level,
     calculate_level pcm_bytes = Some level
     /\ (-60 <= level <= 0)%R
     /\ (Forall (fun b => b = x00) pcm_bytes -> level = (-60)%R))
  /\ (Nat.odd (length pcm_bytes) = true -> calculate_level pcm_bytes = None).
Proof.
  split.
  - intros Heven. apply Nat.even_spec in Heven as [n Hn].
    destruct (frombuffer_even n pcm_bytes Hn) as (samples & Hs & Hz).
    unfold calculate_level. rewrite Hs.
    destruct (Nat.eqb (length pcm_bytes) 0).
    { exists (-60)%R. repeat split; lra. }
    set (rms := sqrt (mean (List.map (fun x => (IZR x * IZR x)%R) samples))).
    destruct (Rlt_dec rms (1 / 1000000)) as [Hquiet | Hloud].
    { exists (-60)%R. repeat split; lra. }
    exists (Rmax (-60) (Rmin 0 (20 * log10 (rms / 32768)))).
    split; [reflexivity |]. split.
    + split; [apply Rmax_l |].
      apply Rmax_lub; [lra | apply Rmin_l].
    + intros Hall. exfalso. apply Hloud. unfold rms.
      rewrite (mean_of_zeros samples (Hz Hall)), sqrt_0. lra.
  - intros Hodd. apply Nat.odd_spec in Hodd as [n Hn].
    unfold calculate_level.
    replace (Nat.eqb (length pcm_bytes) 0) with false
      by (symmetry; apply Nat.eqb_neq; lia).
    rewrite (frombuffer_odd n pcm_bytes); [reflexivity | lia].
Qed.

Lemma calculate_level_bounded_witness :
  (exists level,
     calculate_level full_scale = Some level
     /\ (-60 <= level <= 0)%R
     /\ (Forall (fun b => b = x00) full_scale -> level = (-60)%R))
  /\ calculate_level (x01 :: full_scale) = None.
Proof.
  split.
  - apply (calculate_level_bounded full_scale). reflexivity.
  - apply (calculate_level_bounded (x01 :: full_scale)). reflexivity.
Defined.

(** C8 as stated fails: [calculate_level] is not total.  On one zero byte
    [np.frombuffer] raises, so no level is returned. *)
Lemma calculate_level_odd_raises :
  Forall (fun b => b = x00) [x00]
  /\ ~ (exists level, calculate_level [x00] = Some level).
Proof.
  split; [repeat constructor |].
  intros [level H]. unfold calculate_level in H. simpl in H. discriminate H.
Qed.

(** tests/test_audio.py, [test_silence_level] and [test_empty_buffer]:
    silence is at the floor. *)
Lemma level_of_silence (n : nat) :
  calculate_level (repeat x00 (2 * n)) = Some (-60)%R.
Proof.
  destruct (frombuffer_even n (repeat x00 (2 * n))) as (samples & Hs & Hz);
    [apply repeat_length |].
  unfold calculate_level. rewrite Hs.
  destruct (Nat.eqb (length (repeat x00 (2 * n))) 0); [reflexivity |].
  destruct (Rlt_dec _ _) as [_ | Hloud]; [reflexivity |].
  exfalso. apply Hloud.
  rewrite (mean_of_zeros samples), sqrt_0; [lra |].
  apply Hz. apply Forall_forall. intros b Hb.
  apply list_elem_of_In in Hb. now apply repeat_spec in Hb.
Qed.

Example test_silence_level :
  calculate_level (repeat x00 640) = Some (-60)%R.
Proof. exact (level_of_silence 320). Qed.

Example test_empty_buffer : calculate_level [] = Some (-60)%R.
Proof. exact (level_of_silence 0). Qed.

End AudioProps.

(** ** The repository's unit tests, on the embedding *)

Module RepoTests.
Import PyStr Events Aggregator.

(** tests/test_orchestrator.py, [test_add_delta] *)
Example test_add_delta :
  let ag1 := add_delta init (mkDelta THEM (u "Hello, ") (u "seg1") 1) 10 in
  let ag2 := add_delta ag1 (mkDelta THEM (u "how are you?") (u "seg1") (3 # 2))
                       11 in
  pending_text ag1 = u "Hello, "
  /\ pending_speaker ag1 = Some THEM
  /\ pending_text ag2 = u "Hello, how are you?".
Proof. repeat split; vm_compute; reflexivity. Qed.

(** [test_complete_segment] *)
Example test_complete_segment :
  let ag1 := add_delta init (mkDelta THEM (u "Hello") (u "seg1") 1) 10 in
  let '(ag2, segment) :=
    complete_segment ag1 (mkCompleted THEM (u "Hello, how are you?")
                                      (u "seg1") 2) in
  (text <$> segment) = Some (u "Hello, how are you?")
  /\ (is_complete <$> segment) = Some true
  /\ length (history ag2) = 1%nat.
Proof. repeat split; vm_compute; reflexivity. Qed.

(** [test_get_last_context] *)
Example test_get_last_context :
  let ag := run [ Completed (mkCompleted THEM (u "First message") (u "seg0") 0);
                  Completed (mkCompleted THEM (u "Second message") (u "seg1") 1);
                  Completed (mkCompleted THEM (u "Third message") (u "seg2") 2) ] in
  get_last_context ag THEM 2 = u "Second message Third message".
Proof. vm_compute. reflexivity. Qed.

(** [test_word_count_trigger] and [test_word_count_no_trigger] *)
Example test_word_count_trigger :
  should_trigger_word_count
    (add_delta init
       (mkDelta THEM
          (u "One two three four five six seven eight nine ten eleven twelve thirteen")
          (u "seg1") 1) 10) = true
  /\ should_trigger_word_count
       (add_delta init (mkDelta THEM (u "Hello world") (u "seg1") 1) 10)
     = false.
Proof. split; vm_compute; reflexivity. Qed.

End RepoTests.

(** ** Audio ingress: bounds and accounting on arbitrary messages *)

Module IngressInvariants.
Import ListUtil PyStr SessionModel Ingress IngressAccounting IngressProps.

Lemma enqueue_frame_other s c c' x :
  Channel_other c c' ->
  queue_of c' (enqueue_frame s c x) = queue_of c' s
  /\ dropped_of c' (stats (enqueue_frame s c x)) = dropped_of c' (stats s)
  /\ total_of c' (stats (enqueue_frame s c x)) = total_of c' (stats s).
Proof.
  intros Hoth. destruct s as [sid st md he cp kw mq sq stt].
  destruct Hoth; unfold enqueue_frame; cbn [stats set_stats queue_of];
    match goal with
    | |- context [put_nowait ?q x] => destruct (put_nowait q x)
    end; repeat split; reflexivity.
Qed.

(** The handler keeps a session with the same state, whatever arrives. *)
Lemma handle_audio_session s data :
  exists s', fst (_handle_audio (mkHandler (Some s)) data) = mkHandler (Some s')
    /\ (s' = s
        \/ exists c pcm, data = tag_of c :: pcm /\ pcm <> []
             /\ state s = ACTIVE /\ s' = enqueue_frame s c pcm).
Proof.
  unfold _handle_audio. cbn [session].
  destruct (negb (SessionState_eqb (state s) ACTIVE)) eqn:Eact;
    [exists s; split; [reflexivity | now left] |].
  destruct (Z.ltb_spec (Z.of_nat (length data)) 2) as [Hshort | Hlong];
    [exists s; split; [reflexivity | now left] |].
  destruct data as [| channel_id pcm];
    [exists s; split; [reflexivity | now left] |].
  unfold channel_of.
  destruct channel_id; cbn [Byte.to_N];
    try (exists s; split; [reflexivity | now left]).
  - exists (enqueue_frame s Mic pcm). split; [reflexivity |]. right.
    exists Mic, pcm. repeat split.
    + destruct pcm; [simpl in Hlong; lia | discriminate].
    + destruct (state s); try discriminate. reflexivity.
  - exists (enqueue_frame s System pcm). split; [reflexivity |]. right.
    exists System, pcm. repeat split.
    + destruct pcm; [simpl in Hlong; lia | discriminate].
    + destruct (state s); try discriminate. reflexivity.
Qed.

Lemma accounted_refl c s :
  maxsize (queue_of c s) = 200 ->
  (length (items (queue_of c s)) <= 200)%nat ->
  accounted c 0 s s.
Proof. intros. unfold accounted. repeat split; try assumption; lia. Qed.

Lemma accounted_trans c k1 k2 s1 s2 s3 :
  accounted c k1 s1 s2 -> accounted c k2 s2 s3 ->
  accounted c (k1 + k2) s1 s3.
Proof.
  unfold accounted. intros (? & ? & ? & ? & ?) (? & ? & ? & ? & ?).
  repeat split; try assumption; lia.
Qed.

Lemma accounted_enqueue c c' s x :
  maxsize (queue_of c' s) = 200 ->
  (length (items (queue_of c' s)) <= 200)%nat ->
  accounted c' 0 s (enqueue_frame s c x).
Proof.
  intros Hmax Hlen.
  assert (Hcases : c = c' \/ Channel_other c c')
    by (destruct c, c'; auto using Channel_other).
  destruct Hcases as [-> | Hoth].
  - destruct (enqueue_frame_queue s c' x Hmax Hlen) as (Hq & Hd & Ht & _).
    unfold accounted, qsize. rewrite Hq, Hd, Ht. cbn [maxsize items].
    rewrite lastn_length, length_app. simpl length.
    destruct (Nat.eqb_spec (length (items (queue_of c' s))) 200);
      repeat split; lia.
  - destruct (enqueue_frame_other s c c' x Hoth) as (Hq & Hd & Ht).
    unfold accounted. rewrite Hq, Hd, Ht. repeat split; try assumption; lia.
Qed.

(** The pump takes the oldest frame of its own queue and touches nothing
    else. *)
Lemma accounted_take c c' s :
  maxsize (queue_of c s) = 200 ->
  (length (items (queue_of c s)) <= 200)%nat ->
  state (take s c') = state s
  /\ accounted c (taken_by c (mkHandler (Some s)) (Take c')) s (take s c').
Proof.
  intros Hmax Hlen. unfold take, taken_by, get_nowait, accounted, qsize.
  cbn [session].
  destruct s as [sid st md he cp kw mq sq stt].
  destruct c, c'; cbn [queue_of mic_queue system_queue] in *;
    match goal with
    | |- context [match items ?q with _ => _ end] =>
        destruct (items q) as [| x rest] eqn:Eq
    end;
    cbn [set_queue set_mic_queue set_system_queue queue_of mic_queue
         system_queue stats state maxsize items Channel_eqb session_id mode
         hints_enabled custom_prompt knowledge_workspace length] in *;
    rewrite ?Eq in *; cbn [length] in *; repeat split; try assumption; lia.
Qed.

Lemma step_accounted s st :
  maxsize (mic_queue s) = 200 -> maxsize (system_queue s) = 200 ->
  (length (items (mic_queue s)) <= 200)%nat ->
  (length (items (system_queue s)) <= 200)%nat ->
  exists s1,
    step (mkHandler (Some s)) st = mkHandler (Some s1)
    /\ state s1 = state s
    /\ forall c, accounted c (taken_by c (mkHandler (Some s)) st) s s1.
Proof.
  intros Hm1 Hm2 Hl1 Hl2. destruct st as [data | c0].
  - destruct (handle_audio_session s data) as (s1 & Hs1 & Hcase).
    exists s1. cbn [step]. split; [exact Hs1 |].
    cbn [taken_by].
    destruct Hcase as [-> | (c & pcm & _ & _ & Hact & ->)].
    + split; [reflexivity |].
      intros [|]; now apply accounted_refl.
    + split.
      * destruct (enqueue_frame_queue s c pcm) as (_ & _ & _ & Hst);
          [destruct c; assumption .. | exact Hst].
      * intros [|]; now apply accounted_enqueue.
  - exists (take s c0). cbn [step session]. split; [reflexivity |].
    split; [now apply (accounted_take Mic c0 s) |].
    intros [|]; now apply accounted_take.
Qed.

Lemma run_steps_accounted steps : forall s,
  maxsize (mic_queue s) = 200 -> maxsize (system_queue s) = 200 ->
  (length (items (mic_queue s)) <= 200)%nat ->
  (length (items (system_queue s)) <= 200)%nat ->
  exists s',
    run_steps (mkHandler (Some s)) steps = mkHandler (Some s')
    /\ state s' = state s
    /\ forall c, accounted c (taken c (mkHandler (Some s)) steps) s s'.
Proof.
  induction steps as [| st rest IH]; intros s Hm1 Hm2 Hl1 Hl2.
  - exists s. split; [reflexivity |]. split; [reflexivity |].
    intros [|]; now apply accounted_refl.
  - destruct (step_accounted s st Hm1 Hm2 Hl1 Hl2) as (s1 & Hs1 & Hst1 & Ha1).
    destruct (IH s1) as (s' & Hrun & Hst & Ha);
      try (apply (Ha1 Mic)); try (apply (Ha1 System)).
    exists s'. unfold run_steps in *. cbn [fold_left taken].
    rewrite Hs1. split; [exact Hrun |]. split; [congruence |].
    intros c. eapply accounted_trans; [apply Ha1 | apply Ha].
Qed.

(** X1. Whatever binary messages arrive, in whatever order and on
    whatever channel, and whenever the transcription pumps take frames in
    between, each audio queue of a session stays within its capacity of
    200 frames, the total and dropped counters never decrease, and every
    frame counted in [total_frames_*] is still in its queue, was taken
    from it by the pump, or is counted in [dropped_frames_*]. *)
Theorem ingress_bounded_and_accounted (s : Session) (steps : list Step) :
  maxsize (mic_queue s) = 200 -> maxsize (system_queue s) = 200 ->
  (length (items (mic_queue s)) <= 200)%nat ->
  (length (items (system_queue s)) <= 200)%nat ->
  exists s',
    run_steps (mkHandler (Some s)) steps = mkHandler (Some s')
    /\ state s' = state s
    /\ forall c,
         (length (items (queue_of c s')) <= 200)%nat
         /\ dropped_of c (stats s) <= dropped_of c (stats s')
         /\ total_of c (stats s) <= total_of c (stats s')
         /\ qsize (queue_of c s') + dropped_of c (stats s')
            + taken c (mkHandler (Some s)) steps
            = qsize (queue_of c s) + dropped_of c (stats s)
              + (total_of c (stats s') - total_of c (stats s)).
Proof.
  intros Hm1 Hm2 Hl1 Hl2.
  destruct (run_steps_accounted steps s Hm1 Hm2 Hl1 Hl2)
    as (s' & Hrun & Hst & Ha).
  exists s'. split; [exact Hrun |]. split; [exact Hst |].
  intros c. destruct (Ha c) as (_ & H). exact H.
Qed.

Lemma ingress_bounded_and_accounted_witness :
  (exists s',
     run_steps (mkHandler (Some LLM.interview_session)) busy_steps
     = mkHandler (Some s')
     /\ state s' = state LLM.interview_session
     /\ forall c,
          (length (items (queue_of c s')) <= 200)%nat
          /\ dropped_of c (stats LLM.interview_session)
             <= dropped_of c (stats s')
          /\ total_of c (stats LLM.interview_session)
             <= total_of c (stats s')
          /\ qsize (queue_of c s') + dropped_of c (stats s')
             + taken c (mkHandler (Some LLM.interview_session)) busy_steps
             = qsize (queue_of c LLM.interview_session)
               + dropped_of c (stats LLM.interview_session)
               + (total_of c (stats s')
                  - total_of c (stats LLM.interview_session)))
  /\ taken Mic (mkHandler (Some LLM.interview_session)) busy_steps = 1
  /\ taken System (mkHandler (Some LLM.interview_session)) busy_steps = 1.
Proof.
  split; [| split; reflexivity].
  apply (ingress_bounded_and_accounted LLM.interview_session busy_steps);
    simpl; lia.
Defined.

(** X2. Messages for one channel never touch the other: when no message
    of a run carries the tag of channel [c], the queue of [c] and its two
    counters are after the run what they were before. *)
Theorem ingress_channels_isolated (c : Channel) (s : Session)
    (msgs : list bytes) :
  Forall (fun m => match m with
                   | tag :: _ => channel_of tag <> Some c
                   | [] => True
                   end) msgs ->
  exists s',
    fst (deliver (mkHandler (Some s)) msgs) = mkHandler (Some s')
    /\ queue_of c s' = queue_of c s
    /\ dropped_of c (stats s') = dropped_of c (stats s)
    /\ total_of c (stats s') = total_of c (stats s).
Proof.
  revert s. induction msgs as [| m rest IH]; intros s Hall.
  - exists s. repeat split.
  - inversion Hall as [| ? ? Hm Hrest]; subst.
    destruct (handle_audio_session s m) as (s1 & Hs1 & Hcase).
    assert (H1 : queue_of c s1 = queue_of c s
                 /\ dropped_of c (stats s1) = dropped_of c (stats s)
                 /\ total_of c (stats s1) = total_of c (stats s)).
    { destruct Hcase as [-> | (c0 & pcm & -> & _ & _ & ->)];
        [repeat split |].
      apply enqueue_frame_other.
      destruct c0, c; try constructor; exfalso; apply Hm; reflexivity. }
    destruct H1 as (Hq1 & Hd1 & Ht1).
    destruct (IH s1 Hrest) as (s' & Hrun & Hq & Hd & Ht).
    exists s'. simpl deliver.
    destruct (_handle_audio (mkHandler (Some s)) m) as [h1 out1] eqn:E1.
    simpl in Hs1. subst h1.
    destruct (deliver (mkHandler (Some s1)) rest) as [h2 out2] eqn:E2.
    simpl in Hrun |- *. split; [exact Hrun |].
    repeat split; congruence.
Qed.

Lemma ingress_channels_isolated_witness :
  exists s',
    fst (deliver (mkHandler (Some LLM.interview_session))
                 [[x00; x01; x02]; [x00; x03]; [x09; x00]])
      = mkHandler (Some s')
    /\ queue_of System s' = queue_of System LLM.interview_session
    /\ dropped_of System (stats s')
       = dropped_of System (stats LLM.interview_session)
    /\ total_of System (stats s')
       = total_of System (stats LLM.interview_session).
Proof.
  apply (ingress_channels_isolated System LLM.interview_session).
  repeat constructor; discriminate.
Defined.

End IngressInvariants.

(** ** Transcript aggregation: the history and the pending text *)

Module AggregatorInvariants.
Import ListUtil PyStr Events Aggregator AggregatorRuns AggregatorProps
       IngressProps.

Lemma Inv_history_valid ag : Inv ag -> history_valid ag.
Proof.
  intros [_ _ Hh]. apply Forall_forall. intros a Ha.
  apply lookup_lt_is_Some_2. now apply Hh.
Qed.

Lemma omap_cons_eq (objs : list TranscriptSegment) a (h : list nat) :
  omap (fun a => objs !! a) (a :: h)
  = match objs !! a with
    | Some y => y :: omap (fun a => objs !! a) h
    | None => omap (fun a => objs !! a) h
    end.
Proof. reflexivity. Qed.

Lemma omap_valid_length (objs : list TranscriptSegment) (h : list nat) :
  Forall (fun a => is_Some (objs !! a)) h ->
  length (omap (fun a => objs !! a) h) = length h.
Proof.
  induction 1 as [| a h [x Hx] _ IH]; [reflexivity |].
  rewrite omap_cons_eq, Hx. simpl. now rewrite IH.
Qed.

Lemma omap_valid_skip1 (objs : list TranscriptSegment) (h : list nat) :
  Forall (fun a => is_Some (objs !! a)) h ->
  omap (fun a => objs !! a) (skipn 1 h)
  = skipn 1 (omap (fun a => objs !! a) h).
Proof.
  intros Hv. destruct h as [| a h]; [reflexivity |].
  inversion Hv as [| ? ? [x Hx] _]; subst.
  rewrite omap_cons_eq, Hx. reflexivity.
Qed.

Lemma omap_snoc (objs : list TranscriptSegment) (h : list nat) a x :
  objs !! a = Some x ->
  omap (fun a => objs !! a) (h ++ [a]) = omap (fun a => objs !! a) h ++ [x].
Proof.
  intros Hx. induction h as [| b h IH].
  - simpl app. rewrite omap_cons_eq, Hx. reflexivity.
  - change ((b :: h) ++ [a]) with (b :: (h ++ [a])).
    rewrite !omap_cons_eq, IH. now destruct (objs !! b).
Qed.

Lemma Inv2_init : Inv2 init.
Proof.
  split; simpl.
  - intros sid a seg H. now rewrite lookup_empty in H.
  - intros a seg H. now apply elem_of_nil in H.
  - congruence.
Qed.

Lemma Inv2_add_delta ag e now :
  Inv ag -> Inv2 ag -> Inv2 (add_delta ag e now).
Proof.
  intros [Ho Hi Hh] [Hk Hd Hp]. unfold add_delta.
  destruct (current_segments ag !! delta_segment_id e) as [a |] eqn:Hcur.
  - destruct (Ho _ _ Hcur) as [Hlt Hnin].
    destruct (lookup_lt_is_Some_2 (objects ag) a Hlt) as [seg Hseg].
    rewrite Hseg. destruct (Hk _ _ _ Hcur Hseg) as [Hid Hinc].
    split; cbn [objects current_segments history pending_text
                pending_speaker].
    + intros sid b segb Hb Hlook.
      destruct (decide (b = a)) as [-> | Hne].
      * rewrite list_lookup_insert_eq in Hlook by exact Hlt.
        injection Hlook as <-. cbn. rewrite (Hi _ _ _ Hb Hcur). tauto.
      * rewrite list_lookup_insert_ne in Hlook by congruence. eauto.
    + intros b segb Hb Hlook.
      rewrite list_lookup_insert_ne in Hlook by (intros ->; contradiction).
      eauto.
    + discriminate.
  - rewrite lookup_app_r by lia. rewrite Nat.sub_diag. cbn [lookup list_lookup].
    assert (Hins : forall b, (b < length (objects ag))%nat ->
              <[length (objects ag) :=
                  set_text (mkSegment (delta_speaker e) [] (delta_segment_id e)
                                      (delta_timestamp e) false)
                           ([] ++ delta_text e)]>
                (objects ag ++ [mkSegment (delta_speaker e) []
                                  (delta_segment_id e) (delta_timestamp e)
                                  false]) !! b
              = objects ag !! b).
    { intros b Hb. rewrite list_lookup_insert_ne by lia.
      now apply lookup_app_l. }
    split; cbn [objects current_segments history pending_text
                pending_speaker text].
    + intros sid b segb Hb Hlook.
      destruct (decide (sid = delta_segment_id e)) as [-> | Hne].
      * rewrite lookup_insert_eq in Hb. injection Hb as <-.
        rewrite list_lookup_insert_eq in Hlook
          by (rewrite length_app; simpl; lia).
        injection Hlook as <-. cbn. tauto.
      * rewrite lookup_insert_ne in Hb by congruence.
        destruct (Ho _ _ Hb) as [Hlt _].
        cbn [text] in Hins. rewrite Hins in Hlook by exact Hlt. eauto.
    + intros b segb Hb Hlook.
      cbn [text] in Hins. rewrite Hins in Hlook by (now apply Hh). eauto.
    + discriminate.
Qed.

Lemma Inv2_complete_segment ag e :
  Inv ag -> Inv2 ag -> Inv2 (fst (complete_segment ag e)).
Proof.
  intros [Ho Hi Hh] [Hk Hd Hp]. unfold complete_segment.
  destruct (current_segments ag !! completed_segment_id e) as [a |] eqn:Hcur.
  - destruct (Ho _ _ Hcur) as [Hlt Hnin].
    destruct (lookup_lt_is_Some_2 (objects ag) a Hlt) as [seg Hseg].
    rewrite Hseg.
    destruct (decide (pending_segment_id ag = Some (completed_segment_id e)));
      split; cbn [fst objects current_segments history pending_text
                  pending_speaker]; try congruence; try exact Hp.
    all: try (intros sid b segb Hb Hlook;
              apply lookup_delete_Some in Hb as [Hne Hb];
              assert (Hba : b <> a)
                by (intros ->; apply Hne; symmetry; eauto);
              rewrite list_lookup_insert_ne in Hlook by congruence; eauto).
    all: intros b segb Hb Hlook;
      apply elem_of_deque_append in Hb as [Hb | ->];
      [ rewrite list_lookup_insert_ne in Hlook
          by (intros ->; contradiction); eauto
      | rewrite list_lookup_insert_eq in Hlook by exact Hlt;
        injection Hlook as <-; reflexivity ].
  - destruct (decide (pending_segment_id ag = Some (completed_segment_id e)));
      split; cbn [fst objects current_segments history pending_text
                  pending_speaker]; try congruence; try exact Hp.
    all: try (intros sid b segb Hb Hlook;
              destruct (Ho _ _ Hb) as [Hlt _];
              rewrite lookup_app_l in Hlook by exact Hlt; eauto).
    all: intros b segb Hb Hlook;
      apply elem_of_deque_append in Hb as [Hb | ->];
      [ rewrite lookup_app_l in Hlook by (now apply Hh); eauto
      | rewrite lookup_app_r in Hlook by lia;
        rewrite Nat.sub_diag in Hlook; injection Hlook as <-; reflexivity ].
Qed.

Lemma Inv2_clear_pending ag : Inv2 ag -> Inv2 (clear_pending ag).
Proof. intros [Hk Hd Hp]. split; simpl; try assumption. congruence. Qed.

Lemma reachable_Inv2 ag : reachable ag -> Inv2 ag.
Proof.
  induction 1 as [| ag e now Hr IH | ag e Hr IH | ag Hr IH].
  - apply Inv2_init.
  - apply Inv2_add_delta; [now apply reachable_Inv | exact IH].
  - apply Inv2_complete_segment; [now apply reachable_Inv | exact IH].
  - now apply Inv2_clear_pending.
Qed.

(** What [complete_segment] does to the history and the open segments. *)
Lemma complete_segment_effect ag e :
  Inv ag -> Inv2 ag ->
  exists seg,
    snd (complete_segment ag e) = Some seg
    /\ text seg = completed_text e
    /\ is_complete seg = true
    /\ segment_id seg = completed_segment_id e
    /\ (current_segments ag !! completed_segment_id e = None ->
        speaker seg = completed_speaker e)
    /\ current_segments (fst (complete_segment ag e))
         !! completed_segment_id e = None
    /\ history_view (fst (complete_segment ag e))
       = (if Nat.leb 20 (length (history_view ag))
          then skipn 1 (history_view ag) else history_view ag) ++ [seg].
Proof.
  intros HI [Hk _ _]. pose proof (Inv_history_valid ag HI) as Hv.
  destruct HI as [Ho Hi Hh].
  unfold complete_segment, history_view.
  rewrite (omap_valid_length _ _ Hv).
  destruct (current_segments ag !! completed_segment_id e) as [a |] eqn:Hcur.
  - destruct (Ho _ _ Hcur) as [Hlt Hnin].
    destruct (lookup_lt_is_Some_2 (objects ag) a Hlt) as [seg0 Hseg].
    rewrite Hseg. destruct (Hk _ _ _ Hcur Hseg) as [Hid _].
    set (seg := set_complete (set_text seg0 (completed_text e))).
    exists seg.
    assert (Hnew : <[a := seg]> (objects ag) !! a = Some seg)
      by now apply list_lookup_insert_eq.
    assert (Hold : forall b, b ∈ history ag ->
                   <[a := seg]> (objects ag) !! b = objects ag !! b).
    { intros b Hb. apply list_lookup_insert_ne. intros ->. contradiction. }
    assert (Hview : omap (fun b => <[a := seg]> (objects ag) !! b)
                         (deque_append (history ag) a)
                    = (if Nat.leb 20 (length (history ag))
                       then skipn 1 (omap (fun b => objects ag !! b)
                                          (history ag))
                       else omap (fun b => objects ag !! b) (history ag))
                      ++ [seg]).
    { unfold deque_append, history_maxlen.
      destruct (Nat.leb 20 (length (history ag)));
        rewrite (omap_snoc _ _ a seg Hnew); f_equal.
      - rewrite <- omap_valid_skip1 by exact Hv.
        apply omap_lookup_ext. intros b Hb. apply Hold.
        eapply subseteq_drop. exact Hb.
      - now apply omap_lookup_ext. }
    destruct (decide (pending_segment_id ag = Some (completed_segment_id e)));
      cbn [fst snd objects current_segments history];
      repeat (split; [reflexivity || exact Hid || discriminate
                      || apply lookup_delete_eq || (intros H; discriminate H)
                     |]); exact Hview.
  - set (seg := mkSegment (completed_speaker e) (completed_text e)
                          (completed_segment_id e) (completed_timestamp e)
                          true).
    exists seg.
    assert (Hnew : (objects ag ++ [seg]) !! length (objects ag) = Some seg).
    { rewrite lookup_app_r by lia. now rewrite Nat.sub_diag. }
    assert (Hold : forall b, b ∈ history ag ->
                   (objects ag ++ [seg]) !! b = objects ag !! b).
    { intros b Hb. apply lookup_app_l. now apply Hh. }
    assert (Hview : omap (fun b => (objects ag ++ [seg]) !! b)
                         (deque_append (history ag) (length (objects ag)))
                    = (if Nat.leb 20 (length (history ag))
                       then skipn 1 (omap (fun b => objects ag !! b)
                                          (history ag))
                       else omap (fun b => objects ag !! b) (history ag))
                      ++ [seg]).
    { unfold deque_append, history_maxlen.
      destruct (Nat.leb 20 (length (history ag)));
        rewrite (omap_snoc _ _ _ seg Hnew); f_equal.
      - rewrite <- omap_valid_skip1 by exact Hv.
        apply omap_lookup_ext. intros b Hb. apply Hold.
        eapply subseteq_drop. exact Hb.
      - now apply omap_lookup_ext. }
    destruct (decide (pending_segment_id ag = Some (completed_segment_id e)));
      cbn [fst snd objects current_segments history];
      repeat (split; [reflexivity || exact Hcur || (intros _; reflexivity)
                     |]); exact Hview.
Qed.

Lemma deque_view_lastn (hv : list TranscriptSegment) seg :
  (length hv <= 20)%nat ->
  (if Nat.leb 20 (length hv) then skipn 1 hv else hv) ++ [seg]
  = lastn 20 (hv ++ [seg]).
Proof.
  intros Hlen. unfold lastn. rewrite length_app. simpl length.
  destruct (Nat.leb_spec 20 (length hv)) as [Hfull | Hfree].
  - replace (length hv + 1 - 20)%nat with 1%nat by lia.
    destruct hv; [simpl in Hfull; lia | reflexivity].
  - now replace (length hv + 1 - 20)%nat with 0%nat by lia.
Qed.

Lemma history_is_last_returned calls : forall ag R,
  Inv ag -> Inv2 ag -> history_view ag = lastn 20 R ->
  history_view (fold_left call calls ag)
  = lastn 20 (R ++ returned_from ag calls).
Proof.
  induction calls as [| c calls IH]; intros ag R HI HI2 Hview.
  - simpl. now rewrite app_nil_r.
  - destruct c as [e now | e]; simpl.
    + apply IH.
      * now apply Inv_add_delta.
      * now apply Inv2_add_delta.
      * destruct (add_delta_effect ag e now HI) as [Hh _]. congruence.
    + destruct (complete_segment_effect ag e HI HI2)
        as (seg & Hret & _ & _ & _ & _ & _ & Hhv).
      pose proof (Inv_complete_segment ag e HI) as HI'.
      pose proof (Inv2_complete_segment ag e HI HI2) as HI2'.
      destruct (complete_segment ag e) as [ag' ret].
      cbn [fst snd] in *. subst ret.
      replace (R ++ seg :: returned_from ag' calls)
        with ((R ++ [seg]) ++ returned_from ag' calls)
        by (rewrite <- app_assoc; reflexivity).
      apply IH; try assumption.
      rewrite Hhv, deque_view_lastn.
      * rewrite Hview. apply lastn_app_lastn.
      * rewrite Hview, lastn_length. lia.
Qed.

(** X3. The history is exactly the last 20 segments that
    [complete_segment] returned, oldest first, each as it was returned:
    later deltas and completions never alter an entry, they only push the
    oldest out. *)
Theorem history_is_last_20_completed (calls : list Call) :
  history_view (run calls) = lastn 20 (returned_from init calls)
  /\ (length (history_view (run calls)) <= 20)%nat.
Proof.
  assert (H : history_view (run calls) = lastn 20 (returned_from init calls)).
  { unfold run.
    apply (history_is_last_returned calls init []);
      [apply Inv_init | apply Inv2_init | reflexivity]. }
  split; [exact H |]. rewrite H, lastn_length. lia.
Qed.

(** X4. Completing a segment returns it with the final transcript in
    place of whatever the deltas had accumulated, marked complete, under
    the completed id; the id is no longer open afterwards, and when no
    delta had opened the segment its speaker is the event's; it is the
    newest entry of the history. *)
Theorem complete_segment_returns_final (ag : TextAggregator)
    (e : TranscriptCompleted) :
  reachable ag ->
  exists seg,
    snd (complete_segment ag e) = Some seg
    /\ text seg = completed_text e
    /\ is_complete seg = true
    /\ segment_id seg = completed_segment_id e
    /\ (current_segments ag !! completed_segment_id e = None ->
        speaker seg = completed_speaker e)
    /\ current_segments (fst (complete_segment ag e))
         !! completed_segment_id e = None
    /\ last (history_view (fst (complete_segment ag e))) = Some seg.
Proof.
  intros Hr.
  destruct (complete_segment_effect ag e (reachable_Inv ag Hr)
              (reachable_Inv2 ag Hr))
    as (seg & Hret & Ht & Hc & Hid & Hsp & Hcur & Hhv).
  exists seg. repeat (split; [assumption |]).
  rewrite Hhv. apply last_snoc.
Qed.

Lemma complete_segment_returns_final_witness :
  exists seg,
    snd (complete_segment
           (run [Delta (mkDelta ME (u "Hel") (u "seg1") 1) 1])
           (mkCompleted THEM (u "Hello.") (u "seg1") 2)) = Some seg
    /\ text seg = u "Hello."
    /\ is_complete seg = true.
Proof.
  destruct (complete_segment_returns_final
              (run [Delta (mkDelta ME (u "Hel") (u "seg1") 1) 1])
              (mkCompleted THEM (u "Hello.") (u "seg1") 2))
    as (seg & H1 & H2 & H3 & _).
  - apply run_reachable.
  - exists seg. repeat split; assumption.
Defined.

Lemma add_delta_fresh ag e now :
  Inv ag -> current_segments ag !! delta_segment_id e = None ->
  pending_is (add_delta ag e now) (delta_segment_id e) (delta_text e)
             (delta_speaker e).
Proof.
  intros [Ho Hi Hh] Hcur. unfold add_delta, pending_is. rewrite Hcur.
  rewrite lookup_app_r by lia. rewrite Nat.sub_diag. cbn [lookup list_lookup].
  cbn [objects current_segments pending_text pending_speaker
       pending_segment_id text speaker set_text].
  repeat split.
  eexists _, _. rewrite lookup_insert_eq.
  rewrite list_lookup_insert_eq by (rewrite length_app; simpl; lia).
  repeat split.
Qed.

Lemma add_delta_open ag e now T sp :
  Inv ag -> pending_is ag (delta_segment_id e) T sp ->
  pending_is (add_delta ag e now) (delta_segment_id e) (T ++ delta_text e) sp.
Proof.
  intros [Ho Hi Hh] ((a & seg & Hcur & Hseg & <- & <-) & _).
  unfold add_delta, pending_is. rewrite Hcur, Hseg.
  cbn [objects current_segments pending_text pending_speaker
       pending_segment_id text speaker set_text].
  repeat split.
  exists a, (set_text seg (text seg ++ delta_text e)).
  rewrite list_lookup_insert_eq by (eapply lookup_lt_Some; exact Hseg).
  repeat split. exact Hcur.
Qed.

Lemma add_deltas_open deltas sid : forall ag T sp,
  Inv ag -> pending_is ag sid T sp ->
  Forall (fun d => delta_segment_id (fst d) = sid) deltas ->
  pending_is (OrchestratorHandlers.add_deltas ag deltas) sid
             (T ++ concat (List.map (fun d => delta_text (fst d)) deltas)) sp.
Proof.
  induction deltas as [| [e now] ds IH]; intros ag T sp HI HP Hall.
  - simpl. now rewrite app_nil_r.
  - apply Forall_cons in Hall as [Hid Hrest]. simpl in Hid. subst sid.
    cbn [OrchestratorHandlers.add_deltas fold_left fst snd List.map concat].
    rewrite app_assoc.
    apply IH; [now apply Inv_add_delta | now apply add_delta_open | exact Hrest].
Qed.

(** X5. Deltas accumulate: after a run of deltas that all carry the same
    segment id, not open before, the pending text is the concatenation of
    their texts in order and the pending speaker is the speaker of the
    first delta (the speaker of the later ones is not looked at). *)
Theorem deltas_accumulate (ag : TextAggregator) (e : TranscriptDelta)
    (now : Q) (deltas : list (TranscriptDelta * Q)) :
  reachable ag ->
  current_segments ag !! delta_segment_id e = None ->
  Forall (fun d => delta_segment_id (fst d) = delta_segment_id e) deltas ->
  let ag' := OrchestratorHandlers.add_deltas ag ((e, now) :: deltas) in
  pending_text ag'
    = delta_text e ++ concat (List.map (fun d => delta_text (fst d)) deltas)
  /\ pending_speaker ag' = Some (delta_speaker e)
  /\ pending_segment_id ag' = Some (delta_segment_id e).
Proof.
  intros Hr Hcur Hall.
  pose proof (reachable_Inv ag Hr) as HI.
  destruct (add_deltas_open deltas (delta_segment_id e)
              (add_delta ag e now) (delta_text e) (delta_speaker e))
    as (_ & H1 & H2 & H3);
    [now apply Inv_add_delta | now apply add_delta_fresh | exact Hall |].
  repeat split; assumption.
Qed.

Lemma deltas_accumulate_witness :
  pending_text (OrchestratorHandlers.add_deltas init
                  OrchestratorHandlers.two_deltas)
    = u "Hello, how are you?"
  /\ pending_speaker (OrchestratorHandlers.add_deltas init
                        OrchestratorHandlers.two_deltas) = Some THEM.
Proof.
  destruct (deltas_accumulate init (mkDelta THEM (u "Hello, ") (u "seg9") 1) 1
              [(mkDelta ME (u "how are you?") (u "seg9") 2, 2%Q)])
    as (H1 & H2 & _).
  - constructor.
  - reflexivity.
  - repeat constructor.
  - split; [exact H1 | exact H2].
Defined.

Lemma last_context_loop_closed sp n l : forall texts,
  Z.of_nat (length texts) < n ->
  last_context_loop sp n l texts
  = texts ++ firstn (Z.to_nat n - length texts)
                    (List.map text
                       (List.filter (fun s => Speaker_eqb (speaker s) sp) l)).
Proof.
  induction l as [| seg rest IH]; intros texts Hlt; simpl.
  - now rewrite firstn_nil, app_nil_r.
  - destruct (Speaker_eqb (speaker seg) sp); [| now apply IH].
    rewrite length_app. simpl length.
    destruct (Z.leb_spec n (Z.of_nat (length texts + 1))) as [Hfull | Hmore].
    + replace (Z.to_nat n - length texts)%nat with 1%nat by lia.
      simpl. now rewrite firstn_O.
    + rewrite IH by (rewrite length_app; simpl; lia).
      rewrite length_app. simpl length.
      replace (Z.to_nat n - length texts)%nat
        with (S (Z.to_nat n - (length texts + 1))) by lia.
      simpl. now rewrite <- app_assoc.
Qed.

Lemma get_last_context_closed (ag : TextAggregator) (sp : Speaker) (n : Z) :
  1 <= n ->
  get_last_context ag sp n
  = join [SP]
      (List.map text
         (lastn (Z.to_nat n)
                (List.filter (fun s => Speaker_eqb (speaker s) sp)
                             (history_view ag)))).
Proof.
  intros Hn. unfold get_last_context.
  rewrite last_context_loop_closed by (simpl; lia).
  simpl app. rewrite Nat.sub_0_r. f_equal.
  set (p := fun s => Speaker_eqb (speaker s) sp).
  assert (Hf : forall l : list TranscriptSegment,
            List.filter p (rev l) = rev (List.filter p l)).
  { induction l as [| x l IHl]; [reflexivity |].
    simpl. rewrite List.filter_app, IHl. simpl.
    destruct (p x); simpl; [reflexivity | now rewrite app_nil_r]. }
  rewrite Hf, map_rev, firstn_rev, rev_involutive, length_map.
  unfold lastn. now rewrite skipn_map.
Qed.

(** X6. [get_last_context(speaker, n)], for n at least 1, is the texts of
    the last n history entries of that speaker, oldest first, joined by
    single spaces; entries of the other speaker in between are skipped. *)
Theorem last_context_is_last_n_of_speaker (ag : TextAggregator)
    (sp : Speaker) (n : Z) :
  1 <= n ->
  get_last_context ag sp n
  = join [SP]
      (List.map text
         (lastn (Z.to_nat n)
                (List.filter (fun s => Speaker_eqb (speaker s) sp)
                             (history_view ag)))).
Proof. exact (get_last_context_closed ag sp n). Qed.

Lemma last_context_is_last_n_of_speaker_witness :
  get_last_context (run many_calls) THEM 2
  = join [SP]
      (List.map text
         (lastn 2 (List.filter (fun s => Speaker_eqb (speaker s) THEM)
                               (history_view (run many_calls))))).
Proof. apply (last_context_is_last_n_of_speaker (run many_calls) THEM 2). lia. Defined.

Lemma add_delta_clock ag e now :
  Inv ag -> last_delta_time (add_delta ag e now) = now.
Proof.
  intros [Ho Hi Hh]. unfold add_delta.
  destruct (current_segments ag !! delta_segment_id e) as [a |] eqn:Hcur.
  - destruct (Ho _ _ Hcur) as [Hlt _].
    destruct (lookup_lt_is_Some_2 (objects ag) a Hlt) as [seg Hseg].
    now rewrite Hseg.
  - rewrite lookup_app_r by lia. now rewrite Nat.sub_diag.
Qed.

(** X7. Every delta restarts the idle timer: after [add_delta] at clock
    [t], the timeout trigger is due at clock [now] exactly when the
    pending text is not empty and the elapsed time that the code computes
    in binary64, (now - t) * 1000, is at least 800. *)
Theorem timeout_counts_from_last_delta (ag : TextAggregator)
    (e : TranscriptDelta) (t now : Q) :
  reachable ag ->
  should_trigger_timeout (add_delta ag e t) now = true
  <-> pending_text (add_delta ag e t) <> []
      /\ Binary64.ge (Binary64.elapsed_ms now t)
                     (Binary64.of_int AGGREGATION_TIMEOUT_MS) = true.
Proof.
  intros Hr. unfold should_trigger_timeout.
  rewrite (add_delta_clock ag e t (reachable_Inv ag Hr)).
  destruct (pending_text (add_delta ag e t)) as [| c r].
  - split; [discriminate | intros [H _]; congruence].
  - cbv zeta. split.
    + intros H. split; [discriminate | exact H].
    + intros [_ H]. exact H.
Qed.

(** A delta at the binary64 clock 0.2 and the check at clock 1.0: the
    code computes 800.0 and the trigger is due, 0.8 s not having quite
    passed. *)
Lemma timeout_counts_from_last_delta_witness :
  let ag := add_delta init (mkDelta THEM (u "Hello") (u "seg1") 1)
                      Binary64.reading_0_2 in
  (should_trigger_timeout ag 1 = true
   <-> pending_text ag <> []
       /\ Binary64.ge (Binary64.elapsed_ms 1 Binary64.reading_0_2)
                      (Binary64.of_int AGGREGATION_TIMEOUT_MS) = true)
  /\ should_trigger_timeout ag 1 = true
  /\ ((1 - Binary64.reading_0_2) * 1000 < 800)%Q.
Proof.
  split; [| split].
  - apply (timeout_counts_from_last_delta init). constructor.
  - vm_compute. reflexivity.
  - unfold Qlt. vm_compute. reflexivity.
Defined.

End AggregatorInvariants.

(** ** The orchestrator's handlers *)

Module OrchestratorInvariants.
Import ListUtil PyStr PyStrProps SessionModel Events Aggregator AggregatorRuns
       AggregatorProps AggregatorInvariants Orchestrator OrchestratorHandlers
       OrchestratorProps.


Lemma lstrip_keeps c s : isspace c = false -> In c s -> In c (lstrip s).
Proof.
  intros Hc. induction s as [| d s IH]; intros Hin; [destruct Hin |].
  simpl. destruct (isspace d) eqn:Ed; [| exact Hin].
  destruct Hin as [-> | Hin]; [congruence | now apply IH].
Qed.

Lemma strip_keeps c s : isspace c = false -> In c s -> In c (strip s).
Proof.
  intros Hc Hin. unfold strip, rstrip.
  apply -> List.in_rev. apply lstrip_keeps; [exact Hc |].
  apply -> List.in_rev. now apply lstrip_keeps.
Qed.

Lemma contains_In c s : contains c s = true <-> In c s.
Proof.
  unfold contains. rewrite existsb_exists. split.
  - intros (x & Hx & E). apply N.eqb_eq in E. now subst.
  - intros H. exists c. split; [exact H | apply N.eqb_refl].
Qed.

Lemma split_ws_loop_pos b : forall cur,
  cur <> [] -> (1 <= length (split_ws_loop b cur))%nat.
Proof.
  induction b as [| x b IH]; intros cur Hne; simpl.
  - destruct cur; [congruence | simpl; lia].
  - destruct (isspace x).
    + destruct cur; [congruence | simpl; lia].
    + apply IH. discriminate.
Qed.

(** Appending text never lowers the number of words. *)
Lemma split_ws_loop_mono s b : forall cur,
  (length (split_ws_loop s cur) <= length (split_ws_loop (s ++ b) cur))%nat.
Proof.
  induction s as [| c s IH]; intros cur.
  - simpl app. destruct cur as [| d cur]; [simpl; lia |].
    pose proof (split_ws_loop_pos b (d :: cur)) as H. simpl.
    assert ((1 <= length (split_ws_loop b (d :: cur)))%nat)
      by (apply H; discriminate). lia.
  - simpl. destruct (isspace c).
    + destruct cur; [apply IH |]. simpl. specialize (IH []). lia.
    + apply IH.
Qed.

Section Handlers.
Variable question_word_at_start : str -> bool.

(** X13. A question mark anywhere in the text makes it a question,
    whatever the start-of-text patterns say. *)
Theorem question_mark_is_question (text : str) :
  In 63%N text -> is_question question_word_at_start text = true.
Proof.
  intros Hin. unfold is_question.
  assert (H : contains 63%N (strip text) = true).
  { apply contains_In. now apply strip_keeps. }
  now rewrite H.
Qed.


Lemma process_chunk_events sess o c now ev :
  In ev (snd (_process_chunk sess o c now)) ->
  ev = TEXT_CHUNK_READY c /\ chunk_speaker c = THEM.
Proof.
  unfold _process_chunk, _process_interview, _process_meeting.
  destruct (negb (hints_enabled sess)); [intros [] |].
  destruct (chunk_speaker c) eqn:Esp; destruct (mode sess); simpl;
    try (intros []).
  - destruct (negb (is_question_flag c)); simpl; [intros [] |].
    intros [<- | []]. now split.
  - destruct (Binary64.lt _ _); simpl; [intros [] |].
    intros [<- | []]. now split.
Qed.

Lemma join_snoc (sep : str) (parts : list str) (x : str) :
  exists pre, join sep (parts ++ [x]) = pre ++ x.
Proof.
  induction parts as [| p ps [pre IH]].
  - now exists [].
  - destruct ps as [| q ps].
    + exists (p ++ sep). simpl. now rewrite <- app_assoc.
    + exists (p ++ sep ++ pre).
      change ((p :: q :: ps) ++ [x]) with (p :: (q :: ps) ++ [x]).
      change (join sep (p :: (q :: ps) ++ [x]))
        with (p ++ sep ++ join sep ((q :: ps) ++ [x])).
      rewrite IH, <- !app_assoc. reflexivity.
Qed.

(** X12. A chunk published for a completed segment carries the final
    transcript as its text, is spoken by Them, and its last-speaker
    context ends with that same text: the segment is already in the
    history when the context is taken. *)
Theorem completed_chunk_has_own_text (sess : Session) (o : Orchestrator)
    (event : TranscriptCompleted) (now : Q) (chunk : TextChunk) :
  reachable (aggregator o) ->
  In (TEXT_CHUNK_READY chunk)
     (snd (_on_completed question_word_at_start sess o event now)) ->
  chunk_text chunk = completed_text event
  /\ chunk_speaker chunk = THEM
  /\ is_question_flag chunk
     = is_question question_word_at_start (completed_text event)
  /\ exists pre, last_context chunk = pre ++ completed_text event.
Proof.
  intros Hr. unfold _on_completed.
  destruct (complete_segment_effect (aggregator o) event
              (reachable_Inv _ Hr) (reachable_Inv2 _ Hr))
    as (seg & Hret & Ht & _ & _ & _ & _ & Hhv).
  destruct (complete_segment (aggregator o) event) as [ag' ret].
  cbn [fst snd] in Hret, Hhv. subst ret.
  unfold _maybe_trigger. intros Hin.
  apply process_chunk_events in Hin as [E Hsp]. injection E as ->.
  cbn [chunk_text chunk_speaker is_question_flag last_context] in *.
  cbn [aggregator set_aggregator].
  rewrite Ht. repeat split; try assumption.
  rewrite get_last_context_closed by lia.
  rewrite Hhv, List.filter_app. simpl List.filter.
  assert (Hself : Speaker_eqb (speaker seg) (speaker seg) = true)
    by (destruct (speaker seg); reflexivity).
  rewrite Hself.
  set (F := List.filter _ _).
  assert (Hl : lastn (Z.to_nat 2) (F ++ [seg]) = lastn 1 F ++ [seg]).
  { unfold lastn. rewrite length_app. simpl length.
    change (Z.to_nat 2) with 2%nat.
    rewrite skipn_app.
    replace (length F + 1 - 2 - length F)%nat with 0%nat by lia.
    now replace (length F + 1 - 2)%nat with (length F - 1)%nat by lia. }
  rewrite Hl, List.map_app. simpl List.map. rewrite Ht.
  apply join_snoc.
Qed.

(** X9. Once the segment open under an id has 12 words or more, every
    further delta for that id meets the word-count trigger again, and the
    pending text it would dispatch is the whole text so far, not just the
    new words. *)
Theorem long_segment_triggers_again (ag : TextAggregator)
    (e : TranscriptDelta) (now : Q) :
  reachable ag ->
  AGGREGATION_WORD_THRESHOLD <= word_count (open_text ag (delta_segment_id e)) ->
  should_trigger_word_count (add_delta ag e now) = true
  /\ pending_text (add_delta ag e now)
     = open_text ag (delta_segment_id e) ++ delta_text e.
Proof.
  intros Hr Hlong.
  destruct (add_delta_effect ag e now (reachable_Inv ag Hr))
    as (_ & _ & Htext & _).
  split; [| exact Htext].
  unfold should_trigger_word_count. rewrite Htext.
  pose proof (split_ws_loop_mono (open_text ag (delta_segment_id e))
                (delta_text e) []) as Hmono.
  fold (split_ws (open_text ag (delta_segment_id e))) in Hmono.
  fold (split_ws (open_text ag (delta_segment_id e) ++ delta_text e)) in Hmono.
  unfold word_count in *.
  destruct (open_text ag (delta_segment_id e) ++ delta_text e) eqn:E.
  - unfold AGGREGATION_WORD_THRESHOLD in *. simpl in Hmono. lia.
  - unfold AGGREGATION_WORD_THRESHOLD in *.
    apply Z.leb_le. lia.
Qed.

End Handlers.

Lemma question_mark_is_question_witness :
  is_question no_question_word (u "  Really?  ") = true.
Proof.
  apply question_mark_is_question. vm_compute. tauto.
Defined.


Lemma process_run_meeting sess inputs : forall o,
  mode sess = MEETING_ASSISTANT ->
  spaced (_last_hint_time o) (snd (process_run sess o inputs))
  /\ Forall (fun p => chunk_speaker (fst p) = THEM)
            (snd (process_run sess o inputs)).
Proof.
  induction inputs as [| [chunk now] rest IH]; intros o Hm.
  - simpl. split; [exact I | constructor].
  - simpl process_run. unfold _process_chunk. rewrite Hm.
    destruct (negb (hints_enabled sess)).
    + specialize (IH o Hm).
      destruct (process_run sess o rest) as [o2 published]. exact IH.
    + destruct (process_meeting_cases o chunk now) as [E | [Hout E]];
        rewrite E.
      * specialize (IH o Hm).
        destruct (process_run sess o rest) as [o2 published]. exact IH.
      * specialize (IH (set_last_hint_time o now) Hm).
        destruct (process_run sess (set_last_hint_time o now) rest)
          as [o2 published].
        cbn [snd List.map app spaced fst _last_hint_time set_last_hint_time]
          in *.
        destruct IH as [Hsp Hall]. split; [split; assumption |].
        constructor; [| exact Hall]. cbn [fst].
        unfold _process_meeting in E.
        destruct (chunk_speaker chunk); [discriminate E | reflexivity].
Qed.

(** X10. In MeetingAssistant mode, over any run of chunks at any clock
    readings, each published chunk was outside the rate-limit window of
    the one published before it (and of the orchestrator's earlier
    dispatch) by the code's own test: the elapsed time it computes in
    binary64 since that dispatch, (t - last) * 1000, is not below 2000.
    Every published chunk is spoken by Them. *)
Theorem meeting_run_is_spaced (sess : Session) (o : Orchestrator)
    (inputs : list (TextChunk * Q)) :
  mode sess = MEETING_ASSISTANT ->
  spaced (_last_hint_time o) (snd (process_run sess o inputs))
  /\ Forall (fun p => chunk_speaker (fst p) = THEM)
            (snd (process_run sess o inputs)).
Proof. exact (process_run_meeting sess inputs o). Qed.

Lemma meeting_run_is_spaced_witness :
  snd (process_run meeting_on new_orchestrator three_remarks)
  = [ (mkChunk THEM (u "one") [] (Some []) false, 1700000000%Q);
      (mkChunk THEM (u "three") [] (Some []) false, 1700000003%Q) ]
  /\ spaced 0 (snd (process_run meeting_on new_orchestrator three_remarks)).
Proof.
  split; [vm_compute; reflexivity |].
  apply (meeting_run_is_spaced meeting_on new_orchestrator three_remarks).
  reflexivity.
Defined.

(** X11. In InterviewAssistant mode with hints enabled, a run of chunks
    publishes exactly the questions spoken by Them, in order, each at once
    and none delayed, and leaves the orchestrator as it was. *)
Theorem interview_run_publishes_their_questions (sess : Session)
    (o : Orchestrator) (inputs : list (TextChunk * Q)) :
  mode sess = INTERVIEW_ASSISTANT -> hints_enabled sess = true ->
  process_run sess o inputs
  = (o, List.filter (fun p => Speaker_eqb (chunk_speaker (fst p)) THEM
                              && is_question_flag (fst p)) inputs).
Proof.
  intros Hm He. induction inputs as [| [chunk now] rest IH]; [reflexivity |].
  assert (E : _process_chunk sess o chunk now
              = (o, if Speaker_eqb (chunk_speaker chunk) THEM
                       && is_question_flag chunk
                    then [TEXT_CHUNK_READY chunk] else [])).
  { unfold _process_chunk, _process_interview. rewrite Hm, He. simpl.
    destruct (Speaker_eqb (chunk_speaker chunk) THEM);
      destruct (is_question_flag chunk); reflexivity. }
  simpl process_run. rewrite E, IH. simpl List.filter. cbn [fst].
  destruct (Speaker_eqb (chunk_speaker chunk) THEM && is_question_flag chunk);
    reflexivity.
Qed.

Lemma interview_run_publishes_their_questions_witness :
  process_run interview_on new_orchestrator three_remarks
  = (new_orchestrator, []).
Proof.
  apply (interview_run_publishes_their_questions interview_on
           new_orchestrator three_remarks); reflexivity.
Defined.

Lemma completed_chunk_has_own_text_witness :
  chunk_text (mkChunk THEM (u "Why?") (u "Why?") (Some (u "[THEM] Why?")) true)
  = u "Why?"
  /\ exists pre, u "Why?" = pre ++ u "Why?".
Proof.
  destruct (completed_chunk_has_own_text no_question_word interview_on
              new_orchestrator (mkCompleted THEM (u "Why?") (u "seg1") 1) 5
              (mkChunk THEM (u "Why?") (u "Why?") (Some (u "[THEM] Why?")) true))
    as (H1 & _ & _ & H4).
  - constructor.
  - vm_compute. left. reflexivity.
  - split; [exact H1 | exact H4].
Defined.

Lemma long_segment_triggers_again_witness :
  should_trigger_word_count
    (add_delta (add_delta init
                  (mkDelta THEM (u "a b c d e f g h i j k l") (u "seg1") 1) 1)
               (mkDelta THEM (u " m") (u "seg1") 2) 2) = true.
Proof.
  apply (long_segment_triggers_again
           (add_delta init
              (mkDelta THEM (u "a b c d e f g h i j k l") (u "seg1") 1) 1)
           (mkDelta THEM (u " m") (u "seg1") 2) 2).
  - repeat constructor.
  - vm_compute. discriminate.
Defined.

End OrchestratorInvariants.

(** ** Session supervisor: lifecycle *)

Module SessionManagerInvariants.
Import PyStr SessionModel SessionManager SessionManagerOps.

Lemma forward_refl st : forward st st.
Proof. now left. Qed.

Lemma forward_trans a b c : forward a b -> forward b c -> forward a c.
Proof.
  unfold forward. intros [-> | [-> | [-> ->]]] [-> | [-> | [E ->]]];
    try discriminate; auto.
Qed.

Lemma state_of_sessions m m' a :
  sessions m = sessions m' -> state_of m a = state_of m' a.
Proof. unfold state_of. now intros ->. Qed.

Lemma state_of_insert l cur a s b :
  (a < length l)%nat ->
  state_of (mkManager (<[a := s]> l) cur) b
  = if decide (b = a) then Some (state s) else state <$> l !! b.
Proof.
  intros Hlt. unfold state_of. cbn [sessions].
  destruct (decide (b = a)) as [-> | Hne].
  - now rewrite list_lookup_insert_eq.
  - now rewrite list_lookup_insert_ne by congruence.
Qed.

Lemma stop_session_state m a b :
  state_of (_stop_session m a) b
  = match state_of m b with
    | Some st => Some (if decide (b = a) then STOPPED else st)
    | None => None
    end
  /\ current_session (_stop_session m a) = current_session m
  /\ length (sessions (_stop_session m a)) = length (sessions m).
Proof.
  unfold _stop_session.
  destruct (sessions m !! a) as [s |] eqn:Hs.
  - assert (Hlt : (a < length (sessions m))%nat)
      by (eapply lookup_lt_Some; exact Hs).
    destruct (SessionState_eqb (state s) STOPPED) eqn:Est.
    + repeat split. unfold state_of.
      destruct (sessions m !! b) as [sb |] eqn:Hb; [| reflexivity]. simpl.
      destruct (decide (b = a)) as [-> | _]; [| reflexivity].
      rewrite Hs in Hb. injection Hb as <-.
      destruct (state s); try discriminate. reflexivity.
    + cbn [current_session sessions]. rewrite length_insert.
      repeat split. rewrite state_of_insert by exact Hlt.
      unfold state_of. destruct (decide (b = a)) as [-> | _].
      * now rewrite Hs.
      * now destruct (sessions m !! b).
  - repeat split. unfold state_of.
    destruct (sessions m !! b) as [sb |] eqn:Hb; [| reflexivity]. simpl.
    destruct (decide (b = a)) as [-> | _]; [congruence | reflexivity].
Qed.

Lemma start_session_state m a b :
  state_of (start_session m a) b
  = match state_of m b with
    | Some st =>
        Some (if decide (b = a)
              then match st with CREATED => ACTIVE | _ => st end
              else st)
    | None => None
    end
  /\ current_session (start_session m a) = current_session m.
Proof.
  unfold start_session.
  destruct (sessions m !! a) as [s |] eqn:Hs.
  - assert (Hlt : (a < length (sessions m))%nat)
      by (eapply lookup_lt_Some; exact Hs).
    destruct (negb (SessionState_eqb (state s) CREATED)) eqn:Est.
    + split; [| reflexivity]. unfold state_of.
      destruct (sessions m !! b) as [sb |] eqn:Hb; [| reflexivity]. simpl.
      destruct (decide (b = a)) as [-> | _]; [| reflexivity].
      rewrite Hs in Hb. injection Hb as <-.
      destruct (state s); try discriminate; reflexivity.
    + split; [| reflexivity]. rewrite state_of_insert by exact Hlt.
      unfold state_of. destruct (decide (b = a)) as [-> | _].
      * rewrite Hs. simpl. destruct (state s); try discriminate. reflexivity.
      * now destruct (sessions m !! b).
  - split; [| reflexivity]. unfold state_of.
    destruct (sessions m !! b) as [sb |] eqn:Hb; [| reflexivity]. simpl.
    destruct (decide (b = a)) as [-> | _]; [congruence | reflexivity].
Qed.

Lemma update_session_state m a f b :
  (forall s, state (f s) = state s) ->
  state_of (update_session m a f) b = state_of m b
  /\ current_session (update_session m a f) = current_session m.
Proof.
  intros Hf. unfold update_session.
  destruct (sessions m !! a) as [s |] eqn:Hs; [| now split].
  split; [| reflexivity].
  rewrite state_of_insert by (eapply lookup_lt_Some; exact Hs).
  unfold state_of. destruct (decide (b = a)) as [-> | _]; [| reflexivity].
  rewrite Hs. simpl. now rewrite Hf.
Qed.

Lemma create_session_state m sid md b :
  state_of (fst (create_session m sid md)) b
  = (if decide (b = length (sessions m)) then Some CREATED
     else state_of (before_create m) b)
  /\ current_session (fst (create_session m sid md))
     = Some (length (sessions m))
  /\ snd (create_session m sid md) = length (sessions m)
  /\ length (sessions (before_create m)) = length (sessions m).
Proof.
  assert (Hlen : length (sessions (before_create m)) = length (sessions m)).
  { unfold before_create. destruct (current_session m) as [a |]; [| reflexivity].
    destruct (state_of m a) as [[] |]; try reflexivity.
    apply stop_session_state; exact 0%nat. }
  unfold create_session. fold (before_create m). cbn [fst snd current_session].
  rewrite Hlen. repeat split. unfold state_of at 1. cbn [sessions].
  destruct (decide (b = length (sessions m))) as [-> | Hne].
  - rewrite lookup_app_r by lia. rewrite Hlen, Nat.sub_diag. reflexivity.
  - destruct (Nat.lt_ge_cases b (length (sessions m))) as [Hlt | Hge].
    + rewrite lookup_app_l by lia. reflexivity.
    + unfold state_of.
      rewrite (lookup_ge_None_2 (sessions (before_create m)) b) by lia.
      rewrite lookup_app_r by lia. rewrite Hlen.
      destruct (b - length (sessions m))%nat as [| k] eqn:Ek; [lia |].
      reflexivity.
Qed.

Lemma before_create_state m b :
  state_of (before_create m) b
  = match state_of m b with
    | Some st =>
        Some (if decide (current_session m = Some b)
              then match st with ACTIVE => STOPPED | _ => st end
              else st)
    | None => None
    end.
Proof.
  unfold before_create. destruct (current_session m) as [a |].
  - destruct (state_of m a) as [sta |] eqn:Ha.
    + destruct sta;
        try (destruct (state_of m b) as [st |] eqn:Hb; [| reflexivity];
             destruct (decide (Some a = Some b)) as [E | _]; [| reflexivity];
             injection E as ->; rewrite Ha in Hb; injection Hb as <-;
             reflexivity).
      destruct (stop_session_state m a b) as [-> _].
      destruct (state_of m b) as [st |] eqn:Hb; [| reflexivity].
      destruct (decide (b = a)) as [-> | Hne].
      * rewrite Ha in Hb. injection Hb as <-.
        destruct (decide (Some a = Some a)); [reflexivity | congruence].
      * destruct (decide (Some a = Some b)); [congruence | reflexivity].
    + destruct (state_of m b) as [st |] eqn:Hb; [| reflexivity].
      destruct (decide (Some a = Some b)) as [E | _]; [| reflexivity].
      injection E as ->. congruence.
  - destruct (state_of m b); [| reflexivity].
    destruct (decide (None = Some b)); [discriminate | reflexivity].
Qed.

Lemma destroy_session_state m sid :
  (destroy_session m sid = m
   \/ exists a, current_session m = Some a
        /\ destroy_session m sid = mkManager (sessions (_stop_session m a)) None).
Proof.
  unfold destroy_session. destruct (current_session m) as [a |]; [| now left].
  destruct (sessions m !! a) as [s |]; [| now left].
  destruct (str_eqb (session_id s) sid); [| now left].
  right. now exists a.
Qed.

(** One call moves every session forward in its lifecycle or leaves it. *)
Lemma call_forward m c a st :
  state_of m a = Some st ->
  exists st', state_of (call m c) a = Some st' /\ forward st st'.
Proof.
  intros Hst. destruct c as [[sid md | b | b | sid] | b md | b e | b p | b w |];
    cbn [call step].
  - destruct (create_session_state m sid md a) as (-> & _).
    assert (Hlt : (a < length (sessions m))%nat).
    { unfold state_of in Hst. destruct (sessions m !! a) eqn:E; [| discriminate].
      eapply lookup_lt_Some; exact E. }
    destruct (decide (a = length (sessions m))); [lia |].
    rewrite before_create_state, Hst.
    eexists; split; [reflexivity |].
    destruct (decide (current_session m = Some a)); [| apply forward_refl].
    destruct st; try apply forward_refl. right. now left.
  - destruct (start_session_state m b a) as [-> _]. rewrite Hst.
    eexists; split; [reflexivity |].
    destruct (decide (a = b)); [| apply forward_refl].
    destruct st; try apply forward_refl. right. right. now split.
  - unfold stop_session.
    destruct (stop_session_state m b a) as [-> _]. rewrite Hst.
    eexists; split; [reflexivity |].
    destruct (decide (a = b)); [right; now left | apply forward_refl].
  - destruct (destroy_session_state m sid) as [-> | (b & _ & ->)].
    + exists st. split; [exact Hst | apply forward_refl].
    + rewrite (state_of_sessions _ (_stop_session m b)) by reflexivity.
      destruct (stop_session_state m b a) as [-> _]. rewrite Hst.
      eexists; split; [reflexivity |].
      destruct (decide (a = b)); [right; now left | apply forward_refl].
  - destruct (update_session_state m b
                (fun s => mkSession (session_id s) (state s) md
                            (hints_enabled s) (custom_prompt s)
                            (knowledge_workspace s) (mic_queue s)
                            (system_queue s) (stats s)) a) as [E _];
      [reflexivity |].
    unfold set_mode. rewrite E. exists st. split; [exact Hst | apply forward_refl].
  - destruct (update_session_state m b
                (fun s => mkSession (session_id s) (state s) (mode s) e
                            (custom_prompt s) (knowledge_workspace s)
                            (mic_queue s) (system_queue s) (stats s)) a)
      as [E _]; [reflexivity |].
    unfold set_hints_enabled. rewrite E.
    exists st. split; [exact Hst | apply forward_refl].
  - destruct (update_session_state m b
                (fun s => mkSession (session_id s) (state s) (mode s)
                            (hints_enabled s) (Some p) (knowledge_workspace s)
                            (mic_queue s) (system_queue s) (stats s)) a)
      as [E _]; [reflexivity |].
    unfold set_custom_prompt. rewrite E.
    exists st. split; [exact Hst | apply forward_refl].
  - destruct (update_session_state m b
                (fun s => mkSession (session_id s) (state s) (mode s)
                            (hints_enabled s) (custom_prompt s) (Some w)
                            (mic_queue s) (system_queue s) (stats s)) a)
      as [E _]; [reflexivity |].
    unfold set_knowledge_workspace. rewrite E.
    exists st. split; [exact Hst | apply forward_refl].
  - unfold shutdown. destruct (current_session m) as [b |].
    + rewrite (state_of_sessions _ (_stop_session m b)) by reflexivity.
      destruct (stop_session_state m b a) as [-> _]. rewrite Hst.
      eexists; split; [reflexivity |].
      destruct (decide (a = b)); [right; now left | apply forward_refl].
    + exists st. split; [exact Hst | apply forward_refl].
Qed.

Lemma run_calls_forward calls : forall m a st,
  state_of m a = Some st ->
  exists st', state_of (run_calls m calls) a = Some st' /\ forward st st'.
Proof.
  induction calls as [| c calls IH]; intros m a st Hst.
  - exists st. split; [exact Hst | apply forward_refl].
  - destruct (call_forward m c a st Hst) as (st1 & H1 & F1).
    destruct (IH (call m c) a st1 H1) as (st2 & H2 & F2).
    exists st2. split; [exact H2 | eapply forward_trans; eassumption].
Qed.

(** X14. Whatever the manager is asked to do, in whatever order, a
    session object stays in the store and its lifecycle only moves
    forward, CREATED to ACTIVE to STOPPED; in particular a STOPPED session
    stays STOPPED: nothing restarts it. *)
Theorem session_lifecycle_moves_forward (m : SessionManager)
    (calls : list Call) (a : nat) (st : SessionState) :
  state_of m a = Some st ->
  exists st',
    state_of (run_calls m calls) a = Some st'
    /\ forward st st'
    /\ (st = STOPPED -> st' = STOPPED).
Proof.
  intros Hst. destruct (run_calls_forward calls m a st Hst) as (st' & H & F).
  exists st'. split; [exact H |]. split; [exact F |].
  intros ->. destruct F as [-> | [-> | [E _]]]; congruence.
Qed.

Lemma session_lifecycle_moves_forward_witness :
  exists st',
    state_of (run_calls (run_ops two_clients) one_at_a_time) 0 = Some st'
    /\ forward ACTIVE st'
    /\ (ACTIVE = STOPPED -> st' = STOPPED).
Proof.
  apply (session_lifecycle_moves_forward (run_ops two_clients) one_at_a_time
           0 ACTIVE).
  vm_compute. reflexivity.
Defined.

Lemma set_mode_state m a md b :
  state_of (set_mode m a md) b = state_of m b
  /\ current_session (set_mode m a md) = current_session m.
Proof. apply update_session_state. reflexivity. Qed.

Lemma set_hints_enabled_state m a e b :
  state_of (set_hints_enabled m a e) b = state_of m b
  /\ current_session (set_hints_enabled m a e) = current_session m.
Proof. apply update_session_state. reflexivity. Qed.

Lemma set_custom_prompt_state m a p b :
  state_of (set_custom_prompt m a p) b = state_of m b
  /\ current_session (set_custom_prompt m a p) = current_session m.
Proof. apply update_session_state. reflexivity. Qed.

Lemma set_knowledge_workspace_state m a w b :
  state_of (set_knowledge_workspace m a w) b = state_of m b
  /\ current_session (set_knowledge_workspace m a w) = current_session m.
Proof. apply update_session_state. reflexivity. Qed.

Lemma state_of_None_length m a :
  state_of m a = None <-> (length (sessions m) <= a)%nat.
Proof.
  unfold state_of. rewrite <- lookup_ge_None.
  destruct (sessions m !! a); simpl; split; congruence.
Qed.

Lemma call_new m c a :
  state_of m a = None ->
  state_of (call m c) a = None \/ state_of (call m c) a = Some CREATED.
Proof.
  intros Hn. destruct c as [[sid md | b | b | sid] | b md | b e | b p | b w |];
    cbn [call step].
  - destruct (create_session_state m sid md a) as (-> & _).
    destruct (decide (a = length (sessions m))); [now right |].
    left. now rewrite before_create_state, Hn.
  - destruct (start_session_state m b a) as [-> _]. left. now rewrite Hn.
  - unfold stop_session. destruct (stop_session_state m b a) as [-> _].
    left. now rewrite Hn.
  - destruct (destroy_session_state m sid) as [-> | (b & _ & ->)];
      [now left |].
    rewrite (state_of_sessions _ (_stop_session m b)) by reflexivity.
    destruct (stop_session_state m b a) as [-> _]. left. now rewrite Hn.
  - left. now rewrite (proj1 (set_mode_state m b md a)).
  - left. now rewrite (proj1 (set_hints_enabled_state m b e a)).
  - left. now rewrite (proj1 (set_custom_prompt_state m b p a)).
  - left. now rewrite (proj1 (set_knowledge_workspace_state m b w a)).
  - unfold shutdown. destruct (current_session m) as [b |]; [| now left].
    rewrite (state_of_sessions _ (_stop_session m b)) by reflexivity.
    destruct (stop_session_state m b a) as [-> _]. left. now rewrite Hn.
Qed.

Lemma run_calls_never_paused calls : forall m,
  (forall a, state_of m a <> Some PAUSED) ->
  forall a, state_of (run_calls m calls) a <> Some PAUSED.
Proof.
  induction calls as [| c calls IH]; intros m Hm; [exact Hm |].
  simpl. apply IH. intros a Ha.
  destruct (state_of m a) as [st |] eqn:Hst.
  - destruct (call_forward m c a st Hst) as (st' & H & F).
    rewrite H in Ha. injection Ha as ->.
    destruct F as [<- | [E | [_ E]]]; try discriminate.
    now apply (Hm a).
  - destruct (call_new m c a Hst) as [E | E]; rewrite E in Ha; discriminate.
Qed.

(** X15. No call of the manager ever puts a session in state PAUSED:
    in every run from a new manager every session is CREATED, ACTIVE or
    STOPPED (pausing hints is a flag of the session, not a state). *)
Theorem sessions_never_paused (calls : list Call) (a : nat) :
  state_of (run_calls new_manager calls) a <> Some PAUSED.
Proof.
  apply run_calls_never_paused. intros b. discriminate.
Qed.

Lemma filter_at_most_one {A} (P : A -> bool) (l : list A) :
  (forall i j x y, l !! i = Some x -> l !! j = Some y ->
                   P x = true -> P y = true -> i = j) ->
  (length (List.filter P l) <= 1)%nat.
Proof.
  induction l as [| x l IH]; intros Huniq; [simpl; lia |].
  simpl. destruct (P x) eqn:Px.
  - assert (Hnone : List.filter P l = []).
    { destruct (List.filter P l) as [| y r] eqn:Ef; [reflexivity |].
      assert (Hy : In y (List.filter P l)) by (rewrite Ef; now left).
      apply List.filter_In in Hy as [Hin Py].
      apply list_elem_of_In, list_elem_of_lookup in Hin as [j Hj].
      specialize (Huniq 0%nat (S j) x y eq_refl Hj Px Py). discriminate. }
    rewrite Hnone. simpl. lia.
  - apply IH. intros i j a b Hi Hj Pa Pb.
    specialize (Huniq (S i) (S j) a b Hi Hj Pa Pb). lia.
Qed.

Lemma active_is_current_count m :
  active_is_current m -> (count_active m <= 1)%nat.
Proof.
  intros HJ. unfold count_active. apply filter_at_most_one.
  intros i j x y Hi Hj Px Py.
  assert (Hx : state x = ACTIVE) by (destruct (state x); now try discriminate).
  assert (Hy : state y = ACTIVE) by (destruct (state y); now try discriminate).
  assert (Ei : current_session m = Some i)
    by (apply HJ; unfold state_of; rewrite Hi; simpl; congruence).
  assert (Ej : current_session m = Some j)
    by (apply HJ; unfold state_of; rewrite Hj; simpl; congruence).
  congruence.
Qed.

Lemma call_active_is_current m c :
  active_is_current m ->
  match c with
  | Basic (StartSession a) => current_session m = Some a
  | _ => True
  end ->
  active_is_current (call m c).
Proof.
  intros HJ Hstart b Hact.
  destruct c as [[sid md | a | a | sid] | a md | a e | a p | a w |];
    cbn [call step] in *.
  - destruct (create_session_state m sid md b) as (E & _).
    rewrite E in Hact.
    destruct (decide (b = length (sessions m))); [discriminate |].
    rewrite before_create_state in Hact.
    destruct (state_of m b) as [st |] eqn:Hst; [| discriminate].
    destruct (decide (current_session m = Some b)) as [Hc | Hc].
    + destruct st; discriminate.
    + injection Hact as ->. exfalso. apply Hc. now apply HJ.
  - destruct (start_session_state m a b) as [E ->]. rewrite E in Hact.
    destruct (state_of m b) as [st |] eqn:Hst; [| discriminate].
    destruct (decide (b = a)) as [-> | _]; [exact Hstart |].
    injection Hact as ->. now apply HJ.
  - unfold stop_session in *.
    destruct (stop_session_state m a b) as (E & -> & _). rewrite E in Hact.
    destruct (state_of m b) as [st |] eqn:Hst; [| discriminate].
    destruct (decide (b = a)); [discriminate |].
    injection Hact as ->. now apply HJ.
  - destruct (destroy_session_state m sid) as [E | (a & Hc & E)];
      rewrite E in *; [now apply HJ |].
    rewrite (state_of_sessions _ (_stop_session m a)) in Hact by reflexivity.
    destruct (stop_session_state m a b) as (E' & _). rewrite E' in Hact.
    destruct (state_of m b) as [st |] eqn:Hst; [| discriminate].
    destruct (decide (b = a)) as [-> | Hne]; [discriminate |].
    injection Hact as ->. exfalso. apply Hne.
    assert (Hb : current_session m = Some b) by now apply HJ. congruence.
  - destruct (set_mode_state m a md b) as [E ->].
    rewrite E in Hact. now apply HJ.
  - destruct (set_hints_enabled_state m a e b) as [E ->].
    rewrite E in Hact. now apply HJ.
  - destruct (set_custom_prompt_state m a p b) as [E ->].
    rewrite E in Hact. now apply HJ.
  - destruct (set_knowledge_workspace_state m a w b) as [E ->].
    rewrite E in Hact. now apply HJ.
  - unfold shutdown in *. destruct (current_session m) as [a |] eqn:Hc.
    + rewrite (state_of_sessions _ (_stop_session m a)) in Hact by reflexivity.
      destruct (stop_session_state m a b) as (E' & _). rewrite E' in Hact.
      destruct (state_of m b) as [st |] eqn:Hst; [| discriminate].
      destruct (decide (b = a)) as [-> | Hne]; [discriminate |].
      injection Hact as ->. exfalso. apply Hne.
      pose proof (HJ b Hst) as Hb. congruence.
    + specialize (HJ b Hact). congruence.
Qed.

Lemma run_active_is_current calls : forall m,
  active_is_current m -> starts_current m calls ->
  active_is_current (run_calls m calls).
Proof.
  induction calls as [| c calls IH]; intros m HJ Hs; [exact HJ |].
  destruct Hs as [Hc Hrest]. simpl. apply IH; [| exact Hrest].
  now apply call_active_is_current.
Qed.

(** X16. When [start_session] is only ever called on the session that is
    current at that moment (one connection at a time), at most one
    session is ACTIVE after any run of calls, and it is the current one. *)
Theorem one_active_when_starts_are_current (calls : list Call) :
  starts_current new_manager calls ->
  (count_active (run_calls new_manager calls) <= 1)%nat
  /\ active_is_current (run_calls new_manager calls).
Proof.
  intros Hs.
  assert (HJ : active_is_current (run_calls new_manager calls)).
  { apply run_active_is_current; [| exact Hs].
    intros a Ha. discriminate. }
  split; [now apply active_is_current_count | exact HJ].
Qed.

Lemma one_active_when_starts_are_current_witness :
  (count_active (run_calls new_manager one_at_a_time) <= 1)%nat
  /\ active_is_current (run_calls new_manager one_at_a_time).
Proof.
  apply (one_active_when_starts_are_current one_at_a_time).
  vm_compute. tauto.
Defined.

Lemma str_eqb_refl (s : str) : str_eqb s s = true.
Proof.
  induction s as [| c s IH]; [reflexivity |].
  simpl. now rewrite N.eqb_refl.
Qed.

(** X17. A session just created is the one [get_session] finds under its
    id, in state CREATED with the mode asked for and the defaults;
    destroying it by id stops it and leaves no session to be found. *)
Theorem create_get_destroy (m : SessionManager) (sid : str)
    (md : SessionMode) :
  let '(m1, a) := create_session m sid md in
  get_session m1 sid = Some a
  /\ sessions m1 !! a = Some (new_session sid md)
  /\ get_session (destroy_session m1 sid) sid = None
  /\ current_session (destroy_session m1 sid) = None
  /\ state_of (destroy_session m1 sid) a = Some STOPPED.
Proof.
  destruct (create_session_state m sid md (length (sessions m)))
    as (_ & Hcur & Hsnd & Hlen).
  assert (Hlook : sessions (fst (create_session m sid md))
                    !! length (sessions m) = Some (new_session sid md)).
  { unfold create_session. fold (before_create m). cbn [fst sessions].
    rewrite lookup_app_r by lia. now rewrite Hlen, Nat.sub_diag. }
  destruct (create_session m sid md) as [m1 a]. cbn [fst snd] in *. subst a.
  assert (Hget : get_session m1 sid = Some (length (sessions m))).
  { unfold get_session. rewrite Hcur, Hlook. simpl.
    now rewrite str_eqb_refl. }
  assert (Hd : destroy_session m1 sid
               = mkManager (sessions (_stop_session m1 (length (sessions m))))
                           None).
  { unfold destroy_session. rewrite Hcur, Hlook. simpl.
    now rewrite str_eqb_refl. }
  repeat split; try assumption.
  - rewrite Hd. reflexivity.
  - rewrite Hd. reflexivity.
  - rewrite Hd.
    rewrite (state_of_sessions _ (_stop_session m1 (length (sessions m))))
      by reflexivity.
    destruct (stop_session_state m1 (length (sessions m))
                (length (sessions m))) as [-> _].
    unfold state_of. rewrite Hlook. simpl.
    destruct (decide (length (sessions m) = length (sessions m)));
      [reflexivity | congruence].
Qed.

End SessionManagerInvariants.

(* ===================================================================== *)
(** ** services/llm_service.py: what a run publishes and counts *)

Module LLMInvariants.
Import PyStr SessionModel Events LLM LLMHandlers.

Lemma with_counts_0 sess : with_counts sess 0 0 = sess.
Proof.
  destruct sess as [sid st md he cp kw mq sq [a b c d e f g h]].
  unfold with_counts, set_stats. cbn. now rewrite !Z.add_0_r.
Qed.

Lemma with_counts_add sess a b c d :
  with_counts (with_counts sess a b) c d = with_counts sess (a + c) (b + d).
Proof.
  destruct sess as [sid st md he cp kw mq sq sts].
  unfold with_counts, set_stats. cbn. now rewrite !Z.add_assoc.
Qed.

Lemma incr_hints_generated_counts sess :
  incr_hints_generated sess = with_counts sess 1 0.
Proof.
  destruct sess as [sid st md he cp kw mq sq [a b c d e f g h]].
  unfold with_counts, incr_hints_generated, set_stats. cbn.
  now rewrite Z.add_0_r.
Qed.

Lemma incr_llm_errors_counts sess :
  incr_llm_errors sess = with_counts sess 0 1.
Proof.
  destruct sess as [sid st md he cp kw mq sq [a b c d e f g h]].
  unfold with_counts, incr_llm_errors, set_stats. cbn.
  now rewrite Z.add_0_r.
Qed.

Section Runs.
Variable isdigit : char -> bool.
Variable parse_token : str -> option str.

Local Abbreviation stream_loop := (LLM.stream_loop parse_token).
Local Abbreviation generate_body := (LLM.generate_body isdigit parse_token).
Local Abbreviation _generate_hint := (LLM._generate_hint isdigit parse_token).
Local Abbreviation _format_hint := (LLM._format_hint isdigit).

(** The loop publishes tokens only, each non-empty and under the id of its
    request, and collects exactly their concatenation. *)
Lemma stream_loop_tokens sess h failure items : forall svc text svc' text' evs e,
  stream_loop sess h failure items svc text = (svc', text', evs, e) ->
  exists toks,
    evs = map (HINT_TOKEN h) toks
    /\ text' = text ++ List.concat toks
    /\ Forall (fun t => t <> []) toks.
Proof.
  induction items as [| item items IH]; intros svc text svc' text' evs e E.
  - cbn [LLM.stream_loop] in E. injection E as <- <- <- _. exists []. simpl.
    now rewrite app_nil_r.
  - destruct item as [line | chunk | chunk]; cbn [LLM.stream_loop] in E.
    + destruct (_cancel_event svc).
      { injection E as <- <- <- _. exists []. simpl. now rewrite app_nil_r. }
      destruct (match line with [] => true | _ => false end
                || negb (startswith line (u "data: "))).
      { eapply IH; exact E. }
      destruct (str_eqb (skipn 6 line) (u "[DONE]")).
      { injection E as <- <- <- _. exists []. simpl. now rewrite app_nil_r. }
      destruct (parse_token (skipn 6 line)) as [[| c token'] |].
      * eapply IH; exact E.
      * destruct (LLM.stream_loop parse_token sess h failure items svc
                    (text ++ c :: token')) as [[[s1 t1] ev1] e1] eqn:E1.
        injection E as <- <- <- <-.
        destruct (IH _ _ _ _ _ _ E1) as (toks & -> & -> & Hne).
        exists ((c :: token') :: toks). simpl.
        rewrite <- app_assoc. split; [reflexivity |]. split; [reflexivity |].
        constructor; [discriminate | exact Hne].
      * eapply IH; exact E.
    + eapply IH; exact E.
    + eapply IH; exact E.
Qed.

(** What one request publishes: its tokens, then at most one closing
    event. *)
Lemma generate_body_shape sess svc h up :
  let '(sess', svc', evs) := generate_body sess svc h up in
  exists toks tail,
    evs = map (HINT_TOKEN h) toks ++ tail
    /\ Forall (fun t => t <> []) toks
    /\ ((tail = [] /\ sess' = sess)
        \/ (tail = [HINT_COMPLETED h (_format_hint (List.concat toks))
                                   (mode sess)]
            /\ List.concat toks <> []
            /\ sess' = incr_hints_generated sess)
        \/ (exists msg, tail = [LLM_ERROR msg]
                        /\ sess' = incr_llm_errors sess)).
Proof.
  destruct up as [items msg | status_code items failure];
    cbn [LLM.generate_body].
  - exists [], [LLM_ERROR msg]. repeat split; [constructor |].
    right. right. now exists msg.
  - destruct (negb (status_code =? 200)).
    + cbv zeta. destruct failure as [msg |].
      * exists [], [LLM_ERROR msg]. repeat split; [constructor |].
        right. right. now exists msg.
      * exists [], []. repeat split; [constructor | now left].
    + destruct (LLM.stream_loop parse_token sess h failure items svc [])
        as [[[svc1 text1] evs1] e1] eqn:E1.
      destruct (stream_loop_tokens _ _ _ _ _ _ _ _ _ _ E1)
        as (toks & -> & -> & Hne).
      cbv zeta. cbn [app]. destruct e1 as [| | msg].
      * exists toks, []. rewrite app_nil_r. repeat split; [exact Hne | now left].
      * destruct (List.concat toks) as [| c r] eqn:Ec.
        { exists toks, []. rewrite app_nil_r.
          repeat split; [exact Hne | now left]. }
        destruct (negb (_cancel_event svc1)).
        2: { exists toks, []. rewrite app_nil_r.
             repeat split; [exact Hne | now left]. }
        exists toks, [HINT_COMPLETED h (_format_hint (c :: r)) (mode sess)].
        rewrite Ec. repeat split; [exact Hne |].
        right. left. repeat split. discriminate.
      * exists toks, [LLM_ERROR msg]. repeat split; [exact Hne |].
        right. right. now exists msg.
Qed.

Lemma count_events_app kind evs1 evs2 :
  count_events kind (evs1 ++ evs2)
  = count_events kind evs1 + count_events kind evs2.
Proof.
  unfold count_events. rewrite List.filter_app, length_app. lia.
Qed.

Lemma count_events_tokens kind h toks :
  kind (HINT_TOKEN h []) = false ->
  (forall t, kind (HINT_TOKEN h t) = kind (HINT_TOKEN h [])) ->
  count_events kind (map (HINT_TOKEN h) toks) = 0.
Proof.
  intros H0 Hall. unfold count_events.
  induction toks as [| t toks IH]; [reflexivity |].
  simpl. rewrite Hall, H0. exact IH.
Qed.

(** One request raises the two counters by the closing events it
    publishes and leaves the rest of the session alone. *)
Lemma generate_body_counts sess svc h up :
  fst (fst (generate_body sess svc h up))
  = with_counts sess
      (count_events is_completed (snd (generate_body sess svc h up)))
      (count_events is_error (snd (generate_body sess svc h up))).
Proof.
  pose proof (generate_body_shape sess svc h up) as H.
  destruct (LLM.generate_body isdigit parse_token sess svc h up)
    as [[sess' svc'] evs].
  destruct H as (toks & tail & -> & _ & Htail). cbn [fst snd].
  rewrite !count_events_app.
  rewrite !count_events_tokens by reflexivity.
  destruct Htail as [[-> ->] | [(-> & _ & ->) | (msg & -> & ->)]];
    unfold count_events; cbn [List.filter is_completed is_error length].
  - symmetry. apply with_counts_0.
  - apply incr_hints_generated_counts.
  - apply incr_llm_errors_counts.
Qed.

Lemma generate_hint_counts requests : forall sess svc chunk sess' svc' evs,
  _generate_hint sess svc chunk requests = Some (sess', svc', evs) ->
  sess' = with_counts sess (count_events is_completed evs)
                      (count_events is_error evs).
Proof.
  induction requests as [| [h up] later IH];
    intros sess svc chunk sess' svc' evs E; [discriminate |].
  cbn [LLM._generate_hint] in E.
  pose proof (generate_body_counts sess
                (mkService (_running svc) true false (Some h)
                           (_pending_chunk svc)) h up) as H1.
  destruct (LLM.generate_body isdigit parse_token sess
              (mkService (_running svc) true false (Some h)
                         (_pending_chunk svc)) h up)
    as [[sess1 svc1] evs1].
  cbn [fst snd _pending_chunk _running _cancel_event] in *.
  destruct (_pending_chunk svc1) as [next |].
  - destruct (LLM._generate_hint isdigit parse_token sess1 _ next later)
      as [[[sess4 svc4] evs4] |] eqn:E4; [| discriminate].
    injection E as <- <- <-.
    rewrite (IH _ _ _ _ _ _ E4), H1, with_counts_add, !count_events_app.
    reflexivity.
  - injection E as <- <- <-. exact H1.
Qed.

(** X18. The counters of the session follow the events: however the
    upstream behaves and whatever arrives meanwhile, when the handling of
    a chunk is over the session is the one it began with, with
    [hints_generated] raised by the number of HINT_COMPLETED events
    published and [llm_errors] by the number of LLM_ERROR events
    published, and with nothing else changed, no other counter either. *)
Theorem counters_follow_events (sess : Session) (svc : LLMService)
    (chunk : TextChunk) (requests : list (str * Upstream))
    (sess' : Session) (svc' : LLMService) (evs : list Event) :
  _on_chunk isdigit parse_token sess svc chunk requests
  = Some (sess', svc', evs) ->
  sess' = with_counts sess (count_events is_completed evs)
                      (count_events is_error evs).
Proof.
  unfold _on_chunk. destruct (negb (hints_enabled sess)).
  { intros E. injection E as <- <- <-. symmetry. apply with_counts_0. }
  destruct (_generating svc).
  { intros E. injection E as <- <- <-. symmetry. apply with_counts_0. }
  apply generate_hint_counts.
Qed.

Lemma on_chunk_generating_same sess items : forall svc,
  lines_only items = items ->
  read_body sess items svc = svc /\ late_arrivals sess items svc = svc.
Proof.
  unfold read_body, late_arrivals.
  induction items as [| item items IH]; intros svc Hq; [now split |].
  destruct item as [line | chunk | chunk].
  - cbn [lines_only List.filter] in Hq. injection Hq as Hq.
    cbn [fold_left]. now apply IH.
  - exfalso. cbn [lines_only List.filter] in Hq.
    assert (Hl : (length (lines_only items) <= length items)%nat)
      by apply List.filter_length_le.
    apply (f_equal (@length _)) in Hq. cbn [length] in Hq.
    unfold lines_only in Hl. lia.
  - exfalso. cbn [lines_only List.filter] in Hq.
    assert (Hl : (length (lines_only items) <= length items)%nat)
      by apply List.filter_length_le.
    apply (f_equal (@length _)) in Hq. cbn [length] in Hq.
    unfold lines_only in Hl. lia.
Qed.

Lemma stream_loop_quiet sess h failure items : forall svc text,
  lines_only items = items ->
  fst (fst (fst (stream_loop sess h failure items svc text))) = svc.
Proof.
  induction items as [| item items IH]; intros svc text Hq; [reflexivity |].
  assert (Hl : (length (lines_only items) <= length items)%nat)
    by apply List.filter_length_le.
  destruct item as [line | chunk | chunk];
    cbn [lines_only List.filter] in Hq;
    try (exfalso; apply (f_equal (@length _)) in Hq; cbn [length] in Hq;
         unfold lines_only in Hl; lia).
  injection Hq as Hq. cbn [LLM.stream_loop].
  destruct (_cancel_event svc);
    [cbn [fst]; now apply on_chunk_generating_same |].
  destruct (match line with [] => true | _ => false end
            || negb (startswith line (u "data: "))); [now apply IH |].
  destruct (str_eqb (skipn 6 line) (u "[DONE]"));
    [cbn [fst]; now apply on_chunk_generating_same |].
  destruct (parse_token (skipn 6 line)) as [[| c token'] |];
    try now apply IH.
  specialize (IH svc (text ++ c :: token') Hq).
  destruct (LLM.stream_loop parse_token sess h failure items svc
              (text ++ c :: token')) as [[[s1 t1] ev1] e1].
  exact IH.
Qed.

(** A request during which no chunk arrives leaves no chunk pending
    unless one was. *)
Lemma generate_body_quiet sess svc h up :
  quiet up ->
  _pending_chunk (snd (fst (generate_body sess svc h up)))
  = _pending_chunk svc.
Proof.
  intros Hq. destruct up as [items msg | status_code items failure];
    cbn [quiet] in Hq; cbn [LLM.generate_body].
  - cbn [fst snd].
    destruct (on_chunk_generating_same sess items svc Hq) as [-> ->].
    reflexivity.
  - destruct (negb (status_code =? 200)).
    + cbv zeta.
      destruct (on_chunk_generating_same sess items svc Hq) as [-> ->].
      now destruct failure.
    + pose proof (stream_loop_quiet sess h failure items svc [] Hq) as H.
      destruct (LLM.stream_loop parse_token sess h failure items svc [])
        as [[[svc1 text1] evs1] e1].
      cbn [fst] in H. subst svc1. cbv zeta.
      destruct (on_chunk_generating_same sess items svc Hq) as [_ ->].
      destruct e1; [reflexivity | | reflexivity].
      destruct text1; [reflexivity |].
      now destruct (negb (_cancel_event svc)).
Qed.

(** The handling returns whenever nothing arrives during the last request
    of the script. *)
Lemma generate_hint_returns requests : forall sess svc chunk,
  _pending_chunk svc = None ->
  requests <> [] ->
  (forall d, quiet (snd (List.last requests d))) ->
  exists result, _generate_hint sess svc chunk requests = Some result.
Proof.
  induction requests as [| [h up] later IH];
    intros sess svc chunk Hp Hne Hlast; [congruence |].
  cbn [LLM._generate_hint].
  pose proof (generate_body_quiet sess
                (mkService (_running svc) true false (Some h)
                           (_pending_chunk svc)) h up) as Hq.
  destruct (LLM.generate_body isdigit parse_token sess
              (mkService (_running svc) true false (Some h)
                         (_pending_chunk svc)) h up)
    as [[sess1 svc1] evs1].
  cbn [fst snd _pending_chunk _running _cancel_event] in *.
  destruct (_pending_chunk svc1) as [next |] eqn:E1;
    [| eexists; reflexivity].
  destruct later as [| req later'].
  - exfalso. specialize (Hlast (h, up)). cbn [List.last snd] in Hlast.
    specialize (Hq Hlast). congruence.
  - destruct (IH sess1 (mkService (_running svc1) false (_cancel_event svc1)
                                  None None) next eq_refl)
      as [[[sess4 svc4] evs4] E4]; [discriminate | | ].
    + intros d. exact (Hlast d).
    + rewrite E4. eexists; reflexivity.
Qed.










Lemma on_chunk_generating_meeting sess svc chunk :
  mode sess = MEETING_ASSISTANT ->
  _cancel_event (on_chunk_generating sess svc chunk) = _cancel_event svc.
Proof.
  intros Hm. unfold on_chunk_generating. rewrite Hm.
  now destruct (negb (hints_enabled sess)).
Qed.

Lemma read_body_meeting sess items : forall svc,
  mode sess = MEETING_ASSISTANT ->
  _cancel_event (read_body sess items svc) = _cancel_event svc.
Proof.
  unfold read_body.
  induction items as [| item items IH]; intros svc Hm; [reflexivity |].
  destruct item as [line | chunk | chunk]; cbn [fold_left];
    try now apply IH.
  rewrite IH by exact Hm. now apply on_chunk_generating_meeting.
Qed.

Lemma late_arrivals_meeting sess items : forall svc,
  mode sess = MEETING_ASSISTANT ->
  _cancel_event (late_arrivals sess items svc) = _cancel_event svc.
Proof.
  unfold late_arrivals.
  induction items as [| item items IH]; intros svc Hm; [reflexivity |].
  destruct item as [line | chunk | chunk]; cbn [fold_left];
    try now apply IH.
  rewrite IH by exact Hm. now apply on_chunk_generating_meeting.
Qed.

(** In meeting mode the loop reads the same lines and publishes the same
    events whether or not chunks arrive meanwhile. *)
Lemma stream_loop_meeting sess h failure items : forall svc1 svc2 text,
  mode sess = MEETING_ASSISTANT ->
  _cancel_event svc1 = _cancel_event svc2 ->
  let r1 := stream_loop sess h failure items svc1 text in
  let r2 := stream_loop sess h failure (lines_only items) svc2 text in
  snd (fst (fst r1)) = snd (fst (fst r2))
  /\ snd (fst r1) = snd (fst r2)
  /\ snd r1 = snd r2
  /\ _cancel_event (fst (fst (fst r1))) = _cancel_event svc1
  /\ _cancel_event (fst (fst (fst r2))) = _cancel_event svc2.
Proof.
  induction items as [| item items IH]; intros svc1 svc2 text Hm Hc;
    cbn zeta.
  - cbn. repeat split.
  - destruct item as [line | chunk | chunk].
    + change (lines_only (Line line :: items))
        with (Line line :: lines_only items).
      cbn [LLM.stream_loop].
      pose proof (fun t => IH svc1 svc2 t Hm Hc) as IHt. cbn zeta in IHt.
      pose proof (read_body_meeting sess items svc1 Hm) as Hb1.
      pose proof (read_body_meeting sess (lines_only items) svc2 Hm) as Hb2.
      rewrite <- Hc.
      destruct (_cancel_event svc1) eqn:Ec;
        [cbn [fst snd]; repeat split; congruence |].
      destruct (match line with [] => true | _ => false end
                || negb (startswith line (u "data: "))).
      { destruct (IHt text) as (A & B & C & D & E).
        repeat split; congruence. }
      destruct (str_eqb (skipn 6 line) (u "[DONE]"));
        [cbn [fst snd]; repeat split; congruence |].
      destruct (parse_token (skipn 6 line)) as [[| c token'] |].
      * destruct (IHt text) as (A & B & C & D & E).
        repeat split; congruence.
      * specialize (IHt (text ++ c :: token')).
        destruct (LLM.stream_loop parse_token sess h failure items svc1
                    (text ++ c :: token')) as [[[s1 t1] ev1] e1].
        destruct (LLM.stream_loop parse_token sess h failure
                    (lines_only items) svc2 (text ++ c :: token'))
          as [[[s2 t2] ev2] e2].
        cbn [fst snd] in *. destruct IHt as (-> & -> & -> & H1 & H2).
        repeat split; congruence.
      * destruct (IHt text) as (A & B & C & D & E).
        repeat split; congruence.
    + change (lines_only (Arrival chunk :: items)) with (lines_only items).
      cbn [LLM.stream_loop].
      pose proof (on_chunk_generating_meeting sess svc1 chunk Hm) as Hon.
      specialize (IH (on_chunk_generating sess svc1 chunk) svc2 text Hm).
      cbn zeta in IH. rewrite Hon in IH. exact (IH Hc).
    + change (lines_only (Late chunk :: items)) with (lines_only items).
      cbn [LLM.stream_loop]. exact (IH svc1 svc2 text Hm Hc).
Qed.

(** X21. In meeting mode the chunks that arrive while a hint is being
    generated do not disturb it: the request publishes the same events
    and counts the same as if none had arrived, and the cancel flag is
    left as it was. *)
Theorem meeting_arrivals_do_not_disturb (sess : Session) (svc : LLMService)
    (h : str) (status_code : Z) (items : list StreamItem)
    (failure : option str) :
  mode sess = MEETING_ASSISTANT ->
  let r1 := generate_body sess svc h (Response status_code items failure) in
  let r2 := generate_body sess svc h
              (Response status_code (lines_only items) failure) in
  fst (fst r1) = fst (fst r2)
  /\ snd r1 = snd r2
  /\ _cancel_event (snd (fst r1)) = _cancel_event svc.
Proof.
  intros Hm. cbn zeta. unfold LLM.generate_body.
  assert (Hlate : forall svc1,
             _cancel_event (late_arrivals sess items svc1)
             = _cancel_event svc1)
    by (intros; now apply late_arrivals_meeting).
  destruct (negb (status_code =? 200)).
  - cbv zeta. destruct failure as [msg |]; cbn [fst snd];
      repeat split; rewrite Hlate; now apply read_body_meeting.
  - pose proof (stream_loop_meeting sess h failure items svc svc [] Hm
                  eq_refl) as H.
    cbn zeta in H.
    destruct (LLM.stream_loop parse_token sess h failure items svc [])
      as [[[s1 t1] ev1] e1].
    destruct (LLM.stream_loop parse_token sess h failure (lines_only items)
                svc []) as [[[s2 t2] ev2] e2].
    cbn [fst snd] in H. destruct H as (-> & -> & -> & H1 & H2).
    cbv zeta.
    destruct e2 as [| | msg]; cbn [fst snd];
      [repeat split; now rewrite Hlate | |
       repeat split; now rewrite Hlate].
    destruct t2 as [| c r]; [cbn [fst snd]; repeat split; now rewrite Hlate |].
    rewrite H1, H2.
    destruct (negb (_cancel_event svc)); cbn [fst snd];
      repeat split; now rewrite Hlate.
Qed.

Lemma bullet_step_plain line :
  plain_line isdigit line = true -> bullet_step isdigit [] line = [].
Proof.
  unfold plain_line, bullet_step. cbn zeta.
  destruct (strip line) as [| c0 r]; [reflexivity |].
  intros H. apply andb_true_iff in H as [H1 H2].
  apply negb_true_iff in H1, H2. now rewrite H1, H2.
Qed.

(** X22. A reply none of whose lines begins with a bullet marker or is a
    numbered item is formatted to the empty text: lines before the first
    bullet are dropped, not kept as a hint. *)
Theorem prose_formats_to_nothing (text : str) :
  forallb (plain_line isdigit) (split NL (strip text)) = true ->
  _format_hint text = [].
Proof.
  intros H. unfold LLM._format_hint. cbn zeta.
  assert (E : fold_left (bullet_step isdigit) (split NL (strip text)) [] = []).
  { induction (split NL (strip text)) as [| l ls IH]; [reflexivity |].
    simpl in H. apply andb_true_iff in H as [Hl Hls].
    simpl. rewrite (bullet_step_plain l Hl). now apply IH. }
  rewrite E. reflexivity.
Qed.

End Runs.

(** A question is answered while a follow-up arrives during the
    publication of the hint; the follow-up is answered next.  Two hints
    are counted. *)
Lemma counters_follow_events_witness :
  match _on_chunk ascii_isdigit raw_token interview_session new_service
                  question [(u "hint-1", overtaken); (u "hint-2", answered)]
  with
  | Some (sess', _, evs) =>
      sess' = with_counts interview_session
                (count_events is_completed evs) (count_events is_error evs)
      /\ count_events is_completed evs = 2
      /\ hints_generated (stats sess') = 2
  | None => False
  end.
Proof.
  destruct (_on_chunk ascii_isdigit raw_token interview_session new_service
              question [(u "hint-1", overtaken); (u "hint-2", answered)])
    as [[[sess' svc'] evs] |] eqn:E.
  - split.
    + exact (counters_follow_events ascii_isdigit raw_token interview_session
               new_service question _ sess' svc' evs E).
    + vm_compute in E. injection E as <- <- <-. split; reflexivity.
  - vm_compute in E. discriminate E.
Defined.


(** A chunk that arrives while HINT_COMPLETED is being published does not
    take the hint back: the hint is published and counted, and the chunk
    is pending with the cancel flag set. *)
Lemma late_chunk_does_not_cancel :
  let r := LLM.generate_body ascii_isdigit raw_token interview_session
             new_service (u "hint-1") overtaken in
  snd r = [ HINT_TOKEN (u "hint-1") (u "- Start");
            HINT_COMPLETED (u "hint-1") (u "- Start") INTERVIEW_ASSISTANT ]
  /\ hints_generated (stats (fst (fst r))) = 1
  /\ _pending_chunk (snd (fst r)) = Some follow_up
  /\ _cancel_event (snd (fst r)) = true.
Proof. vm_compute. repeat split. Qed.

Lemma meeting_arrivals_do_not_disturb_witness :
  let r1 := LLM.generate_body ascii_isdigit raw_token
              Orchestrator.meeting_session new_service (u "hint-1")
              interrupted in
  let r2 := LLM.generate_body ascii_isdigit raw_token
              Orchestrator.meeting_session new_service (u "hint-1")
              (Response 200 [ Line (u "data: - Start");
                              Line (u "data:  small");
                              Line (u "data: [DONE]") ] None) in
  fst (fst r1) = fst (fst r2)
  /\ snd r1 = snd r2
  /\ _cancel_event (snd (fst r1)) = _cancel_event new_service.
Proof.
  apply (meeting_arrivals_do_not_disturb ascii_isdigit raw_token
           Orchestrator.meeting_session new_service (u "hint-1") 200
           [ Line (u "data: - Start"); Arrival follow_up;
             Line (u "data:  small"); Line (u "data: [DONE]") ] None).
  reflexivity.
Defined.

Lemma prose_formats_to_nothing_witness :
  LLM._format_hint ascii_isdigit prose = [].
Proof.
  apply (prose_formats_to_nothing ascii_isdigit prose).
  vm_compute. reflexivity.
Defined.

End LLMInvariants.

(* ===================================================================== *)
(** ** utils/event_bus.py: who is called *)

Module BusInvariants.
Import Bus.

Lemma handlers_at_touch bus et et' :
  handlers_at (touch bus et) et' = handlers_at bus et'.
Proof.
  unfold touch, handlers_at.
  destruct (_handlers bus !! et) eqn:E; [reflexivity |].
  cbn [_handlers]. destruct (decide (et' = et)) as [-> | Hne].
  - now rewrite lookup_insert_eq, E.
  - now rewrite lookup_insert_ne by congruence.
Qed.

Lemma handlers_at_insert bus et l et' :
  handlers_at (mkBus (<[et := l]> (_handlers bus))) et'
  = if decide (et' = et) then l else handlers_at bus et'.
Proof.
  unfold handlers_at. cbn [_handlers]. destruct (decide (et' = et)) as [-> | Hne].
  - now rewrite lookup_insert_eq.
  - now rewrite lookup_insert_ne by congruence.
Qed.

Lemma handlers_at_subscribe bus et h et' :
  handlers_at (subscribe bus et h) et'
  = if decide (et' = et)
    then (if decide (h ∈ handlers_at bus et) then handlers_at bus et
          else handlers_at bus et ++ [h])
    else handlers_at bus et'.
Proof.
  unfold subscribe. cbn zeta. rewrite handlers_at_touch.
  destruct (decide (h ∈ handlers_at bus et)).
  - rewrite handlers_at_touch. now destruct (decide (et' = et)) as [-> |].
  - rewrite handlers_at_insert, handlers_at_touch. reflexivity.
Qed.

Lemma handlers_at_unsubscribe bus et h et' :
  handlers_at (unsubscribe bus et h) et'
  = if decide (et' = et) then list_remove h (handlers_at bus et)
    else handlers_at bus et'.
Proof.
  unfold unsubscribe. cbn zeta. rewrite handlers_at_touch.
  destruct (decide (h ∈ handlers_at bus et)) as [Hin | Hnin].
  - rewrite handlers_at_insert, handlers_at_touch. reflexivity.
  - rewrite handlers_at_touch. destruct (decide (et' = et)) as [-> |];
      [| reflexivity].
    clear -Hnin. induction (handlers_at bus et) as [| y l IH];
      [reflexivity |].
    simpl. apply not_elem_of_cons in Hnin as [Hne Hl].
    destruct (decide (h = y)); [contradiction |]. now rewrite <- IH.
Qed.

Lemma list_remove_filter h l :
  NoDup l -> list_remove h l = List.filter (fun y => negb (Nat.eqb y h)) l.
Proof.
  induction 1 as [| y l Hy Hl IH]; [reflexivity |].
  simpl. destruct (decide (h = y)) as [<- | Hne].
  - rewrite Nat.eqb_refl. simpl.
    clear -Hy. induction l as [| z l IH]; [reflexivity |].
    apply not_elem_of_cons in Hy as [Hne Hl]. simpl.
    destruct (Nat.eqb_spec z h) as [-> | _]; [contradiction |].
    simpl. now rewrite <- IH.
  - destruct (Nat.eqb_spec y h) as [-> | _]; [contradiction |].
    simpl. now rewrite IH.
Qed.

Lemma NoDup_filter_list {A} (P : A -> bool) (l : list A) :
  NoDup l -> NoDup (List.filter P l).
Proof.
  induction 1 as [| y l Hy Hl IH]; [constructor |].
  simpl. destruct (P y); [| exact IH].
  constructor; [| exact IH].
  intros Hin. apply Hy. apply list_elem_of_In in Hin.
  apply List.filter_In in Hin as [Hin _]. now apply list_elem_of_In.
Qed.

Lemma call_NoDup bus c :
  (forall et, NoDup (handlers_at bus et)) ->
  forall et, NoDup (handlers_at (call bus c) et).
Proof.
  intros Hinv et'. destruct c as [et h | et h | et |]; cbn [call].
  - rewrite handlers_at_subscribe. destruct (decide (et' = et)); [| apply Hinv].
    destruct (decide (h ∈ handlers_at bus et)); [apply Hinv |].
    apply NoDup_app. split; [apply Hinv |]. split; [| apply NoDup_singleton].
    intros x Hx Hx'. apply list_elem_of_singleton in Hx'. now subst x.
  - rewrite handlers_at_unsubscribe.
    destruct (decide (et' = et)); [| apply Hinv].
    rewrite list_remove_filter by apply Hinv.
    apply NoDup_filter_list, Hinv.
  - unfold publish. cbn [fst]. rewrite handlers_at_touch. apply Hinv.
  - unfold clear, handlers_at. cbn [_handlers]. rewrite lookup_empty.
    constructor.
Qed.

Lemma run_NoDup_from calls : forall bus,
  (forall et, NoDup (handlers_at bus et)) ->
  forall et, NoDup (handlers_at (fold_left call calls bus) et).
Proof.
  induction calls as [| c calls IH]; intros bus Hinv; [exact Hinv |].
  simpl. apply IH. now apply call_NoDup.
Qed.

Lemma run_NoDup calls et : NoDup (handlers_at (run calls) et).
Proof.
  apply run_NoDup_from. intros et'. unfold new_bus, handlers_at.
  cbn [_handlers]. rewrite lookup_empty. constructor.
Qed.

(** X23. However often and in whatever order handlers subscribe and
    unsubscribe, no handler is registered twice for an event type, so a
    published event is delivered to each subscribed handler once. *)
Theorem publish_calls_each_handler_once (calls : list Call)
    (event_type : EventType) :
  NoDup (snd (publish (run calls) event_type)).
Proof.
  unfold publish. cbn [snd]. rewrite handlers_at_touch. apply run_NoDup.
Qed.

(** X24. After [unsubscribe(event_type, handler)] a published event of
    that type no longer reaches the handler; it reaches the other
    handlers as before and in the same order, and the handlers of the
    other event types are as they were. *)
Theorem unsubscribed_handler_is_not_called (calls : list Call)
    (event_type : EventType) (handler : EventHandler) :
  let bus := run calls in
  let bus' := unsubscribe bus event_type handler in
  snd (publish bus' event_type)
  = List.filter (fun h => negb (Nat.eqb h handler))
                (snd (publish bus event_type))
  /\ (handler ∉ snd (publish bus' event_type))
  /\ forall other, other <> event_type ->
       snd (publish bus' other) = snd (publish bus other).
Proof.
  cbn zeta. unfold publish. cbn [snd]. rewrite !handlers_at_touch.
  assert (E : handlers_at (unsubscribe (run calls) event_type handler)
                event_type
              = List.filter (fun h => negb (Nat.eqb h handler))
                  (handlers_at (run calls) event_type)).
  { rewrite handlers_at_unsubscribe.
    destruct (decide (event_type = event_type)); [| congruence].
    apply list_remove_filter, run_NoDup. }
  split; [exact E |]. split.
  - rewrite E. intros Hin. apply list_elem_of_In, List.filter_In in Hin.
    destruct Hin as [_ Hne]. now rewrite Nat.eqb_refl in Hne.
  - intros other Hne. rewrite !handlers_at_touch, handlers_at_unsubscribe.
    destruct (decide (other = event_type)); [contradiction | reflexivity].
Qed.

Lemma NoDup_count_occ_one (l : list EventHandler) (h : EventHandler) :
  NoDup l -> h ∈ l -> count_occ Nat.eq_dec l h = 1%nat.
Proof.
  induction 1 as [| y l Hy Hl IH]; intros Hin; [now apply elem_of_nil in Hin |].
  simpl. destruct (Nat.eq_dec y h) as [-> | Hne].
  - f_equal. apply List.count_occ_not_In. intros H. apply Hy.
    now apply list_elem_of_In.
  - apply elem_of_cons in Hin as [-> | Hin]; [congruence | now apply IH].
Qed.

(** X25. After [subscribe(event_type, handler)], however the bus was
    used before, a published event of that type reaches the handler
    exactly once, after the handlers already there; the handlers of the
    other event types are as they were. *)
Theorem subscribed_handler_is_called_once (calls : list Call)
    (event_type : EventType) (handler : EventHandler) :
  let bus := run calls in
  let bus' := subscribe bus event_type handler in
  count_occ Nat.eq_dec (snd (publish bus' event_type)) handler = 1%nat
  /\ (exists new, snd (publish bus' event_type)
                  = snd (publish bus event_type) ++ new)
  /\ forall other, other <> event_type ->
       snd (publish bus' other) = snd (publish bus other).
Proof.
  cbn zeta. unfold publish. cbn [snd]. rewrite !handlers_at_touch.
  assert (Hnodup : NoDup (handlers_at
                            (subscribe (run calls) event_type handler)
                            event_type)).
  { change (subscribe (run calls) event_type handler)
      with (call (run calls) (Subscribe event_type handler)).
    apply call_NoDup. intros et. apply run_NoDup. }
  revert Hnodup. rewrite handlers_at_subscribe.
  destruct (decide (event_type = event_type)); [| congruence].
  intros Hnodup. split; [| split].
  - apply NoDup_count_occ_one; [exact Hnodup |].
    destruct (decide (handler ∈ handlers_at (run calls) event_type));
      [assumption |].
    apply elem_of_app. right. now apply list_elem_of_singleton.
  - destruct (decide (handler ∈ handlers_at (run calls) event_type)).
    + exists []. now rewrite app_nil_r.
    + now exists [handler].
  - intros other Hne. rewrite !handlers_at_touch, handlers_at_subscribe.
    destruct (decide (other = event_type)); [contradiction | reflexivity].
Qed.

End BusInvariants.

(* ===================================================================== *)
(** ** services/stt_service.py: segments, ids and the counter *)

Module STTInvariants.
Import PyStr SessionModel Events STT.

(** The four things [_handle_message] can do. *)
Lemma handle_message_cases c uuid data :
  _handle_message c uuid data = (c, [])
  \/ (str_eqb (get (msg_type data)) SPEECH_STARTED = true
      /\ _handle_message c uuid data = (mkClient (speaker c) (Some uuid), []))
  \/ (str_eqb (get (msg_type data)) SPEECH_STARTED = false
      /\ exists i id,
           _current_segment_id c = Some (i :: id)
           /\ get (msg_delta data) <> []
           /\ _handle_message c uuid data
              = (c, [on_delta (get (msg_delta data)) (i :: id)]))
  \/ (str_eqb (get (msg_type data)) SPEECH_STARTED = false
      /\ get (msg_transcript data) <> []
      /\ _handle_message c uuid data
         = (mkClient (speaker c) None,
            [on_completed (get (msg_transcript data))
                          (id_or (_current_segment_id c) uuid)])).
Proof.
  unfold _handle_message. cbn zeta.
  destruct (str_eqb (get (msg_type data)) (u "session.created"));
    [now left |].
  destruct (str_eqb (get (msg_type data)) (u "session.updated"));
    [now left |].
  destruct (str_eqb (get (msg_type data)) SPEECH_STARTED);
    [right; left; now split |].
  destruct (str_eqb (get (msg_type data))
              (u "input_audio_buffer.speech_stopped")); [now left |].
  destruct (str_eqb (get (msg_type data)) DELTA).
  { destruct (get (msg_delta data)) as [| d0 d] eqn:Ed; [now left |].
    destruct (_current_segment_id c) as [[| i id] |] eqn:Ec;
      [now left | | now left].
    right. right. left. split; [reflexivity |].
    exists i, id. repeat split. discriminate. }
  destruct (str_eqb (get (msg_type data)) COMPLETED); [| now left].
  destruct (get (msg_transcript data)) as [| t0 t] eqn:Et; [now left |].
  right. right. right. split; [reflexivity |]. split; [discriminate |].
  reflexivity.
Qed.

(** With no segment open and no speech starting, no delta gets through;
    each transcript is published under the uuid of its own message. *)
Lemma receive_closed msgs : forall c,
  _current_segment_id c = None ->
  forallb not_speech_started msgs = true ->
  _current_segment_id (fst (receive c msgs)) = None
  /\ Forall (fun cb => is_on_delta cb = false
                       /\ In (callback_segment_id cb) (map fst msgs))
            (snd (receive c msgs)).
Proof.
  induction msgs as [| [uuid data] rest IH]; intros c Hc Hall.
  - simpl. split; [exact Hc | constructor].
  - cbn [forallb] in Hall. apply andb_true_iff in Hall as [Hm Hrest].
    unfold not_speech_started in Hm. cbn [snd] in Hm.
    apply negb_true_iff in Hm.
    cbn [receive].
    destruct (handle_message_cases c uuid data)
      as [E | [[Es _] | [(_ & i & id & Ei & _) | (_ & Ht & E)]]].
    + rewrite E. specialize (IH c Hc Hrest).
      destruct (receive c rest) as [c2 cbs2]. cbn [fst snd app] in *.
      destruct IH as [IH1 IH2]. split; [exact IH1 |].
      eapply List.Forall_impl; [| exact IH2].
      intros cb [H1 H2]. split; [exact H1 | now right].
    + congruence.
    + congruence.
    + rewrite E. specialize (IH (mkClient (speaker c) None) eq_refl Hrest).
      destruct (receive (mkClient (speaker c) None) rest) as [c2 cbs2].
      cbn [fst snd app] in *. destruct IH as [IH1 IH2].
      split; [exact IH1 |]. constructor.
      * split; [reflexivity |]. rewrite Hc. now left.
      * eapply List.Forall_impl; [| exact IH2].
        intros cb [H1 H2]. split; [exact H1 | now right].
Qed.

(** X26. Once a transcript has been published the segment is closed:
    until speech starts again no delta is passed on, whatever arrives,
    and every further transcript is published under a fresh uuid of its
    own, not under the id of an earlier segment. *)
Theorem deltas_after_completion_are_dropped (c : RealtimeSTTClient)
    (uuid0 : str) (data0 : Message) (msgs : list (str * Message)) :
  msg_type data0 = Some COMPLETED ->
  get (msg_transcript data0) <> [] ->
  forallb not_speech_started msgs = true ->
  let c1 := fst (_handle_message c uuid0 data0) in
  _current_segment_id c1 = None
  /\ _current_segment_id (fst (receive c1 msgs)) = None
  /\ Forall (fun cb => is_on_delta cb = false
                       /\ In (callback_segment_id cb) (map fst msgs))
            (snd (receive c1 msgs)).
Proof.
  intros Ht Hne Hall. cbn zeta.
  assert (E : _current_segment_id (fst (_handle_message c uuid0 data0))
              = None).
  { unfold _handle_message. rewrite Ht. cbn zeta.
    change (get (Some COMPLETED)) with COMPLETED.
    replace (str_eqb COMPLETED (u "session.created")) with false
      by (vm_compute; reflexivity).
    replace (str_eqb COMPLETED (u "session.updated")) with false
      by (vm_compute; reflexivity).
    replace (str_eqb COMPLETED SPEECH_STARTED) with false
      by (vm_compute; reflexivity).
    replace (str_eqb COMPLETED (u "input_audio_buffer.speech_stopped"))
      with false by (vm_compute; reflexivity).
    replace (str_eqb COMPLETED DELTA) with false by (vm_compute; reflexivity).
    replace (str_eqb COMPLETED COMPLETED) with true
      by (vm_compute; reflexivity).
    destruct (get (msg_transcript data0)); [congruence | reflexivity]. }
  split; [exact E |]. now apply receive_closed.
Qed.

Lemma receive_open msgs : forall c i id,
  _current_segment_id c = Some (i :: id) ->
  forallb not_speech_started msgs = true ->
  exists ds rest,
    snd (receive c msgs) = ds ++ rest
    /\ Forall (fun cb => is_on_delta cb = true
                         /\ callback_segment_id cb = i :: id) ds
    /\ match rest with
       | [] => True
       | cb :: late =>
           is_on_delta cb = false /\ callback_segment_id cb = i :: id
           /\ Forall (fun cb' => is_on_delta cb' = false) late
       end.
Proof.
  induction msgs as [| [uuid data] rest IH]; intros c i id Hc Hall.
  - exists [], []. simpl. repeat split; constructor.
  - cbn [forallb] in Hall. apply andb_true_iff in Hall as [Hm Hrest].
    unfold not_speech_started in Hm. cbn [snd] in Hm.
    apply negb_true_iff in Hm.
    cbn [receive].
    destruct (handle_message_cases c uuid data)
      as [E | [[Es _] | [(_ & i' & id' & Ei & Hd & E) | (_ & Ht & E)]]].
    + rewrite E. destruct (IH c i id Hc Hrest) as (ds & rs & E2 & Hds & Hrs).
      destruct (receive c rest) as [c2 cbs2]. cbn [fst snd app] in *.
      now exists ds, rs.
    + congruence.
    + rewrite E. destruct (IH c i id Hc Hrest) as (ds & rs & E2 & Hds & Hrs).
      destruct (receive c rest) as [c2 cbs2]. cbn [fst snd app] in *.
      exists (on_delta (get (msg_delta data)) (i' :: id') :: ds), rs.
      rewrite E2. split; [reflexivity |]. split; [| exact Hrs].
      constructor; [| exact Hds]. split; [reflexivity |].
      cbn [callback_segment_id]. congruence.
    + rewrite E.
      destruct (receive_closed rest (mkClient (speaker c) None) eq_refl
                  Hrest) as [_ Hlate].
      destruct (receive (mkClient (speaker c) None) rest) as [c2 cbs2].
      cbn [fst snd app] in *.
      exists [], (on_completed (get (msg_transcript data))
                    (id_or (_current_segment_id c) uuid) :: cbs2).
      split; [reflexivity |]. split; [constructor |].
      split; [reflexivity |]. split; [now rewrite Hc |].
      eapply List.Forall_impl; [| exact Hlate]. now intros cb [H _].
Qed.

(** X27. From the start of speech until speech starts again, what a
    client passes on is: deltas, all under the id minted when speech
    started; then, if a transcript arrives, that transcript under the
    same id; and after it no more deltas. *)
Theorem segment_keeps_its_id (c : RealtimeSTTClient) (uuid0 : str)
    (data0 : Message) (msgs : list (str * Message)) :
  msg_type data0 = Some SPEECH_STARTED ->
  uuid0 <> [] ->
  forallb not_speech_started msgs = true ->
  let c1 := fst (_handle_message c uuid0 data0) in
  exists ds rest,
    snd (receive c1 msgs) = ds ++ rest
    /\ Forall (fun cb => is_on_delta cb = true
                         /\ callback_segment_id cb = uuid0) ds
    /\ match rest with
       | [] => True
       | cb :: late =>
           is_on_delta cb = false /\ callback_segment_id cb = uuid0
           /\ Forall (fun cb' => is_on_delta cb' = false) late
       end.
Proof.
  intros Ht Hne Hall. cbn zeta.
  assert (E : _current_segment_id (fst (_handle_message c uuid0 data0))
              = Some uuid0).
  { unfold _handle_message. rewrite Ht. cbn zeta.
    change (get (Some SPEECH_STARTED)) with SPEECH_STARTED.
    replace (str_eqb SPEECH_STARTED (u "session.created")) with false
      by (vm_compute; reflexivity).
    replace (str_eqb SPEECH_STARTED (u "session.updated")) with false
      by (vm_compute; reflexivity).
    replace (str_eqb SPEECH_STARTED SPEECH_STARTED) with true
      by (vm_compute; reflexivity).
    reflexivity. }
  destruct uuid0 as [| i id]; [congruence |].
  now apply receive_open.
Qed.

Lemma callbacks_effect which0 cbs : forall sess now0,
  let r := callbacks which0 sess cbs now0 in
  transcript_segments (stats (fst r))
  = transcript_segments (stats sess)
    + Z.of_nat (length (List.filter is_transcript_completed (snd r)))
  /\ Forall (fun e => event_speaker e = which0) (snd r)
  /\ (Forall (fun cb => match cb with
                        | on_delta t _ | on_completed t _ => t <> []
                        end) cbs ->
      Forall (fun e => event_text e <> []) (snd r)).
Proof.
  induction cbs as [| cb rest IH]; intros sess now0; cbn zeta.
  - simpl. repeat split; try constructor. lia.
  - cbn [callbacks].
    destruct (callback which0 sess cb now0) as [sess1 evs1] eqn:E1.
    specialize (IH sess1 now0). cbn zeta in IH.
    destruct (callbacks which0 sess1 rest now0) as [sess2 evs2].
    cbn [fst snd] in *. destruct IH as (IH1 & IH2 & IH3).
    rewrite List.filter_app, length_app, IH1.
    destruct which0, cb; cbn in E1; injection E1 as <- <-;
      destruct sess; cbn;
      (split; [lia |]); (split; [constructor; [reflexivity | exact IH2] |]);
      intros Hall; inversion Hall; subst;
      (constructor; [assumption | now apply IH3]).
Qed.

Lemma handle_message_texts c uuid data :
  Forall (fun cb => match cb with
                    | on_delta t _ | on_completed t _ => t <> []
                    end) (snd (_handle_message c uuid data)).
Proof.
  destruct (handle_message_cases c uuid data)
    as [E | [[_ E] | [(_ & i & id & _ & Hd & E) | (_ & Ht & E)]]];
    rewrite E; cbn [snd]; repeat constructor; assumption.
Qed.

(** X28. The service counts and attributes what it publishes: over any
    messages on the two sockets, [transcript_segments] grows by the number
    of TRANSCRIPT_COMPLETED events published, every event of the mic
    socket is attributed to ME and of the system socket to THEM, and no
    event carries an empty text. *)
Theorem transcripts_are_counted_and_attributed (svc : STTService)
    (arrivals : list Arrival) :
  let r := on_messages svc arrivals in
  transcript_segments (stats (session (fst r)))
  = transcript_segments (stats (session svc))
    + Z.of_nat (length (List.filter is_transcript_completed (snd r)))
  /\ Forall (fun e => event_text e <> []
                      /\ exists a, In a arrivals
                                   /\ which a = event_speaker e) (snd r).
Proof.
  revert svc. induction arrivals as [| a rest IH]; intros svc; cbn zeta.
  - simpl. split; [lia | constructor].
  - cbn [on_messages].
    destruct (on_message svc a) as [svc1 evs1] eqn:E1.
    specialize (IH svc1). cbn zeta in IH.
    destruct (on_messages svc1 rest) as [svc2 evs2].
    cbn [fst snd] in *. destruct IH as [IH1 IH2].
    assert (H1 : transcript_segments (stats (session svc1))
                 = transcript_segments (stats (session svc))
                   + Z.of_nat (length (List.filter is_transcript_completed
                                                   evs1))
                 /\ Forall (fun e => event_text e <> []
                                     /\ which a = event_speaker e) evs1).
    { unfold on_message in E1.
      destruct (which a) eqn:Ew.
      - pose proof (handle_message_texts (_mic_client svc) (uuid a) (data a))
          as Htexts.
        destruct (_handle_message (_mic_client svc) (uuid a) (data a))
          as [c cbs].
        pose proof (callbacks_effect ME cbs (session svc) (now a)) as Hcb.
        cbn zeta in Hcb.
        destruct (callbacks ME (session svc) cbs (now a)) as [sess evs].
        injection E1 as <- <-. cbn [fst snd session] in *.
        destruct Hcb as (Hc1 & Hc2 & Hc3). split; [exact Hc1 |].
        specialize (Hc3 Htexts).
        apply List.Forall_forall. intros e He. split.
        + exact (proj1 (List.Forall_forall _ _) Hc3 e He).
        + symmetry. exact (proj1 (List.Forall_forall _ _) Hc2 e He).
      - pose proof (handle_message_texts (_system_client svc) (uuid a)
                      (data a)) as Htexts.
        destruct (_handle_message (_system_client svc) (uuid a) (data a))
          as [c cbs].
        pose proof (callbacks_effect THEM cbs (session svc) (now a)) as Hcb.
        cbn zeta in Hcb.
        destruct (callbacks THEM (session svc) cbs (now a)) as [sess evs].
        injection E1 as <- <-. cbn [fst snd session] in *.
        destruct Hcb as (Hc1 & Hc2 & Hc3). split; [exact Hc1 |].
        specialize (Hc3 Htexts).
        apply List.Forall_forall. intros e He. split.
        + exact (proj1 (List.Forall_forall _ _) Hc3 e He).
        + symmetry. exact (proj1 (List.Forall_forall _ _) Hc2 e He). }
    destruct H1 as [H1 H2].
    rewrite List.filter_app, length_app. split; [lia |].
    apply Forall_app. split.
    + eapply List.Forall_impl; [| exact H2].
      intros e [Ht Hw]. split; [exact Ht |]. exists a. split; [now left | exact Hw].
    + eapply List.Forall_impl; [| exact IH2].
      intros e (Ht & a' & Hin & Hw). split; [exact Ht |].
      exists a'. split; [now right | exact Hw].
Qed.

Lemma deltas_after_completion_are_dropped_witness :
  let c1 := fst (_handle_message
                   (fst (receive (new_client THEM) (removelast one_utterance)))
                   (u "id-4") (completed_of (u "Hello"))) in
  _current_segment_id c1 = None
  /\ _current_segment_id (fst (receive c1 late_messages)) = None
  /\ Forall (fun cb => is_on_delta cb = false
                       /\ In (callback_segment_id cb)
                             (map fst late_messages))
            (snd (receive c1 late_messages)).
Proof.
  apply (deltas_after_completion_are_dropped
           (fst (receive (new_client THEM) (removelast one_utterance)))
           (u "id-4") (completed_of (u "Hello")) late_messages).
  - reflexivity.
  - vm_compute. discriminate.
  - vm_compute. reflexivity.
Defined.

Lemma segment_keeps_its_id_witness :
  let c1 := fst (_handle_message (new_client THEM) (u "id-1")
                                 speech_started) in
  exists ds rest,
    snd (receive c1 (tl one_utterance ++ late_messages)) = ds ++ rest
    /\ Forall (fun cb => is_on_delta cb = true
                         /\ callback_segment_id cb = u "id-1") ds
    /\ match rest with
       | [] => True
       | cb :: late =>
           is_on_delta cb = false /\ callback_segment_id cb = u "id-1"
           /\ Forall (fun cb' => is_on_delta cb' = false) late
       end.
Proof.
  apply (segment_keeps_its_id (new_client THEM) (u "id-1") speech_started
           (tl one_utterance ++ late_messages)).
  - reflexivity.
  - vm_compute. discriminate.
  - vm_compute. reflexivity.
Defined.

End STTInvariants.

(* ===================================================================== *)
(** ** services/knowledge_service.py: [chunk_text] ends and keeps to
    the size *)

Module ChunkingInvariants.
Import PyStr KnowledgeChunking.

Lemma len_lstrip s : len (lstrip s) <= len s.
Proof.
  destruct (PyStrProps.lstrip_suffix s) as [pre E].
  rewrite E at 2. unfold len. rewrite length_app. lia.
Qed.

Lemma len_strip s : len (strip s) <= len s.
Proof.
  unfold strip, rstrip.
  pose proof (len_lstrip s) as H1.
  pose proof (len_lstrip (rev (lstrip s))) as H2.
  unfold len in *. rewrite length_rev in *. lia.
Qed.

Lemma len_slice s lo hi : 0 <= lo <= hi -> len (slice s lo hi) <= hi - lo.
Proof.
  intros H. unfold slice, adjust, len. cbn zeta.
  rewrite length_firstn.
  destruct (lo <? 0) eqn:E1; [apply Z.ltb_lt in E1; lia |].
  destruct (hi <? 0) eqn:E2; [apply Z.ltb_lt in E2; lia |].
  rewrite E1, E2.
  destruct (Z.of_nat (length s) <? lo) eqn:E3;
    destruct (Z.of_nat (length s) <? hi) eqn:E4;
    try apply Z.ltb_lt in E3; try apply Z.ltb_ge in E3;
    try apply Z.ltb_lt in E4; try apply Z.ltb_ge in E4; lia.
Qed.

Lemma adjust_id n i : 0 <= i <= n -> adjust n i = i.
Proof.
  intros H. unfold adjust.
  destruct (i <? 0) eqn:E1; [apply Z.ltb_lt in E1; lia |]. rewrite E1.
  destruct (n <? i) eqn:E2; [apply Z.ltb_lt in E2; lia | reflexivity].
Qed.

Lemma rfind_loop_range s sub lo k :
  rfind_loop s sub lo k = -1
  \/ lo <= rfind_loop s sub lo k < lo + Z.of_nat k.
Proof.
  induction k as [| k IH]; [now left |].
  cbn [rfind_loop].
  destruct (startswith (skipn (Z.to_nat (lo + Z.of_nat k)) s) sub).
  - right. lia.
  - destruct IH as [IH | IH]; [now left | right; lia].
Qed.

Lemma find_break_range text start max_chars puncts :
  0 <= start -> 1 <= max_chars -> start + max_chars < len text ->
  Forall (fun p => 1 <= len p) puncts ->
  start + max_chars / 2
  < find_break text start max_chars (start + max_chars) puncts
  <= start + max_chars.
Proof.
  intros Hs Hm Hend Hp.
  assert (Hhalf : 0 <= max_chars / 2 < max_chars).
  { split; [apply Z.div_pos; lia | apply Z.div_lt; lia]. }
  induction Hp as [| p ps Hlen _ IH]; cbn [find_break]; [lia |].
  destruct (start <? rfind text p (start + max_chars / 2)
                           (start + max_chars)) eqn:E; [| exact IH].
  apply Z.ltb_lt in E. unfold rfind in *. cbn zeta in *.
  rewrite !adjust_id in * by lia.
  destruct (rfind_loop_range text p (start + max_chars / 2)
              (Z.to_nat (start + max_chars - len p
                         - (start + max_chars / 2) + 1))) as [R | R]; lia.
Qed.

Lemma chunk_loop_ok text max_chars overlap :
  1 <= max_chars -> 0 <= overlap <= max_chars / 2 ->
  forall fuel start chunks,
    0 <= start ->
    (Z.to_nat (len text - start) < fuel)%nat ->
    Forall (fun c => len c <= max_chars) chunks ->
    exists res,
      chunk_loop fuel text max_chars overlap start chunks = Some res
      /\ Forall (fun c => len c <= max_chars) res
      /\ (length chunks <= length res)%nat
      /\ (start < len text -> (length chunks < length res)%nat).
Proof.
  intros Hm Ho.
  assert (Hhalf : 0 <= max_chars / 2 < max_chars).
  { split; [apply Z.div_pos; lia | apply Z.div_lt; lia]. }
  induction fuel as [| fuel IH]; intros start chunks Hs Hfuel Hall; [lia |].
  cbn [chunk_loop].
  destruct (start <? len text) eqn:E.
  - apply Z.ltb_lt in E. cbn zeta.
    set (end_ := if start + max_chars <? len text
                 then find_break text start max_chars (start + max_chars)
                                 PUNCTUATION
                 else start + max_chars).
    assert (Hend : start + max_chars / 2 < end_ <= start + max_chars).
    { unfold end_. destruct (start + max_chars <? len text) eqn:E2; [| lia].
      apply Z.ltb_lt in E2. apply find_break_range; try lia.
      repeat constructor; vm_compute; discriminate. }
    destruct (IH (end_ - overlap) (chunks ++ [strip (slice text start end_)]))
      as (res & -> & Hres & Hlen & _).
    + lia.
    + lia.
    + apply Forall_app. split; [exact Hall |]. constructor; [| constructor].
      pose proof (len_strip (slice text start end_)) as H1.
      pose proof (len_slice text start end_) as H2. lia.
    + exists res. rewrite length_app in Hlen. cbn in Hlen.
      repeat split; [exact Hres | lia | lia].
  - apply Z.ltb_ge in E. exists chunks. repeat split; [exact Hall | lia | lia].
Qed.

(** X29. When the overlap is at least 0 and at most half of [max_chars]
    (as with the defaults, 100 and 1000), [chunk_text] ends, within as
    many rounds as the text has characters, with at least one chunk, and
    no chunk is longer than [max_chars]. *)
Theorem chunk_text_ends_with_bounded_chunks (fuel : nat) (text : str)
    (max_chars overlap : Z) :
  1 <= max_chars -> 0 <= overlap <= max_chars / 2 ->
  (Z.to_nat (len text) < fuel)%nat ->
  exists chunks,
    chunk_text fuel text max_chars overlap = Some chunks
    /\ chunks <> []
    /\ Forall (fun c => len c <= max_chars) chunks.
Proof.
  intros Hm Ho Hfuel. unfold chunk_text.
  destruct (len text <=? max_chars) eqn:E.
  - apply Z.leb_le in E. exists [text].
    repeat split; [discriminate | now repeat constructor].
  - apply Z.leb_gt in E.
    destruct (chunk_loop_ok text max_chars overlap Hm Ho fuel 0 [])
      as (res & Hres & Hall & _ & Hlen); [lia | | constructor |].
    { now rewrite Z.sub_0_r. }
    exists res. repeat split; [exact Hres | | exact Hall].
    intros ->. specialize (Hlen ltac:(lia)). simpl in Hlen. lia.
Qed.

Lemma chunk_text_ends_with_bounded_chunks_witness :
  exists chunks,
    chunk_text 100 three_sentences 30 10 = Some chunks
    /\ chunks <> []
    /\ Forall (fun c => len c <= 30) chunks.
Proof.
  apply (chunk_text_ends_with_bounded_chunks 100 three_sentences 30 10).
  - lia.
  - change (30 / 2) with 15. lia.
  - vm_compute. lia.
Defined.

End ChunkingInvariants.

(* ===================================================================== *)
(** ** utils/audio.py: the two conversions undo each other *)

Module AudioConvertProps.
Import SessionModel Audio AudioConvert.

Lemma int16_le_range lo hi : -32768 <= int16_le lo hi <= 32767.
Proof.
  unfold int16_le. cbn zeta.
  pose proof (Byte.to_N_bounded lo) as Hlo.
  pose proof (Byte.to_N_bounded hi) as Hhi.
  destruct (32768 <=? Z.of_N (Byte.to_N lo) + 256 * Z.of_N (Byte.to_N hi))
    eqn:E; [apply Z.leb_le in E | apply Z.leb_gt in E]; lia.
Qed.

Lemma byte_of_to_N b : byte_of (Z.of_N (Byte.to_N b)) = b.
Proof.
  unfold byte_of. pose proof (Byte.to_N_bounded b) as Hb.
  rewrite Z.mod_small by lia. rewrite N2Z.id. now rewrite Byte.of_to_N.
Qed.

(** [tobytes] undoes the decoding of a sample. *)
Lemma int16_tobytes_le lo hi : int16_tobytes (int16_le lo hi) = [lo; hi].
Proof.
  unfold int16_tobytes.
  pose proof (Byte.to_N_bounded lo) as Hlo.
  pose proof (Byte.to_N_bounded hi) as Hhi.
  assert (E1 : byte_of (int16_le lo hi) = lo).
  { rewrite <- (byte_of_to_N lo) at 2. unfold byte_of, int16_le. cbn zeta.
    replace ((if 32768 <=? Z.of_N (Byte.to_N lo) + 256 * Z.of_N (Byte.to_N hi)
              then Z.of_N (Byte.to_N lo) + 256 * Z.of_N (Byte.to_N hi) - 65536
              else Z.of_N (Byte.to_N lo) + 256 * Z.of_N (Byte.to_N hi))
             mod 256)
      with (Z.of_N (Byte.to_N lo) mod 256); [reflexivity |].
    destruct (32768 <=? _).
    - replace (Z.of_N (Byte.to_N lo) + 256 * Z.of_N (Byte.to_N hi) - 65536)
        with (Z.of_N (Byte.to_N lo)
              + (Z.of_N (Byte.to_N hi) - 256) * 256) by lia.
      now rewrite Z.mod_add by lia.
    - replace (Z.of_N (Byte.to_N lo) + 256 * Z.of_N (Byte.to_N hi))
        with (Z.of_N (Byte.to_N lo) + Z.of_N (Byte.to_N hi) * 256) by lia.
      now rewrite Z.mod_add by lia. }
  assert (E2 : byte_of (int16_le lo hi / 256) = hi).
  { rewrite <- (byte_of_to_N hi) at 2. unfold byte_of, int16_le. cbn zeta.
    replace ((if 32768 <=? Z.of_N (Byte.to_N lo) + 256 * Z.of_N (Byte.to_N hi)
              then Z.of_N (Byte.to_N lo) + 256 * Z.of_N (Byte.to_N hi) - 65536
              else Z.of_N (Byte.to_N lo) + 256 * Z.of_N (Byte.to_N hi))
             / 256 mod 256)
      with (Z.of_N (Byte.to_N hi) mod 256); [reflexivity |].
    destruct (32768 <=? _).
    - replace (Z.of_N (Byte.to_N lo) + 256 * Z.of_N (Byte.to_N hi) - 65536)
        with (Z.of_N (Byte.to_N lo)
              + (Z.of_N (Byte.to_N hi) - 256) * 256) by lia.
      rewrite Z.div_add by lia. rewrite (Z.div_small (Z.of_N _)) by lia.
      replace (0 + (Z.of_N (Byte.to_N hi) - 256))
        with (Z.of_N (Byte.to_N hi) + (-1) * 256) by lia.
      now rewrite Z.mod_add by lia.
    - replace (Z.of_N (Byte.to_N lo) + 256 * Z.of_N (Byte.to_N hi))
        with (Z.of_N (Byte.to_N lo) + Z.of_N (Byte.to_N hi) * 256) by lia.
      rewrite Z.div_add by lia. rewrite (Z.div_small (Z.of_N _)) by lia.
      reflexivity. }
  now rewrite E1, E2.
Qed.

(** Scaling a sample back and cutting it to the range gives the integer
    it came from. *)
Lemma requantize v :
  -32768 <= v <= 32767 ->
  astype_int16 (clip (inject_Z v / 32768 * 32768) (-32768) 32767)%Q = v.
Proof.
  intros Hv. unfold clip. cbn zeta.
  assert (Hlo : Qle_bool (-32768) (inject_Z v / 32768 * 32768) = true).
  { apply Qle_bool_iff. unfold Qle. cbn. lia. }
  rewrite Hlo.
  assert (Hhi : Qle_bool (inject_Z v / 32768 * 32768) 32767 = true).
  { apply Qle_bool_iff. unfold Qle. cbn. lia. }
  rewrite Hhi. unfold astype_int16. cbn.
  rewrite Z.mul_1_r. apply Z.quot_mul. discriminate.
Qed.

Lemma roundtrip_samples samples :
  Forall (fun v => -32768 <= v <= 32767) samples ->
  flat_map (fun x => int16_tobytes
                       (astype_int16 (clip (x * 32768) (-32768) 32767)%Q))
           (List.map (fun x => inject_Z x / 32768)%Q samples)
  = flat_map int16_tobytes samples.
Proof.
  induction 1 as [| v vs Hv _ IH]; [reflexivity |].
  cbn [List.map flat_map]. now rewrite IH, requantize.
Qed.

Lemma frombuffer_roundtrip n : forall buf,
  (length buf <= n)%nat ->
  match frombuffer_int16 buf with
  | Some samples =>
      flat_map int16_tobytes samples = buf
      /\ Forall (fun v => -32768 <= v <= 32767) samples
      /\ length buf = (2 * length samples)%nat
  | None => Nat.odd (length buf) = true
  end.
Proof.
  induction n as [| n IH]; intros buf Hlen.
  - destruct buf; [| simpl in Hlen; lia]. simpl. repeat split. constructor.
  - destruct buf as [| lo [| hi rest]]; [simpl; repeat split; constructor
                                        | reflexivity |].
    cbn [frombuffer_int16]. specialize (IH rest ltac:(simpl in Hlen; lia)).
    destruct (frombuffer_int16 rest) as [samples |].
    + destruct IH as (E & Hall & Hl). split; [| split].
      * cbn [flat_map]. rewrite int16_tobytes_le, E. reflexivity.
      * constructor; [apply int16_le_range | exact Hall].
      * simpl. lia.
    + change (length (lo :: hi :: rest)) with (S (S (length rest))).
      now rewrite Nat.odd_succ_succ.
Qed.

(** X30. Converting PCM bytes to float samples and back returns the
    bytes, every one, for every buffer of even length; every sample lies
    in [-1, 1); and the conversion raises only when the length is odd. *)
Theorem pcm_float32_roundtrip (pcm_bytes : bytes) :
  match pcm_to_float32 pcm_bytes with
  | Some samples =>
      float32_to_pcm samples = pcm_bytes
      /\ Forall (fun x => -1 <= x /\ x < 1)%Q samples
      /\ length pcm_bytes = (2 * length samples)%nat
  | None => Nat.odd (length pcm_bytes) = true
  end.
Proof.
  unfold pcm_to_float32, float32_to_pcm.
  pose proof (frombuffer_roundtrip (length pcm_bytes) pcm_bytes (le_n _))
    as H.
  destruct (frombuffer_int16 pcm_bytes) as [samples |]; [| exact H].
  destruct H as (E & Hall & Hl). split; [| split].
  - now rewrite roundtrip_samples, E.
  - clear E Hl. induction Hall as [| v vs Hv _ IH]; [constructor |].
    cbn [List.map]. constructor; [| exact IH].
    unfold Qle, Qlt. cbn. lia.
  - rewrite length_map. exact Hl.
Qed.

End AudioConvertProps.
